(** * CrownstoneSSE: the SSE session of crownstone-lib-nodejs-sse

    A shallow embedding of [src/CrownstoneSSE.ts].  The class keeps one
    streaming connection alive; everything it does is a reaction to a call
    of one of its methods, to an event of the transport, to the completion
    of a login request, or to a timer.  The development has three parts.

    - The model.  [Js]: the JavaScript values the program inspects (parsed
      JSON), with property access, numbers and their conversions from and
      to strings, [===] and [==] against literals.  [Sse]: the fields of the class, the objects of the
      runtime it talks to (event sources, timers, pending requests), its
      methods as functions on that world, the closures it hands to the
      runtime, defunctionalised, and the event loop [step]/[run], one
      environment event at a time.
    - The vocabulary of the statements.
    - The lemmas: what each method does to the world, the properties every
      turn of the loop keeps, and the theorems on the specification.

    Conventions.  The logger is not modelled.  The caller's event callback
    is an opaque identifier: invoking it is recorded in the trace, returns
    normally and does not call back into the session.  A string is a
    sequence of code units below 256, one [ascii] each.  A JSON number is
    given by an integer and stands for the double nearest to it; numbers
    with a fraction are left out.  A request body is recorded as the value
    given to [JSON.stringify].  The transport follows the EventSource life cycle:
    a connection opens only while connecting, carries frames only while
    open, and is silent once closed.  Time is a clock in milliseconds that
    advances by [elapse] events and never past a timer that is due.  *)

From Stdlib Require Import ZArith String Ascii List Bool Lia.
From stdpp Require Import base tactics option list.
Import ListNotations.

#[local] Open Scope string_scope.
#[local] Open Scope Z_scope.

(* ================================================================== *)
(** ** JavaScript values *)
(* ================================================================== *)

Module Js.

(** Values produced by [JSON.parse], plus [undefined]. An object is the list
    of its own properties, first binding wins. *)
#[warnings="-register-all"]
Inductive jsval : Type :=
| JUndefined
| JNull
| JBool (b : bool)
| JNum (n : Z)
| JStr (s : string)
| JArr (items : list jsval)
| JObj (props : list (string * jsval)).

(** What a JavaScript [throw] carries: a value, or one of the two built-in
    errors the program can provoke. *)
Inductive thrown : Type :=
| Thrown (v : jsval)
| TypeError
| SyntaxError.

(** Completion of a synchronous piece of code. *)
Inductive completion (A : Type) : Type :=
| Normal (a : A)
| Abrupt (e : thrown).
Arguments Normal {A} a.
Arguments Abrupt {A} e.

Fixpoint lookup_prop (k : string) (props : list (string * jsval)) : jsval :=
  match props with
  | [] => JUndefined
  | (k', v) :: rest => if String.eqb k k' then v else lookup_prop k rest
  end.

(** [v.k] for the property names the program reads ([error], [statusCode],
    [code], [id], [type], [subType]): a TypeError on [undefined] and [null],
    the own property of an object, [undefined] on every other value. *)
Definition get (v : jsval) (k : string) : completion jsval :=
  match v with
  | JUndefined | JNull => Abrupt TypeError
  | JObj props => Normal (lookup_prop k props)
  | _ => Normal JUndefined
  end.

(** [v?.k] *)
Definition get_opt (v : jsval) (k : string) : jsval :=
  match v with
  | JUndefined | JNull => JUndefined
  | JObj props => lookup_prop k props
  | _ => JUndefined
  end.

(** Truthiness, as used by [if (...)] and [&&]. *)
Definition truthy (v : jsval) : bool :=
  match v with
  | JUndefined | JNull => false
  | JBool b => b
  | JNum n => negb (n =? 0)
  | JStr s => negb (String.eqb s "")
  | JArr _ | JObj _ => true
  end.

(** *** Numbers *)

(** A Number value: a double. A finite one is [m * 2^e] with [m] odd, or
    zero ([m = 0], [e = 0]). The sign of zero is not kept: [==], [===],
    truthiness and the conversion to a string, which is all the program does
    with a number, do not tell [-0] from [+0]. *)
Inductive number : Type :=
| NaN
| Infinity (negative : bool)
| Dyadic (m : Z) (e : Z).

Fixpoint odd_part (p : positive) (e : Z) : positive * Z :=
  match p with
  | xO p' => odd_part p' (e + 1)
  | _ => (p, e)
  end.

(** [m * 2^e] with the powers of two moved to the exponent. *)
Definition canonical (m e : Z) : number :=
  match m with
  | Z0 => Dyadic 0 0
  | Zpos p => let (q, e') := odd_part p e in Dyadic (Zpos q) e'
  | Zneg p => let (q, e') := odd_part p e in Dyadic (Zneg q) e'
  end.

(** The Number value for [p/q] ([p >= 0], [q > 0]) with the given sign: the
    nearest double, the one with the even significand when two are equally
    near; 53 bits, fewer below [2^-1022]; infinite from [2^1024] on. *)
Definition round_ratio (negative : bool) (p q : Z) : number :=
  if p =? 0 then Dyadic 0 0 else
  let e0 := Z.log2 p - Z.log2 q in
  let E := if (if 0 <=? e0 then q * 2 ^ e0 <=? p else q <=? p * 2 ^ (- e0))
           then e0 else e0 - 1 in
  let u := Z.max (E - 52) (-1074) in
  let num := if 0 <=? u then p else p * 2 ^ (- u) in
  let den := if 0 <=? u then q * 2 ^ u else q in
  let m := num / den in
  let r := num mod den in
  let m := if (den <? 2 * r) || ((den =? 2 * r) && Z.odd m) then m + 1 else m in
  if m =? 0 then Dyadic 0 0
  else if 1024 <=? u + Z.log2 m then Infinity negative
  else canonical (if negative then - m else m) u.

(** The number an integer stands for in a JSON text. *)
Definition NumberOfInteger (n : Z) : number := round_ratio (n <? 0) (Z.abs n) 1.

(** [x === y] on numbers. *)
Definition number_eqb (x y : number) : bool :=
  match x, y with
  | Dyadic m e, Dyadic m' e' => (m =? m') && (e =? e')
  | Infinity s, Infinity s' => Bool.eqb s s'
  | _, _ => false
  end.

(** *** Conversion of a number to a string *)

Definition digit_char (d : Z) : ascii := ascii_of_nat (48 + Z.to_nat d).

Fixpoint digits_of (fuel : nat) (n : Z) (acc : string) : string :=
  match fuel with
  | O => acc
  | S fuel' =>
      let acc' := String (digit_char (n mod 10)) acc in
      if n / 10 =? 0 then acc' else digits_of fuel' (n / 10) acc'
  end.

(** Decimal spelling of a natural number; [Z.log2] bounds the number of
    digits. *)
Definition decimal (n : Z) : string := digits_of (S (Z.to_nat (Z.log2 n))) n "".

(** [a/b < 10^k], for positive [a] and [b]. *)
Definition below_power (a b k : Z) : bool :=
  if 0 <=? k then a <? b * 10 ^ k else a * 10 ^ (- k) <? b.

Fixpoint up_to_power (fuel : nat) (a b k : Z) : Z :=
  match fuel with
  | O => k
  | S fuel' => if below_power a b k then k else up_to_power fuel' a b (k + 1)
  end.

Fixpoint down_to_power (fuel : nat) (a b k : Z) : Z :=
  match fuel with
  | O => k
  | S fuel' => if below_power a b (k - 1) then down_to_power fuel' a b (k - 1) else k
  end.

(** The [k] with [10^(k-1) <= a/b < 10^k], found from the binary logarithm. *)
Definition decimal_exponent (a b : Z) : Z :=
  let guess := (Z.log2 a - Z.log2 b) * 30103 / 100000 in
  down_to_power 4 a b (up_to_power 4 a b guess).

Fixpoint strip_zeros (fuel : nat) (c : Z) : Z :=
  match fuel with
  | O => c
  | S fuel' => if (c mod 10 =? 0) && negb (c =? 0) then strip_zeros fuel' (c / 10) else c
  end.

(** The digits of [Number::toString]: the least number [n] of digits for
    which an integer [c] exists such that [c * 10^(k-n)] is read back as
    [x], and of the two integers around [a/b / 10^(k-n)] the nearer one that
    does (seventeen digits always do). *)
Fixpoint shortest (fuel : nat) (n : Z) (x : number) (a b k : Z) : Z * Z :=
  let num := if 0 <=? k - n then a else a * 10 ^ (n - k) in
  let den := if 0 <=? k - n then b * 10 ^ (k - n) else b in
  let lo := num / den in
  let r := num mod den in
  let hi := lo + 1 in
  let back c := if 0 <=? k - n then round_ratio false (c * 10 ^ (k - n)) 1
                else round_ratio false c (10 ^ (n - k)) in
  let lo_ok := number_eqb (back lo) x in
  let hi_ok := number_eqb (back hi) x in
  let pick_hi := (den <? 2 * r) || ((den =? 2 * r) && Z.odd lo) in
  match fuel with
  | O => (lo, n)
  | S fuel' =>
      if lo_ok && hi_ok then (if pick_hi then hi else lo, n)
      else if lo_ok then (lo, n)
      else if hi_ok then (hi, n)
      else shortest fuel' (n + 1) x a b k
  end.

Fixpoint zeros (n : nat) : string :=
  match n with O => "" | S n' => String "0" (zeros n') end.

Fixpoint take_chars (n : nat) (s : string) : string :=
  match n, s with
  | S n', String c r => String c (take_chars n' r)
  | _, _ => ""
  end.

Fixpoint drop_chars (n : nat) (s : string) : string :=
  match n, s with
  | S n', String _ r => drop_chars n' r
  | _, _ => s
  end.

(** The spelling of the positive [x = a/b]: with [n] digits [ds] and
    [10^(k-1) <= x < 10^k], plain digits up to [10^21], a decimal point down
    to [10^-6], the exponent form beyond. *)
Definition positive_to_string (x : number) (a b : Z) : string :=
  let k0 := decimal_exponent a b in
  let (c, n0) := shortest 17 1 x a b k0 in
  let k := k0 - n0 + Z.of_nat (String.length (decimal c)) in
  let ds := decimal (strip_zeros 400 c) in
  let n := Z.of_nat (String.length ds) in
  if (n <=? k) && (k <=? 21) then ds ++ zeros (Z.to_nat (k - n))
  else if (0 <? k) && (k <=? 21)
  then take_chars (Z.to_nat k) ds ++ "." ++ drop_chars (Z.to_nat k) ds
  else if (-6 <? k) && (k <=? 0) then "0." ++ zeros (Z.to_nat (- k)) ++ ds
  else
    let ex := (if 0 <=? k - 1 then "+" else "-") ++ decimal (Z.abs (k - 1)) in
    if n =? 1 then ds ++ "e" ++ ex
    else take_chars 1 ds ++ "." ++ drop_chars 1 ds ++ "e" ++ ex.

(** [String(x)] for a number [x]. *)
Definition NumberToString (x : number) : string :=
  match x with
  | NaN => "NaN"
  | Infinity false => "Infinity"
  | Infinity true => "-Infinity"
  | Dyadic 0 _ => "0"
  | Dyadic m e =>
      let a := if 0 <=? e then Z.abs m * 2 ^ e else Z.abs m in
      let b := if 0 <=? e then 1 else 2 ^ (- e) in
      (if m <? 0 then "-" else "") ++ positive_to_string (Dyadic (Z.abs m) e) a b
  end.

(** *** Conversion of a string to a number *)

(** White space and line terminators, among the code units below 256. *)
Definition is_space (c : ascii) : bool :=
  match nat_of_ascii c with
  | 9%nat | 10%nat | 11%nat | 12%nat | 13%nat | 32%nat | 160%nat => true
  | _ => false
  end.

Fixpoint drop_spaces (s : string) : string :=
  match s with
  | String c rest => if is_space c then drop_spaces rest else s
  | EmptyString => EmptyString
  end.

Fixpoint rev_string (s acc : string) : string :=
  match s with
  | EmptyString => acc
  | String c rest => rev_string rest (String c acc)
  end.

Definition trim (s : string) : string :=
  rev_string (drop_spaces (rev_string (drop_spaces s) "")) "".

(** The value of [c] as a digit in [radix] (2, 8, 10 or 16). *)
Definition digit_in (radix : Z) (c : ascii) : option Z :=
  let n := Z.of_nat (nat_of_ascii c) in
  let d := if (48 <=? n) && (n <=? 57) then n - 48
           else if (97 <=? n) && (n <=? 102) then n - 87
           else if (65 <=? n) && (n <=? 70) then n - 55
           else radix in
  if d <? radix then Some d else None.

Fixpoint read_digits (radix : Z) (s : string) (acc : Z) : option Z :=
  match s with
  | EmptyString => Some acc
  | String c rest =>
      match digit_in radix c with
      | Some d => read_digits radix rest (radix * acc + d)
      | None => None
      end
  end.

(** One digit or more, and nothing else. *)
Definition all_digits (radix : Z) (s : string) : option Z :=
  match s with
  | EmptyString => None
  | _ => read_digits radix s 0
  end.

(** The decimal digits [s] starts with: their value behind [acc], how many
    they are, and what follows them. *)
Fixpoint span_digits (s : string) (acc count : Z) : Z * Z * string :=
  match s with
  | String c rest =>
      match digit_in 10 c with
      | Some d => span_digits rest (10 * acc + d) (count + 1)
      | None => (acc, count, s)
      end
  | EmptyString => (acc, count, s)
  end.

(** An exponent part, [e] or [E], an optional sign and digits, or nothing. *)
Definition exponent_part (s : string) : option Z :=
  match s with
  | EmptyString => Some 0
  | String c rest =>
      if Ascii.eqb c "e" || Ascii.eqb c "E" then
        match rest with
        | String "+" ds => all_digits 10 ds
        | String "-" ds => Z.opp <$> all_digits 10 ds
        | _ => all_digits 10 rest
        end
      else None
  end.

(** An unsigned decimal literal other than [Infinity]: digits, with a
    point before, among or after them, and an exponent part; [(m, ex)]
    stands for [m * 10^ex]. *)
Definition decimal_literal (s : string) : option (Z * Z) :=
  let '(i, ni, r) := span_digits s 0 0 in
  match r with
  | String "." r1 =>
      let '(m, nf, r2) := span_digits r1 i 0 in
      if ni + nf =? 0 then None
      else ex ← exponent_part r2; Some (m, ex - nf)
  | _ =>
      if ni =? 0 then None
      else ex ← exponent_part r; Some (i, ex)
  end.

(** The Number value for [m * 10^ex]. With [d] digits [m] is at least
    [10^(d-1)] and below [10^d]: from [10^310] on the value is infinite and
    below [10^-330] it is zero, whatever the digits. *)
Definition decimal_value (negative : bool) (m ex : Z) : number :=
  if m =? 0 then Dyadic 0 0
  else
    let d := Z.of_nat (String.length (decimal m)) in
    if 310 <? d + ex then Infinity negative
    else if d + ex <? -330 then Dyadic 0 0
    else if 0 <=? ex then round_ratio negative (m * 10 ^ ex) 1
    else round_ratio negative m (10 ^ (- ex)).

Definition signed_literal (negative : bool) (s : string) : number :=
  if String.eqb s "Infinity" then Infinity negative
  else match decimal_literal s with
       | Some (m, ex) => decimal_value negative m ex
       | None => NaN
       end.

Definition radix_literal (radix : Z) (s : string) : number :=
  match all_digits radix s with
  | Some p => round_ratio false p 1
  | None => NaN
  end.

(** [Number(s)]: white space around is dropped; the empty string is zero;
    [0x], [0o] and [0b] start an unsigned integer in that radix; otherwise
    an optional sign and [Infinity] or a decimal literal; anything else is
    NaN. *)
Definition StringToNumber (s : string) : number :=
  match trim s with
  | EmptyString => Dyadic 0 0
  | String "0" (String "x" r) | String "0" (String "X" r) => radix_literal 16 r
  | String "0" (String "o" r) | String "0" (String "O" r) => radix_literal 8 r
  | String "0" (String "b" r) | String "0" (String "B" r) => radix_literal 2 r
  | String "+" r => signed_literal false r
  | String "-" r => signed_literal true r
  | t => signed_literal false t
  end.

(** *** Conversion to a string *)

Fixpoint join (sep : string) (parts : list string) : string :=
  match parts with
  | [] => ""
  | [p] => p
  | p :: rest => p ++ sep ++ join sep rest
  end.

Definition has_own (k : string) (props : list (string * jsval)) : bool :=
  existsb (fun p => String.eqb k (fst p)) props.

(** [String(v)], which is also what [+] with a string and [==] make of an
    array or an object. An array is its elements joined by commas, where
    [undefined] and [null] elements are the empty string. An object made by
    [JSON.parse] inherits [toString] and is ["[object Object]"], unless it
    has a property named [toString] of its own: that one is no function, so
    the conversion throws a TypeError. *)
Fixpoint ToString (v : jsval) : completion string :=
  match v with
  | JUndefined => Normal "undefined"
  | JNull => Normal "null"
  | JBool true => Normal "true"
  | JBool false => Normal "false"
  | JNum n => Normal (NumberToString (NumberOfInteger n))
  | JStr s => Normal s
  | JArr items =>
      match
        (fix elems (l : list jsval) : completion (list string) :=
           match l with
           | [] => Normal []
           | x :: l' =>
               match (match x with
                      | JUndefined | JNull => Normal ""
                      | _ => ToString x
                      end) with
               | Normal s =>
                   match elems l' with
                   | Normal r => Normal (s :: r)
                   | Abrupt e => Abrupt e
                   end
               | Abrupt e => Abrupt e
               end
           end) items
      with
      | Normal parts => Normal (join "," parts)
      | Abrupt e => Abrupt e
      end
  | JObj props =>
      if has_own "toString" props then Abrupt TypeError else Normal "[object Object]"
  end.

(** *** Equality against literals *)

(** [v === "s"] *)
Definition strict_eq_string (v : jsval) (s : string) : bool :=
  match v with JStr x => String.eqb x s | _ => false end.

(** [v === n] *)
Definition strict_eq_number (v : jsval) (n : Z) : bool :=
  match v with
  | JNum m => number_eqb (NumberOfInteger m) (NumberOfInteger n)
  | _ => false
  end.

(** [v !== undefined] *)
Definition is_undefined (v : jsval) : bool :=
  match v with JUndefined => true | _ => false end.

Definition BooleanToNumber (b : bool) : number :=
  NumberOfInteger (if b then 1 else 0).

(** [v == "s"]: abstract equality against a string. [undefined] and
    [null] equal neither. A number or a boolean is compared, as a number,
    with [Number(s)]. An array or an object is converted to a string first,
    which may throw. *)
Definition loose_eq_string (v : jsval) (s : string) : completion bool :=
  match v with
  | JUndefined | JNull => Normal false
  | JBool b => Normal (number_eqb (BooleanToNumber b) (StringToNumber s))
  | JNum m => Normal (number_eqb (NumberOfInteger m) (StringToNumber s))
  | JStr x => Normal (String.eqb x s)
  | JArr _ | JObj _ =>
      match ToString v with
      | Normal x => Normal (String.eqb x s)
      | Abrupt e => Abrupt e
      end
  end.

(** [v == n]: abstract equality against a number. A string is compared
    through [Number(s)]; an array or an object is converted to a string
    first, which may throw. *)
Definition loose_eq_number (v : jsval) (n : Z) : completion bool :=
  match v with
  | JUndefined | JNull => Normal false
  | JBool b => Normal (number_eqb (BooleanToNumber b) (NumberOfInteger n))
  | JNum m => Normal (number_eqb (NumberOfInteger m) (NumberOfInteger n))
  | JStr x => Normal (number_eqb (StringToNumber x) (NumberOfInteger n))
  | JArr _ | JObj _ =>
      match ToString v with
      | Normal x => Normal (number_eqb (StringToNumber x) (NumberOfInteger n))
      | Abrupt e => Abrupt e
      end
  end.

(** Induction on a value, with the property at hand for the elements of
    an array. *)
Section Elements.

Variable P : jsval -> Prop.
Hypothesis P_undefined : P JUndefined.
Hypothesis P_null : P JNull.
Hypothesis P_bool : forall b, P (JBool b).
Hypothesis P_num : forall n, P (JNum n).
Hypothesis P_str : forall s, P (JStr s).
Hypothesis P_arr : forall items, Forall P items -> P (JArr items).
Hypothesis P_obj : forall props, P (JObj props).

Fixpoint jsval_elements_ind (v : jsval) : P v :=
  match v with
  | JUndefined => P_undefined
  | JNull => P_null
  | JBool b => P_bool b
  | JNum n => P_num n
  | JStr s => P_str s
  | JArr items =>
      P_arr items
        ((fix all (l : list jsval) : Forall P l :=
            match l with
            | [] => @List.Forall_nil jsval P
            | x :: l' => @List.Forall_cons jsval P x l' (jsval_elements_ind x) (all l')
            end) items)
  | JObj props => P_obj props
  end.

End Elements.

End Js.

Import Js.

(* ================================================================== *)
(** ** The session and the runtime objects it drives *)
(* ================================================================== *)

Module Sse.

(** What the class generator receives from outside and the model does not
    look into: [JSON.parse] ([None] is its SyntaxError), the [sha1] option
    and [config.version] of [./config]. *)
Record Runtime : Type := {
  JSON_parse : string -> option jsval;
  sha1 : string -> string;
  config_version : string
}.

(** The caller's [eventCallback], by identity. *)
Definition callback : Type := nat.

(** The function values the program creates and hands to the transport and
    to the timers. [k] is the connection the three listeners were created
    for: every run of the promise executor of [start] makes fresh ones. *)
Inductive closure : Type :=
| noop                       (* the initial [() => {}] of [listeners] *)
| open_listener (k : nat)
| message_listener (k : nat)
| error_listener (k : nat)
| ping_expired               (* the timeout of [_messageReceived] *)
| checker_tick               (* the interval of the open listener *)
| reconnect_after_error      (* the timeout of the error listener *)
| resolve_delay.             (* [resolve] of the 2 s wait in [retryWithNewAccessToken] *)

#[export] Instance closure_eq_dec : EqDecision closure.
Proof. solve_decision. Defined.

Record Listeners : Type := {
  open : closure;
  message : closure;
  error : closure
}.

Record UserCredentials : Type := { email : string; hashedPassword : string }.
Record HubCredentials : Type := { hubId : string; hubToken : string }.

(** [cachedLoginData]: an object with optional [user] and [hub]. *)
Record CachedLoginData : Type := {
  user : option UserCredentials;
  hub : option HubCredentials
}.

(** The fields of the class. [None] is [null] for the handles and for
    [cachedLoginData], [undefined] for [eventCallback]. *)
Record CrownstoneSSE : Type := {
  listeners : Listeners;
  requireAuthentication : bool;
  autoreconnect : bool;
  eventSource : option nat;
  accessToken : jsval;
  eventCallback : option callback;
  checkerInterval : option nat;
  reconnectTimeout : option nat;
  pingTimeout : option nat;
  projectName : option string;
  sse_url : string;
  login_url : string;
  hubLogin_baseUrl : string;
  cachedLoginData : option CachedLoginData
}.

Definition set_listeners v (s : CrownstoneSSE) : CrownstoneSSE :=
  {| listeners := v; requireAuthentication := requireAuthentication s;
     autoreconnect := autoreconnect s; eventSource := eventSource s;
     accessToken := accessToken s; eventCallback := eventCallback s;
     checkerInterval := checkerInterval s; reconnectTimeout := reconnectTimeout s;
     pingTimeout := pingTimeout s; projectName := projectName s;
     sse_url := sse_url s; login_url := login_url s;
     hubLogin_baseUrl := hubLogin_baseUrl s; cachedLoginData := cachedLoginData s |}.

Definition set_requireAuthentication v (s : CrownstoneSSE) : CrownstoneSSE :=
  {| listeners := listeners s; requireAuthentication := v;
     autoreconnect := autoreconnect s; eventSource := eventSource s;
     accessToken := accessToken s; eventCallback := eventCallback s;
     checkerInterval := checkerInterval s; reconnectTimeout := reconnectTimeout s;
     pingTimeout := pingTimeout s; projectName := projectName s;
     sse_url := sse_url s; login_url := login_url s;
     hubLogin_baseUrl := hubLogin_baseUrl s; cachedLoginData := cachedLoginData s |}.

Definition set_autoreconnect v (s : CrownstoneSSE) : CrownstoneSSE :=
  {| listeners := listeners s; requireAuthentication := requireAuthentication s;
     autoreconnect := v; eventSource := eventSource s;
     accessToken := accessToken s; eventCallback := eventCallback s;
     checkerInterval := checkerInterval s; reconnectTimeout := reconnectTimeout s;
     pingTimeout := pingTimeout s; projectName := projectName s;
     sse_url := sse_url s; login_url := login_url s;
     hubLogin_baseUrl := hubLogin_baseUrl s; cachedLoginData := cachedLoginData s |}.

Definition set_eventSource v (s : CrownstoneSSE) : CrownstoneSSE :=
  {| listeners := listeners s; requireAuthentication := requireAuthentication s;
     autoreconnect := autoreconnect s; eventSource := v;
     accessToken := accessToken s; eventCallback := eventCallback s;
     checkerInterval := checkerInterval s; reconnectTimeout := reconnectTimeout s;
     pingTimeout := pingTimeout s; projectName := projectName s;
     sse_url := sse_url s; login_url := login_url s;
     hubLogin_baseUrl := hubLogin_baseUrl s; cachedLoginData := cachedLoginData s |}.

Definition set_accessToken v (s : CrownstoneSSE) : CrownstoneSSE :=
  {| listeners := listeners s; requireAuthentication := requireAuthentication s;
     autoreconnect := autoreconnect s; eventSource := eventSource s;
     accessToken := v; eventCallback := eventCallback s;
     checkerInterval := checkerInterval s; reconnectTimeout := reconnectTimeout s;
     pingTimeout := pingTimeout s; projectName := projectName s;
     sse_url := sse_url s; login_url := login_url s;
     hubLogin_baseUrl := hubLogin_baseUrl s; cachedLoginData := cachedLoginData s |}.

Definition set_eventCallback v (s : CrownstoneSSE) : CrownstoneSSE :=
  {| listeners := listeners s; requireAuthentication := requireAuthentication s;
     autoreconnect := autoreconnect s; eventSource := eventSource s;
     accessToken := accessToken s; eventCallback := v;
     checkerInterval := checkerInterval s; reconnectTimeout := reconnectTimeout s;
     pingTimeout := pingTimeout s; projectName := projectName s;
     sse_url := sse_url s; login_url := login_url s;
     hubLogin_baseUrl := hubLogin_baseUrl s; cachedLoginData := cachedLoginData s |}.

Definition set_checkerInterval v (s : CrownstoneSSE) : CrownstoneSSE :=
  {| listeners := listeners s; requireAuthentication := requireAuthentication s;
     autoreconnect := autoreconnect s; eventSource := eventSource s;
     accessToken := accessToken s; eventCallback := eventCallback s;
     checkerInterval := v; reconnectTimeout := reconnectTimeout s;
     pingTimeout := pingTimeout s; projectName := projectName s;
     sse_url := sse_url s; login_url := login_url s;
     hubLogin_baseUrl := hubLogin_baseUrl s; cachedLoginData := cachedLoginData s |}.

Definition set_reconnectTimeout v (s : CrownstoneSSE) : CrownstoneSSE :=
  {| listeners := listeners s; requireAuthentication := requireAuthentication s;
     autoreconnect := autoreconnect s; eventSource := eventSource s;
     accessToken := accessToken s; eventCallback := eventCallback s;
     checkerInterval := checkerInterval s; reconnectTimeout := v;
     pingTimeout := pingTimeout s; projectName := projectName s;
     sse_url := sse_url s; login_url := login_url s;
     hubLogin_baseUrl := hubLogin_baseUrl s; cachedLoginData := cachedLoginData s |}.

Definition set_pingTimeout v (s : CrownstoneSSE) : CrownstoneSSE :=
  {| listeners := listeners s; requireAuthentication := requireAuthentication s;
     autoreconnect := autoreconnect s; eventSource := eventSource s;
     accessToken := accessToken s; eventCallback := eventCallback s;
     checkerInterval := checkerInterval s; reconnectTimeout := reconnectTimeout s;
     pingTimeout := v; projectName := projectName s;
     sse_url := sse_url s; login_url := login_url s;
     hubLogin_baseUrl := hubLogin_baseUrl s; cachedLoginData := cachedLoginData s |}.

Definition set_projectName v (s : CrownstoneSSE) : CrownstoneSSE :=
  {| listeners := listeners s; requireAuthentication := requireAuthentication s;
     autoreconnect := autoreconnect s; eventSource := eventSource s;
     accessToken := accessToken s; eventCallback := eventCallback s;
     checkerInterval := checkerInterval s; reconnectTimeout := reconnectTimeout s;
     pingTimeout := pingTimeout s; projectName := v;
     sse_url := sse_url s; login_url := login_url s;
     hubLogin_baseUrl := hubLogin_baseUrl s; cachedLoginData := cachedLoginData s |}.

Definition set_sse_url v (s : CrownstoneSSE) : CrownstoneSSE :=
  {| listeners := listeners s; requireAuthentication := requireAuthentication s;
     autoreconnect := autoreconnect s; eventSource := eventSource s;
     accessToken := accessToken s; eventCallback := eventCallback s;
     checkerInterval := checkerInterval s; reconnectTimeout := reconnectTimeout s;
     pingTimeout := pingTimeout s; projectName := projectName s;
     sse_url := v; login_url := login_url s;
     hubLogin_baseUrl := hubLogin_baseUrl s; cachedLoginData := cachedLoginData s |}.

Definition set_login_url v (s : CrownstoneSSE) : CrownstoneSSE :=
  {| listeners := listeners s; requireAuthentication := requireAuthentication s;
     autoreconnect := autoreconnect s; eventSource := eventSource s;
     accessToken := accessToken s; eventCallback := eventCallback s;
     checkerInterval := checkerInterval s; reconnectTimeout := reconnectTimeout s;
     pingTimeout := pingTimeout s; projectName := projectName s;
     sse_url := sse_url s; login_url := v;
     hubLogin_baseUrl := hubLogin_baseUrl s; cachedLoginData := cachedLoginData s |}.

Definition set_hubLogin_baseUrl v (s : CrownstoneSSE) : CrownstoneSSE :=
  {| listeners := listeners s; requireAuthentication := requireAuthentication s;
     autoreconnect := autoreconnect s; eventSource := eventSource s;
     accessToken := accessToken s; eventCallback := eventCallback s;
     checkerInterval := checkerInterval s; reconnectTimeout := reconnectTimeout s;
     pingTimeout := pingTimeout s; projectName := projectName s;
     sse_url := sse_url s; login_url := login_url s;
     hubLogin_baseUrl := v; cachedLoginData := cachedLoginData s |}.

Definition set_cachedLoginData v (s : CrownstoneSSE) : CrownstoneSSE :=
  {| listeners := listeners s; requireAuthentication := requireAuthentication s;
     autoreconnect := autoreconnect s; eventSource := eventSource s;
     accessToken := accessToken s; eventCallback := eventCallback s;
     checkerInterval := checkerInterval s; reconnectTimeout := reconnectTimeout s;
     pingTimeout := pingTimeout s; projectName := projectName s;
     sse_url := sse_url s; login_url := login_url s;
     hubLogin_baseUrl := hubLogin_baseUrl s; cachedLoginData := v |}.


(** *** Runtime objects *)

(** An object made by [new EventSource(url)]: its URL, its [readyState]
    (0 connecting, 1 open, 2 closed) and the listeners attached to it. *)
Record EventSource : Type := {
  url : string;
  readyState : Z;
  on_open : list closure;
  on_message : list closure;
  on_error : list closure
}.

Definition CONNECTING : Z := 0.
Definition OPEN : Z := 1.
Definition CLOSED : Z := 2.

(** A timer made by [setTimeout] or [setInterval]; [due] is the time of its
    next firing, [active] is cleared by firing (single shot) and by
    [clearTimeout]/[clearInterval]. *)
Record Timer : Type := {
  repeating : bool;
  handler : closure;
  delay : Z;
  due : Z;
  active : bool
}.

(** Who consumes the promise of a login request: the caller of
    [login]/[loginHashed]/[hubLogin]/[retryLogin], or the [.then] chain of
    [retryWithNewAccessToken]. *)
Inductive awaiter : Type := caller | refresh_chain.

(** A request made by [fetch]: its URL, the [method] and [headers] of its
    second argument and the [body], as the value given to [JSON.stringify],
    if there is one. *)
Record Request : Type := {
  target : string;
  method : string;
  headers : list (string * string);
  body : option jsval;
  awaited_by : awaiter;
  pending : bool
}.

Inductive listener_kind : Type := on_open_event | on_message_event | on_error_event.

(** Calls that leave the session, in program order. *)
Inductive Effect : Type :=
| ClearInterval (h : option nat)
| ClearTimeout (h : option nat)
| SetTimeout (h : nat) (f : closure) (ms : Z)
| SetInterval (h : nat) (f : closure) (ms : Z)
| NewEventSource (id : nat) (u : string)
| AddEventListener (id : nat) (k : listener_kind) (f : closure)
| RemoveEventListener (id : nat) (k : listener_kind) (f : closure)
| Close (id : nat)
| Fetch (f : nat) (u : string) (b : option jsval)
| Callback (cb : callback) (data : jsval)
| StartResolved (k : nat)             (* [resolve()] in the open listener *)
| PromiseRejected (e : thrown)        (* a promise of the session rejects *)
| Uncaught (e : thrown).              (* exception out of a listener or timer *)

(** The session together with the part of the runtime it has touched. *)
Record World : Type := {
  this : CrownstoneSSE;
  sources : list EventSource;
  timers : list Timer;
  requests : list Request;
  now : Z;
  trace : list Effect
}.

Definition with_this v (w : World) : World :=
  {| this := v; sources := sources w; timers := timers w;
     requests := requests w; now := now w; trace := trace w |}.
Definition with_sources v (w : World) : World :=
  {| this := this w; sources := v; timers := timers w;
     requests := requests w; now := now w; trace := trace w |}.
Definition with_timers v (w : World) : World :=
  {| this := this w; sources := sources w; timers := v;
     requests := requests w; now := now w; trace := trace w |}.
Definition with_requests v (w : World) : World :=
  {| this := this w; sources := sources w; timers := timers w;
     requests := v; now := now w; trace := trace w |}.
Definition with_now v (w : World) : World :=
  {| this := this w; sources := sources w; timers := timers w;
     requests := requests w; now := v; trace := trace w |}.
Definition with_trace v (w : World) : World :=
  {| this := this w; sources := sources w; timers := timers w;
     requests := requests w; now := now w; trace := v |}.

(** [this.f = v] *)
Definition assign (f : CrownstoneSSE -> CrownstoneSSE) (w : World) : World :=
  with_this (f (this w)) w.

Definition emit (e : Effect) (w : World) : World :=
  with_trace (trace w ++ [e]) w.

(** *** Code that may throw: a state monad with completions *)

Definition M (A : Type) : Type := World -> completion A * World.

Definition ret {A} (a : A) : M A := fun w => (Normal a, w).
Definition throw {A} (e : thrown) : M A := fun w => (Abrupt e, w).
Definition bind {A B} (m : M A) (k : A -> M B) : M B :=
  fun w => match m w with
           | (Normal a, w') => k a w'
           | (Abrupt e, w') => (Abrupt e, w')
           end.
Definition lift (f : World -> World) : M unit := fun w => (Normal tt, f w).
Definition of_completion {A} (c : completion A) : M A := fun w => (c, w).

(** [try { body } catch (e) { handler }] *)
Definition try_catch {A} (body : M A) (handler : thrown -> M A) : M A :=
  fun w => match body w with
           | (Normal a, w') => (Normal a, w')
           | (Abrupt e, w') => handler e w'
           end.

Notation "x <- m ;; k" := (bind m (fun x => k))
  (at level 100, m at next level, right associativity).
Notation "m ;;; k" := (bind m (fun _ => k))
  (at level 100, right associativity).

(** The promise an [async] method (or [fetch]) returns, as far as the
    program can tell: already rejected, or to be settled by a later event. *)
Inductive promise : Type :=
| Rejected (e : thrown)
| AwaitingOpen (k : nat)        (* settles when connection [k] opens *)
| AwaitingRequest (f : nat).    (* settles with login request [f] *)

(** An [async] function never throws to its caller: an exception of its
    body rejects the promise it returns. *)
Definition async (body : M promise) (w : World) : promise * World :=
  match body w with
  | (Normal p, w') => (p, w')
  | (Abrupt e, w') => (Rejected e, w')
  end.

(** A promise nobody listens to. *)
Definition drop (r : promise * World) : World :=
  match r with
  | (Rejected e, w) => emit (PromiseRejected e) w
  | (_, w) => w
  end.

(** *** Timer and transport primitives *)

Definition deactivate (t : Timer) : Timer :=
  {| repeating := repeating t; handler := handler t; delay := delay t;
     due := due t; active := false |}.

(** Clearing [null] or a spent handle changes nothing. *)
Definition cancel_in (h : option nat) (l : list Timer) : list Timer :=
  match h with
  | Some i => alter deactivate i l
  | None => l
  end.

Definition cancel (h : option nat) (w : World) : World :=
  with_timers (cancel_in h (timers w)) w.

Definition clear_Timeout (h : option nat) (w : World) : World :=
  emit (ClearTimeout h) (cancel h w).

Definition clear_Interval (h : option nat) (w : World) : World :=
  emit (ClearInterval h) (cancel h w).

Definition set_Timeout (f : closure) (ms : Z) (w : World) : nat * World :=
  let h := length (timers w) in
  (h, emit (SetTimeout h f ms)
        (with_timers (timers w ++
           [{| repeating := false; handler := f; delay := ms;
               due := now w + ms; active := true |}]) w)).

Definition set_Interval (f : closure) (ms : Z) (w : World) : nat * World :=
  let h := length (timers w) in
  (h, emit (SetInterval h f ms)
        (with_timers (timers w ++
           [{| repeating := true; handler := f; delay := ms;
               due := now w + ms; active := true |}]) w)).

Definition new_EventSource (u : string) (w : World) : nat * World :=
  let id := length (sources w) in
  (id, emit (NewEventSource id u)
         (with_sources (sources w ++
            [{| url := u; readyState := CONNECTING;
                on_open := []; on_message := []; on_error := [] |}]) w)).

Definition attach (k : listener_kind) (f : closure) (es : EventSource) : EventSource :=
  match k with
  | on_open_event =>
      {| url := url es; readyState := readyState es; on_open := on_open es ++ [f];
         on_message := on_message es; on_error := on_error es |}
  | on_message_event =>
      {| url := url es; readyState := readyState es; on_open := on_open es;
         on_message := on_message es ++ [f]; on_error := on_error es |}
  | on_error_event =>
      {| url := url es; readyState := readyState es; on_open := on_open es;
         on_message := on_message es; on_error := on_error es ++ [f] |}
  end.

Definition without (f : closure) (l : list closure) : list closure :=
  filter (fun g => g <> f) l.

Definition detach (k : listener_kind) (f : closure) (es : EventSource) : EventSource :=
  match k with
  | on_open_event =>
      {| url := url es; readyState := readyState es; on_open := without f (on_open es);
         on_message := on_message es; on_error := on_error es |}
  | on_message_event =>
      {| url := url es; readyState := readyState es; on_open := on_open es;
         on_message := without f (on_message es); on_error := on_error es |}
  | on_error_event =>
      {| url := url es; readyState := readyState es; on_open := on_open es;
         on_message := on_message es; on_error := without f (on_error es) |}
  end.

Definition with_readyState (r : Z) (es : EventSource) : EventSource :=
  {| url := url es; readyState := r; on_open := on_open es;
     on_message := on_message es; on_error := on_error es |}.

Definition addEventListener (id : nat) (k : listener_kind) (f : closure) (w : World) : World :=
  emit (AddEventListener id k f) (with_sources (alter (attach k f) id (sources w)) w).

Definition removeEventListener (id : nat) (k : listener_kind) (f : closure) (w : World) : World :=
  emit (RemoveEventListener id k f) (with_sources (alter (detach k f) id (sources w)) w).

Definition close (id : nat) (w : World) : World :=
  emit (Close id) (with_sources (alter (with_readyState CLOSED) id (sources w)) w).

Definition fetch (u : string) (m : string) (hs : list (string * string))
    (b : option jsval) (w : World) : nat * World :=
  let f := length (requests w) in
  (f, emit (Fetch f u b)
        (with_requests (requests w ++
           [{| target := u; method := m; headers := hs; body := b;
               awaited_by := caller; pending := true |}]) w)).

Definition gets {A} (f : World -> A) : M A := fun w => (Normal (f w), w).

(** A primitive that returns a handle. *)
Definition call {A} (f : World -> A * World) : M A :=
  fun w => let (a, w') := f w in (Normal a, w').

(* ================================================================== *)
(** ** The class *)
(* ================================================================== *)

Definition defaultHeaders : list (string * string) :=
  [("Accept", "application/json"); ("Content-Type", "application/json")].

Definition DEFAULT_URLS_sseUrl : string := "https://events.ownstone.org/sse".
Definition DEFAULT_URLS_loginUrl : string := "https://cloud.ownstone.org/api/users/login".
Definition DEFAULT_URLS_hubLoginBase : string := "https://cloud.ownstone.org/api/Hubs/".

(** The optional argument of the constructor; [None] in a field is an
    omitted property. *)
Record sseOptions : Type := {
  opt_sseUrl : option string;
  opt_loginUrl : option string;
  opt_hubLoginBase : option string;
  opt_projectName : option string;
  opt_autoreconnect : option bool;
  opt_requireAuthentication : option bool
}.

(** The field initialisers of the class body, which run before the
    constructor. *)
Definition field_initializers : CrownstoneSSE :=
  {| listeners := {| open := noop; message := noop; error := noop |};
     requireAuthentication := true;
     autoreconnect := false;
     eventSource := None;
     accessToken := JNull;
     eventCallback := None;
     checkerInterval := None;
     reconnectTimeout := None;
     pingTimeout := None;
     projectName := None;
     sse_url := DEFAULT_URLS_sseUrl;
     login_url := DEFAULT_URLS_loginUrl;
     hubLogin_baseUrl := DEFAULT_URLS_hubLoginBase;
     cachedLoginData := None |}.

(** [s.substr(-1,1)]: the last character, or the empty string. *)
Fixpoint substr_last (s : string) : string :=
  match s with
  | EmptyString => EmptyString
  | String c EmptyString => String c EmptyString
  | String _ rest => substr_last rest
  end.

(** [`${v}`] for a field that is a string or [null]. *)
Definition interpolate (v : option string) : string :=
  match v with Some s => s | None => "null" end.

(** [options?.f ?? d] *)
Definition field_or {A} (options : option sseOptions) (f : sseOptions -> option A) (d : A) : A :=
  match options with
  | Some o => match f o with Some v => v | None => d end
  | None => d
  end.

Section Class.

Context (rt : Runtime).

Definition constructor (options : option sseOptions) : CrownstoneSSE :=
  let s := field_initializers in
  let s := set_sse_url (field_or options opt_sseUrl DEFAULT_URLS_sseUrl) s in
  let s := set_login_url (field_or options opt_loginUrl DEFAULT_URLS_loginUrl) s in
  let s := set_hubLogin_baseUrl (field_or options opt_hubLoginBase DEFAULT_URLS_hubLoginBase) s in
  let s := set_projectName (Some (field_or options opt_projectName "no_project_name")) s in
  let s := set_projectName
             (Some ("crownstone-lib-nodejs-sse-" ++ config_version rt ++ "-"
                    ++ interpolate (projectName s))) s in
  let s := if negb (String.eqb (substr_last (hubLogin_baseUrl s)) "/")
           then set_hubLogin_baseUrl (hubLogin_baseUrl s ++ "/") s
           else s in
  let s := set_autoreconnect
             (match options with
              | Some o => match opt_autoreconnect o with Some b => b | None => true end
              | None => true
              end) s in
  let s := set_requireAuthentication
             (match options with
              | Some o => match opt_requireAuthentication o with Some b => b | None => true end
              | None => true
              end) s in
  s.

(** A fresh session in a runtime where nothing has happened yet. *)
Definition new_session (options : option sseOptions) : World :=
  {| this := constructor options; sources := []; timers := [];
     requests := []; now := 0; trace := [] |}.

(** *** Logging in *)

Definition loginHashed (email_ sha1passwordHash : string) : World -> promise * World :=
  async (
    lift (assign (set_cachedLoginData
            (Some {| user := Some {| email := email_; hashedPassword := sha1passwordHash |};
                     hub := None |}))) ;;;
    u <- gets (fun w => login_url (this w)) ;;
    f <- call (fetch u "POST" defaultHeaders
                 (Some (JObj [("email", JStr email_);
                              ("password", JStr sha1passwordHash)]))) ;;
    ret (AwaitingRequest f)).

Definition login (email_ password : string) : World -> promise * World :=
  loginHashed email_ (sha1 rt password).

Definition hubLogin (hubId_ hubToken_ : string) : World -> promise * World :=
  async (
    lift (assign (set_cachedLoginData
            (Some {| user := None;
                     hub := Some {| hubId := hubId_; hubToken := hubToken_ |} |}))) ;;;
    base <- gets (fun w => hubLogin_baseUrl (this w)) ;;
    let combinedUrl := base ++ hubId_ ++ "/login?token=" ++ hubToken_ in
    f <- call (fetch combinedUrl "POST" defaultHeaders None) ;;
    ret (AwaitingRequest f)).

(** What the response of a login request turns out to be: the request or
    the reading of its body fails, or the body is this JSON value. *)
Inductive fetch_result : Type :=
| fetch_failed (e : thrown)
| fetch_json (result : jsval).

(** The handler [.then((result) => { ... })] of both logins. *)
Definition login_then (result : jsval) : M unit :=
  refused <- of_completion
               (loose_eq_number (get_opt (get_opt result "error") "statusCode") 401) ;;
  if refused
  then
    e <- of_completion (get result "error") ;;
    throw (Thrown e)
  else
    id <- of_completion (get result "id") ;;
    lift (assign (set_accessToken id)).

(** The handler [.catch((err) => { ... })] of both logins: whatever the
    error code, it reports and throws [err] again. *)
Definition login_catch (err : thrown) : M unit := throw err.

(** The chain hung on the request by [loginHashed] and [hubLogin]. *)
Definition login_chain (r : fetch_result) : M unit :=
  try_catch
    (match r with
     | fetch_failed e => throw e
     | fetch_json result => login_then result
     end)
    login_catch.

Definition retryLogin : World -> promise * World :=
  async (
    data <- gets (fun w => cachedLoginData (this w)) ;;
    match data with
    | None => throw TypeError            (* [.hub] of [null] *)
    | Some d =>
        match hub d with
        | Some h => call (hubLogin (hubId h) (hubToken h))
        | None =>
            match user d with
            | Some u => call (loginHashed (email u) (hashedPassword u))
            | None => throw (Thrown (JStr "NO_CREDENTIALS"))
            end
        end
    end).

Definition setAccessToken (token : jsval) (w : World) : World :=
  assign (set_accessToken token) w.

(** *** Closing *)

Definition _clearPendingActions (w : World) : World :=
  let w := clear_Interval (checkerInterval (this w)) w in
  let w := clear_Timeout (reconnectTimeout (this w)) w in
  let w := clear_Timeout (pingTimeout (this w)) w in
  w.

Definition closeEventSource (w : World) : World :=
  let w := _clearPendingActions w in
  match eventSource (this w) with
  | Some id =>
      let w := removeEventListener id on_open_event (open (listeners (this w))) w in
      let w := removeEventListener id on_message_event (message (listeners (this w))) w in
      let w := removeEventListener id on_error_event (error (listeners (this w))) w in
      let w := close id w in
      assign (set_eventSource None) w
  | None => w
  end.

Definition stop (w : World) : World :=
  let w := assign (set_autoreconnect false) w in
  closeEventSource w.

(** *** The heartbeat *)

Definition _messageReceived (w : World) : World :=
  let w := clear_Timeout (pingTimeout (this w)) w in
  let (h, w) := set_Timeout ping_expired 40000 w in
  assign (set_pingTimeout (Some h)) w.

(** *** Starting *)

(** [this.sse_url + "?accessToken=" + this.accessToken + "&projectName=" +
    this.projectName], or [this.sse_url] alone. *)
Definition stream_url (s : CrownstoneSSE) : completion string :=
  if requireAuthentication s
  then
    match ToString (accessToken s) with
    | Normal token =>
        Normal (sse_url s ++ "?accessToken=" ++ token
                  ++ "&projectName=" ++ interpolate (projectName s))
    | Abrupt e => Abrupt e
    end
  else Normal (sse_url s).

(** The body of [new Promise((resolve, reject) => { ... })] in [start],
    once the URL is made. *)
Definition connect (u : string) (w : World) : nat * World :=
  let (k, w) := new_EventSource u w in
  let w := assign (set_eventSource (Some k)) w in
  let w := assign (set_listeners
             {| open := open_listener k;
                message := message_listener k;
                error := error_listener k |}) w in
  let w := addEventListener k on_open_event (open (listeners (this w))) w in
  let w := addEventListener k on_message_event (message (listeners (this w))) w in
  let w := addEventListener k on_error_event (error (listeners (this w))) w in
  (k, w).

(** The body of [new Promise((resolve, reject) => { ... })] in [start]: an
    exception in it rejects the promise. *)
Definition start_executor : M nat :=
  s <- gets this ;;
  u <- of_completion (stream_url s) ;;
  call (connect u).

Definition is_null (v : jsval) : bool :=
  match v with JNull => true | _ => false end.

Definition AccessToken_required : thrown :=
  Thrown (JStr "AccessToken is required. Use .setAccessToken() or .login() to set one.").

Definition start (eventCallback_ : option callback) : World -> promise * World :=
  async (
    s <- gets this ;;
    if is_null (accessToken s) && requireAuthentication s
    then throw AccessToken_required
    else
      lift (assign (set_eventCallback eventCallback_)) ;;;
      lift _clearPendingActions ;;;
      s <- gets this ;;
      (if eventSource s is Some _ then lift closeEventSource else ret tt) ;;;
      k <- start_executor ;;
      ret (AwaitingOpen k)).

(** *** Recovering from an expired token *)

(** [this.eventCallback(data)] *)
Definition call_eventCallback (data : jsval) : M unit :=
  cb <- gets (fun w => eventCallback (this w)) ;;
  match cb with
  | Some f => lift (emit (Callback f data))
  | None => throw TypeError
  end.

Definition errorEvent (text : string) : jsval :=
  JObj [("type", JStr "system");
        ("subType", JStr "COULD_NOT_REFRESH_TOKEN");
        ("code", JNum 401);
        ("message", JStr text)].

Definition awaited_from (a : awaiter) (q : Request) : Request :=
  {| target := target q; method := method q; headers := headers q; body := body q;
     awaited_by := a; pending := pending q |}.

(** [.then(wait 2 s).then(start).then(log)] hung on the promise of
    [retryLogin]: nothing in it handles a rejection. *)
Definition then_restart (p : promise) (w : World) : World :=
  match p with
  | Rejected e => emit (PromiseRejected e) w
  | AwaitingRequest f => with_requests (alter (awaited_from refresh_chain) f (requests w)) w
  | AwaitingOpen _ => w
  end.

Definition retryWithNewAccessToken : M unit :=
  lift closeEventSource ;;;
  s <- gets this ;;
  if autoreconnect s && (if cachedLoginData s is Some _ then true else false)
  then
    try_catch
      (p <- call retryLogin ;;
       lift (then_restart p))
      (fun e =>
         call_eventCallback (errorEvent
           "Token expired, autoreconnect tried to get a new one. This was not successful. Connection closed."))
  else
    call_eventCallback (errorEvent
      "Token expired, autoconnect is disabled or does not have login credentials. Connection closed.").

(** *** The closures *)

(** [this.start(this.eventCallback)] with the promise left alone. *)
Definition restart (w : World) : World :=
  drop (start (eventCallback (this w)) w).

Definition ping_expired_body : M unit :=
  cb <- gets (fun w => eventCallback (this w)) ;;
  if cb is Some _ then lift restart else ret tt.

Definition checker_tick_body : M unit :=
  es <- gets (fun w => eventSource (this w)) ;;
  match es with
  | None => throw TypeError              (* [.readyState] of [null] *)
  | Some id =>
      r <- gets (fun w => readyState <$> sources w !! id) ;;
      if r is Some 2 then lift restart else ret tt
  end.

Definition open_listener_body (k : nat) : M unit :=
  lift _messageReceived ;;;
  h <- call (set_Interval checker_tick 1000) ;;
  lift (assign (set_checkerInterval (Some h))) ;;;
  lift (emit (StartResolved k)).

(** [message.type === 'system' && message.code === 401 && message.subType == sub] *)
Definition auth_signal (message_ : jsval) (sub : string) : M bool :=
  t <- of_completion (get message_ "type") ;;
  if strict_eq_string t "system" then
    c <- of_completion (get message_ "code") ;;
    if strict_eq_number c 401 then
      s <- of_completion (get message_ "subType") ;;
      of_completion (loose_eq_string s sub)
    else ret false
  else ret false.

Definition parse (data : string) : M jsval :=
  match JSON_parse rt data with
  | Some v => ret v
  | None => throw SyntaxError
  end.

Definition message_listener_body (data : string) : M unit :=
  lift _messageReceived ;;;
  if truthy (JStr data) then
    message_ <- parse data ;;
    call_eventCallback message_ ;;;
    expired <- auth_signal message_ "TOKEN_EXPIRED" ;;
    (if expired then retryWithNewAccessToken else ret tt) ;;;
    invalid <- auth_signal message_ "INVALID_ACCESS_TOKEN" ;;
    (if invalid then retryWithNewAccessToken else ret tt)
  else ret tt.

Definition error_listener_body : M unit :=
  c <- gets (fun w => checkerInterval (this w)) ;;
  lift (clear_Interval c) ;;;
  r <- gets (fun w => reconnectTimeout (this w)) ;;
  lift (clear_Timeout r) ;;;
  lift closeEventSource ;;;
  h <- call (set_Timeout reconnect_after_error 2000) ;;
  lift (assign (set_reconnectTimeout (Some h))).

(** Running a closure; [data] is the [data] of the event for a message
    listener and ignored by the others. *)
Definition invoke (f : closure) (data : string) : M unit :=
  match f with
  | noop => ret tt
  | open_listener k => open_listener_body k
  | message_listener _ => message_listener_body data
  | error_listener _ => error_listener_body
  | ping_expired => ping_expired_body
  | checker_tick => checker_tick_body
  | reconnect_after_error => lift restart
  | resolve_delay => lift restart
  end.

(** The runtime calling a closure: an exception has nowhere to go. *)
Definition run_handler (data : string) (w : World) (f : closure) : World :=
  match invoke f data w with
  | (Normal _, w') => w'
  | (Abrupt e, w') => emit (Uncaught e) w'
  end.

End Class.

(* ================================================================== *)
(** ** The event loop *)
(* ================================================================== *)

(** Everything that can happen to a session: a call of a method by the
    owner, an event of a connection, the end of a login request, a timer
    coming due, and time passing. *)
Inductive event : Type :=
| call_login (email_ password : string)
| call_loginHashed (email_ sha1passwordHash : string)
| call_hubLogin (hubId_ hubToken_ : string)
| call_retryLogin
| call_setAccessToken (token : jsval)
| call_start (cb : callback)
| call_retryWithNewAccessToken
| call_stop
| call_closeEventSource
| es_open (id : nat)                      (* the connection is established *)
| es_message (id : nat) (data : string)   (* a frame arrives *)
| es_error (id : nat) (fatal : bool)      (* the transport reports an error *)
| es_lost (id : nat)                      (* the transport closes without telling *)
| settled (f : nat) (r : fetch_result)    (* a login request ends *)
| timer_fired (h : nat)
| elapse (ms : Z).

Definition listeners_for (k : listener_kind) (es : EventSource) : list closure :=
  match k with
  | on_open_event => on_open es
  | on_message_event => on_message es
  | on_error_event => on_error es
  end.

Section Loop.

Context (rt : Runtime).

(** The transport delivering an event to the listeners attached to
    connection [id] at that moment. *)
Definition dispatch (id : nat) (k : listener_kind) (data : string) (w : World) : World :=
  match sources w !! id with
  | Some es => foldl (run_handler rt data) w (listeners_for k es)
  | None => w
  end.

Definition set_readyState (id : nat) (r : Z) (w : World) : World :=
  with_sources (alter (with_readyState r) id (sources w)) w.

Definition completed (q : Request) : Request :=
  {| target := target q; method := method q; headers := headers q; body := body q;
     awaited_by := awaited_by q; pending := false |}.

(** The login chain runs; what follows depends on who holds its promise. In
    the chain of [retryWithNewAccessToken] a success starts the 2 s wait,
    whose handle is kept nowhere. *)
Definition settle (f : nat) (r : fetch_result) (w : World) : World :=
  match requests w !! f with
  | Some q =>
      let w := with_requests (alter completed f (requests w)) w in
      match awaited_by q, login_chain r w with
      | caller, (Normal _, w') => w'
      | caller, (Abrupt e, w') => emit (PromiseRejected e) w'
      | refresh_chain, (Normal _, w') => snd (set_Timeout resolve_delay 2000 w')
      | refresh_chain, (Abrupt e, w') => emit (PromiseRejected e) w'
      end
  | None => w
  end.

Definition rearm (t : Timer) : Timer :=
  {| repeating := repeating t; handler := handler t; delay := delay t;
     due := due t + delay t; active := true |}.

(** A due timer runs its closure; a timeout is spent, an interval is due
    again one period later. *)
Definition fire (h : nat) (t : Timer) (w : World) : World :=
  let w := with_timers (alter (if repeating t then rearm else deactivate) h (timers w)) w in
  run_handler rt "" w (handler t).

(** No active timer comes due before [t]. *)
Definition nothing_due_before (t : Z) (w : World) : bool :=
  forallb (fun x => negb (active x) || (t <=? due x)) (timers w).

(** One turn of the event loop, [None] when the event cannot happen in this
    world: a connection only opens while connecting, only carries frames
    while open, and is silent once closed; a request ends once; a timer
    fires when it is active and due, and time does not run past a timer that
    is due. *)
Definition step (w : World) (e : event) : option World :=
  match e with
  | call_login m p => Some (drop (login rt m p w))
  | call_loginHashed m p => Some (drop (loginHashed m p w))
  | call_hubLogin i t => Some (drop (hubLogin i t w))
  | call_retryLogin => Some (drop (retryLogin w))
  | call_setAccessToken t => Some (setAccessToken t w)
  | call_start cb => Some (drop (start (Some cb) w))
  | call_retryWithNewAccessToken =>
      Some (match retryWithNewAccessToken w with
            | (Normal _, w') => w'
            | (Abrupt e, w') => emit (Uncaught e) w'
            end)
  | call_stop => Some (stop w)
  | call_closeEventSource => Some (closeEventSource w)
  | es_open id =>
      match sources w !! id with
      | Some es =>
          if readyState es =? CONNECTING
          then Some (dispatch id on_open_event "" (set_readyState id OPEN w))
          else None
      | None => None
      end
  | es_message id data =>
      match sources w !! id with
      | Some es =>
          if readyState es =? OPEN
          then Some (dispatch id on_message_event data w)
          else None
      | None => None
      end
  | es_error id fatal =>
      match sources w !! id with
      | Some es =>
          if readyState es =? CLOSED
          then None
          else Some (dispatch id on_error_event ""
                       (set_readyState id (if fatal then CLOSED else CONNECTING) w))
      | None => None
      end
  | es_lost id =>
      match sources w !! id with
      | Some es =>
          if readyState es =? CLOSED then None else Some (set_readyState id CLOSED w)
      | None => None
      end
  | settled f r =>
      match requests w !! f with
      | Some q => if pending q then Some (settle f r w) else None
      | None => None
      end
  | timer_fired h =>
      match timers w !! h with
      | Some t => if active t && (due t <=? now w) then Some (fire h t w) else None
      | None => None
      end
  | elapse ms =>
      if (0 <? ms) && nothing_due_before (now w + ms) w
      then Some (with_now (now w + ms) w)
      else None
  end.

Fixpoint run (w : World) (es : list event) : option World :=
  match es with
  | [] => Some w
  | e :: rest =>
      match step w e with
      | Some w' => run w' rest
      | None => None
      end
  end.

(** The worlds a session built with [options] can be in. *)
Definition reachable (options : option sseOptions) (w : World) : Prop :=
  exists es, run (new_session rt options) es = Some w.

End Loop.

End Sse.

Import Sse.

(* ================================================================== *)
(** ** Vocabulary of the statements *)
(* ================================================================== *)

(** *** Keeping a property *)

(** [f] keeps [P]: running it in a world where [P] holds leaves a world
    where [P] holds, however it completes. *)
Definition keeps {X : Type} (P : World -> Prop) (f : World -> X * World) : Prop :=
  forall w, P w -> P (snd (f w)).

Definition stable (P : World -> Prop) (f : World -> World) : Prop :=
  forall w, P w -> P (f w).

(** The trace of [w] continues [T]. *)
Definition extends (T : list Effect) (w : World) : Prop :=
  exists more, trace w = (T ++ more)%list.

(** *** The configuration and the URLs *)

(** The fields no method assigns after the constructor. *)
Definition config (s : CrownstoneSSE) : string * string * string * option string * bool :=
  (sse_url s, login_url s, hubLogin_baseUrl s, projectName s, requireAuthentication s).

Definition configured (c : string * string * string * option string * bool) (w : World) : Prop :=
  config (this w) = c.

(** [{library-name}-{version}-{project name}] *)
Definition client_identifier (rt : Runtime) (options : option sseOptions) : string :=
  "crownstone-lib-nodejs-sse-" ++ config_version rt ++ "-"
    ++ field_or options opt_projectName "no_project_name".



Definition normalized (base : string) : string :=
  if String.eqb (substr_last base) "/" then base else base ++ "/".

(** *** Tests that may throw *)

(** The test is made and is true. *)
Definition holds (c : completion bool) : bool :=
  match c with Normal b => b | Abrupt _ => false end.

(** The evaluation throws. *)
Definition faults {A : Type} (c : completion A) : bool :=
  match c with Normal _ => false | Abrupt _ => true end.

(** [sub] occurs in [s]. *)
Definition contains (sub s : string) : Prop :=
  exists before after, s = before ++ sub ++ after.

(** *** Starting and closing *)

Definition refuses (w : World) : bool :=
  is_null (accessToken (this w)) && requireAuthentication (this w).

Definition cleared_timers (s : CrownstoneSSE) (l : list Timer) : list Timer :=
  cancel_in (pingTimeout s) (cancel_in (reconnectTimeout s) (cancel_in (checkerInterval s) l)).

(** A connection after the three [removeEventListener] and [close()]. *)
Definition shut (ls : Listeners) (es : EventSource) : EventSource :=
  {| url := url es;
     readyState := CLOSED;
     on_open := without (open ls) (on_open es);
     on_message := without (message ls) (on_message es);
     on_error := without (error ls) (on_error es) |}.

(** The world in which the promise executor of [start] runs. *)
Definition prepared (cb : option callback) (w : World) : World :=
  let w := assign (set_eventCallback cb) w in
  let w := _clearPendingActions w in
  if eventSource (this w) is Some _ then closeEventSource w else w.

Definition wired_source (k : nat) (u : string) : EventSource :=
  {| url := u; readyState := CONNECTING;
     on_open := [open_listener k];
     on_message := [message_listener k];
     on_error := [error_listener k] |}.

Definition wired_listeners (k : nat) : Listeners :=
  {| open := open_listener k; message := message_listener k; error := error_listener k |}.

(** The world [p] with a new connection to [u], wired and current. *)
Definition connected_to (u : string) (p : World) : World :=
  let k := length (sources p) in
  {| this := set_listeners (wired_listeners k) (set_eventSource (Some k) (this p));
     sources := sources p ++ [wired_source k u];
     timers := timers p;
     requests := requests p;
     now := now p;
     trace := trace p ++
       [NewEventSource k u;
        AddEventListener k on_open_event (open_listener k);
        AddEventListener k on_message_event (message_listener k);
        AddEventListener k on_error_event (error_listener k)] |}.

(** The world [start] leaves when it does not refuse: the executor has run
    in [prepared cb w], where it has made a connection, or has thrown while
    making the URL. *)
Definition started (cb : option callback) (w : World) : World :=
  match stream_url (this w) with
  | Normal u => connected_to u (prepared cb w)
  | Abrupt _ => prepared cb w
  end.

(** ... and the promise it returns then. *)
Definition start_outcome (w : World) : promise :=
  match stream_url (this w) with
  | Normal _ => AwaitingOpen (length (sources w))
  | Abrupt e => Rejected e
  end.

(** The world in which the closure of a fired single-shot timer runs. *)
Definition spent (h : nat) (w : World) : World :=
  with_timers (alter deactivate h (timers w)) w.

(** The timers behind the three handles of the session are all off. *)
Definition handles_cancelled (w : World) : Prop :=
  forall h t,
    (checkerInterval (this w) = Some h \/ reconnectTimeout (this w) = Some h
     \/ pingTimeout (this w) = Some h) ->
    timers w !! h = Some t -> active t = false.

(** *** Connections *)

(** A connection the session is done with: closed, nothing attached. *)
Definition detached (es : EventSource) : Prop :=
  readyState es = CLOSED /\ on_open es = [] /\ on_message es = [] /\ on_error es = [].

(** The current connection [k] carries exactly the three listeners that
    [this.listeners] holds, those made together with it. *)
Definition wired (k : nat) (s : CrownstoneSSE) (es : EventSource) : Prop :=
  listeners s = wired_listeners k /\
  on_open es = [open_listener k] /\
  on_message es = [message_listener k] /\
  on_error es = [error_listener k].

Definition one_connection (w : World) : Prop :=
  (forall id es, sources w !! id = Some es -> eventSource (this w) <> Some id -> detached es) /\
  (forall id, eventSource (this w) = Some id ->
     exists es, sources w !! id = Some es /\ wired id (this w) es).

(** No connection at all. *)
Definition idle (w : World) : Prop :=
  eventSource (this w) = None /\
  forall id es, sources w !! id = Some es -> detached es.

(** *** The token-expired signal *)

(** [undefined] and [null], on which reading a property throws. *)
Definition nullish (m : jsval) : bool :=
  match m with JUndefined | JNull => true | _ => false end.

(** The condition as the two [if]s of the message listener evaluate it for
    the subtype [sub]: [type] and [code] compared with [===], [subType]
    with [==]. *)
Definition signals (m : jsval) (sub : string) : bool :=
  strict_eq_string (get_opt m "type") "system"
  && strict_eq_number (get_opt m "code") 401
  && holds (loose_eq_string (get_opt m "subType") sub).

(** The condition cannot be evaluated: [type] and [code] match and the
    [==] on [subType] throws (whatever the string it is compared with). *)
Definition signal_faults (m : jsval) : bool :=
  strict_eq_string (get_opt m "type") "system"
  && strict_eq_number (get_opt m "code") 401
  && faults (ToString (get_opt m "subType")).

(** The listener cannot get through its first condition: reading [type]
    throws, or the [==] on [subType] does. *)
Definition unreadable (m : jsval) : bool :=
  nullish m || signal_faults m.

Definition triggers_refresh (m : jsval) : bool :=
  signals m "TOKEN_EXPIRED" || signals m "INVALID_ACCESS_TOKEN".

(** The shape in the words of the specification: [type] is ["system"],
    [code] is 401 and [subType] is one of the two strings. *)
Definition is_auth_expiry (m : jsval) : bool :=
  strict_eq_string (get_opt m "type") "system"
  && strict_eq_number (get_opt m "code") 401
  && (strict_eq_string (get_opt m "subType") "TOKEN_EXPIRED"
      || strict_eq_string (get_opt m "subType") "INVALID_ACCESS_TOKEN").

(** The world after the heartbeat was bumped and [m] handed to [cb]. *)
Definition delivered (cb : callback) (m : jsval) (w : World) : World :=
  emit (Callback cb m) (_messageReceived w).

(** The effect is a delivery of the terminal event to the callback. *)
Definition delivers_terminal_event (e : Effect) : bool :=
  match e with
  | Callback _ data =>
      strict_eq_string (get_opt data "type") "system"
      && strict_eq_string (get_opt data "subType") "COULD_NOT_REFRESH_TOKEN"
      && strict_eq_number (get_opt data "code") 401
  | _ => false
  end.

Definition opens_connection (e : Effect) : bool :=
  match e with NewEventSource _ _ => true | _ => false end.

(** *** The heartbeat *)

Definition heartbeat_timer (t : Z) : Timer :=
  {| repeating := false; handler := ping_expired; delay := 40000;
     due := t + 40000; active := true |}.

(** Among the timers [l], an active one that runs the heartbeat closure is
    the single-shot 40 s timer that the handle [p] refers to. *)
Definition heartbeat_ok (p : option nat) (l : list Timer) : Prop :=
  forall h t, l !! h = Some t -> active t = true -> handler t = ping_expired ->
    p = Some h /\ repeating t = false /\ delay t = 40000.

Definition one_heartbeat (w : World) : Prop :=
  heartbeat_ok (pingTimeout (this w)) (timers w).

Definition is_heartbeat (t : Timer) : bool :=
  if handler t is ping_expired then true else false.

Definition is_liveness_poll (t : Timer) : bool :=
  if handler t is checker_tick then true else false.

(** The current connection exists and its transport does not report
    "closed". *)
Definition connection_up (w : World) : bool :=
  match eventSource (this w) with
  | Some id =>
      match sources w !! id with
      | Some es => negb (readyState es =? CLOSED)
      | None => false
      end
  | None => false
  end.

(** No timer is pending but the two watchdogs of the connection: no
    reconnect after an error and no token refresh is under way. *)
Definition only_watchdogs (w : World) : bool :=
  forallb (fun t => negb (active t) || is_heartbeat t || is_liveness_poll t) (timers w).

(** The time at which the pending heartbeat timer fires, if one is
    pending. *)
Definition deadline (w : World) : option Z :=
  match pingTimeout (this w) with
  | Some h =>
      match timers w !! h with
      | Some t => if active t && is_heartbeat t then Some (due t) else None
      | None => None
      end
  | None => None
  end.

(** [w'] is [w] after [_messageReceived], whatever else was recorded. *)
Definition bumped (w w' : World) : Prop :=
  this w' = set_pingTimeout (Some (length (timers w))) (this w) /\
  sources w' = sources w /\
  timers w' = (cancel_in (pingTimeout (this w)) (timers w) ++ [heartbeat_timer (now w)])%list /\
  now w' = now w.

(** The connection is up and its heartbeat timer is pending for time [T]. *)
Definition armed (w : World) (T : Z) : Prop :=
  connection_up w = true /\ only_watchdogs w = true /\ deadline w = Some T /\ one_heartbeat w.

(** The heartbeat has fired; what is left pending is the liveness poll,
    and the connection is up or there is none. *)
Definition quiet (w : World) : Prop :=
  (connection_up w = true \/ eventSource (this w) = None) /\
  forallb (fun t => negb (active t) || is_liveness_poll t) (timers w) = true.

(** Nothing reaches the session but its own timers and the passing of
    time. *)
Definition silence (es : list event) : bool :=
  forallb (fun e => match e with timer_fired _ | elapse _ => true | _ => false end) es.

(** How many times a heartbeat timer fires in the run of [es] from [w]. *)
Fixpoint heartbeats_fired (rt : Runtime) (w : World) (es : list event) : nat :=
  match es with
  | [] => 0
  | e :: rest =>
      match step rt w e with
      | Some w' =>
          (match e with
           | timer_fired h =>
               match timers w !! h with
               | Some t => if is_heartbeat t then 1 else 0
               | None => 0
               end
           | _ => 0
           end + heartbeats_fired rt w' rest)%nat
      | None => 0%nat
      end
  end.

(** *** A runtime, payloads and scenarios for the worked examples *)

Definition quote : string := String (ascii_of_nat 34) EmptyString.

(** The text [{"type":"system","subType":sub,"code":401}]. *)
Definition system_401_text (sub : string) : string :=
  "{" ++ quote ++ "type" ++ quote ++ ":" ++ quote ++ "system" ++ quote ++ ","
      ++ quote ++ "subType" ++ quote ++ ":" ++ sub ++ ","
      ++ quote ++ "code" ++ quote ++ ":401}".

Definition system_401 (sub : jsval) : jsval :=
  JObj [("type", JStr "system"); ("subType", sub); ("code", JNum 401)].

Definition token_expired_text : string :=
  system_401_text (quote ++ "TOKEN_EXPIRED" ++ quote).

Definition wrapped_token_expired_text : string :=
  system_401_text ("[" ++ quote ++ "TOKEN_EXPIRED" ++ quote ++ "]").

Definition switch_text : string :=
  "{" ++ quote ++ "type" ++ quote ++ ":" ++ quote ++ "switchStateUpdate" ++ quote ++ "}".

(** [JSON.parse] on the payloads of the examples (a SyntaxError elsewhere),
    a stand-in for the hash, and a version. *)
Definition demo_runtime : Runtime :=
  {| JSON_parse := fun s =>
       if String.eqb s token_expired_text
       then Some (system_401 (JStr "TOKEN_EXPIRED"))
       else if String.eqb s wrapped_token_expired_text
       then Some (system_401 (JArr [JStr "TOKEN_EXPIRED"]))
       else if String.eqb s switch_text
       then Some (JObj [("type", JStr "switchStateUpdate")])
       else None;
     sha1 := fun s => "sha1(" ++ s ++ ")";
     config_version := "5.0.0" |}.


Definition final (rt : Runtime) (es : list event) : World :=
  match run rt (new_session rt None) es with
  | Some w => w
  | None => new_session rt None
  end.

(** A session with a token and a connection. *)
Definition connected_world : World :=
  match run demo_runtime (new_session demo_runtime None)
          [call_setAccessToken (JStr "t0"); call_start 1%nat] with
  | Some w => w
  | None => new_session demo_runtime None
  end.

(** The hub of the scenarios, logged in and streaming. *)
Definition streaming_world : World :=
  final demo_runtime
    [call_hubLogin "hub1" "tok1";
     settled 0 (fetch_json (JObj [("id", JStr "T1")]));
     call_start 1%nat;
     es_open 0].

(** A hub logs in, starts streaming, and the server announces that the
    token has expired: the session closes the connection and logs in again
    (request 1). *)
Definition until_token_expired : list event :=
  [call_hubLogin "hub1" "tok1";
   settled 0 (fetch_json (JObj [("id", JStr "T1")]));
   call_start 1%nat;
   es_open 0;
   es_message 0 token_expired_text].

(** The answer of a login endpoint to credentials it rejects. *)
Definition login_refused : jsval :=
  JObj [("error", JObj [("statusCode", JNum 401); ("code", JStr "LOGIN_FAILED")])].

(** ... and the second login is refused. *)
Definition refresh_refused : list event :=
  until_token_expired ++ [settled 1 (fetch_json login_refused)].

(** ... or the owner stops the session while the second login is under
    way; the login then succeeds and two seconds pass. *)
Definition stop_during_refresh : list event :=
  until_token_expired ++
  [call_stop;
   settled 1 (fetch_json (JObj [("id", JStr "T2")]));
   elapse 2000;
   timer_fired 3].

(** ... or the owner stops the session during the two seconds. *)
Definition stop_during_delay : list event :=
  until_token_expired ++
  [settled 1 (fetch_json (JObj [("id", JStr "T2")]));
   elapse 500;
   call_stop;
   elapse 1500;
   timer_fired 3].

(** Forty ticks of the liveness poll, one second apart, then the heartbeat
    timer [h], then five more seconds. *)
Definition forty_seconds_of_silence (poll h : nat) : list event :=
  (concat (repeat [elapse 1000; timer_fired poll] 40)
   ++ [timer_fired h; elapse 5000])%list.

(** The transport reports an error; half a second into the two seconds
    before the reconnect, the owner stops the session. *)
Definition stop_during_reconnect_delay : list event :=
  [call_hubLogin "hub1" "tok1";
   settled 0 (fetch_json (JObj [("id", JStr "T1")]));
   call_start 1%nat;
   es_open 0;
   es_error 0 false;
   elapse 500;
   call_stop].

(** *** Logging in *)

(** The world in which the chain of a login runs: request [f] is over. *)
Definition answered (f : nat) (w : World) : World :=
  with_requests (alter completed f (requests w)) w.


(** The test [result?.error?.statusCode == 401] throws: the status code is
    an object or an array that does not convert to a string. *)
Definition refusal_faults (result : jsval) : bool :=
  faults (ToString (get_opt (get_opt result "error") "statusCode")).

(** The request [loginHashed] makes. *)
Definition user_login_request (u : string) (m p : string) : Request :=
  {| target := u;
     method := "POST";
     headers := defaultHeaders;
     body := Some (JObj [("email", JStr m); ("password", JStr p)]);
     awaited_by := caller;
     pending := true |}.

(** *** Reconnecting *)

Definition reconnect_timer (t : Z) : Timer :=
  {| repeating := false; handler := reconnect_after_error; delay := 2000;
     due := t + 2000; active := true |}.

Definition refresh_delay_timer (t : Z) : Timer :=
  {| repeating := false; handler := resolve_delay; delay := 2000;
     due := t + 2000; active := true |}.

(** The world the error listener leaves, [w1] being the world after its
    two clears and [closeEventSource]. *)
Definition reconnect_armed (w1 : World) : World :=
  {| this := set_reconnectTimeout (Some (length (timers w1))) (this w1);
     sources := sources w1;
     timers := timers w1 ++ [reconnect_timer (now w1)];
     requests := requests w1;
     now := now w1;
     trace := trace w1 ++ [SetTimeout (length (timers w1)) reconnect_after_error 2000] |}.

(** The two terminal events of [retryWithNewAccessToken]. *)
Definition refresh_failed_event : jsval :=
  errorEvent "Token expired, autoreconnect tried to get a new one. This was not successful. Connection closed.".

Definition refresh_disabled_event : jsval :=
  errorEvent "Token expired, autoconnect is disabled or does not have login credentials. Connection closed.".

(** A session that was handed a token, connected and streaming: it has no
    credentials to log in again with. *)
Definition token_world : World :=
  final demo_runtime [call_setAccessToken (JStr "t0"); call_start 1%nat; es_open 0].

(** The hub of the scenarios after the server's "token expired": the
    connection is closed and the second login (request 1) is under way. *)
Definition refreshing_world : World := final demo_runtime until_token_expired.

(** *** Credentials *)

(** A credential record as the two logins write it: exactly one of [user]
    and [hub]. *)
Definition one_credential (d : CachedLoginData) : bool :=
  match user d, hub d with
  | Some _, None | None, Some _ => true
  | _, _ => false
  end.

Definition credentials_ok (w : World) : Prop :=
  forall d, cachedLoginData (this w) = Some d -> one_credential d = true.

(** The owner logs in (again): the calls that store credentials. *)
Definition is_login_call (e : event) : bool :=
  match e with
  | call_login _ _ | call_loginHashed _ _ | call_hubLogin _ _ => true
  | _ => false
  end.

(** *** The timers of the session *)

(** The timer [t] behind handle [h] is one the session knows: the
    heartbeat, kept in [pingTimeout]; the liveness poll, kept in
    [checkerInterval]; the reconnect after an error, kept in
    [reconnectTimeout]; or the two seconds a token refresh waits before it
    starts again, kept nowhere. *)
Definition tracked_as (s : CrownstoneSSE) (h : nat) (t : Timer) : Prop :=
  match handler t with
  | ping_expired => pingTimeout s = Some h /\ repeating t = false /\ delay t = 40000
  | checker_tick => checkerInterval s = Some h /\ repeating t = true /\ delay t = 1000
  | reconnect_after_error =>
      reconnectTimeout s = Some h /\ repeating t = false /\ delay t = 2000
  | resolve_delay => repeating t = false /\ delay t = 2000
  | _ => False
  end.

Definition tracks (s : CrownstoneSSE) (l : list Timer) : Prop :=
  forall h t, l !! h = Some t -> active t = true -> tracked_as s h t.

(** Nothing is pending but delays of a token refresh. *)
Definition delays_only (l : list Timer) : Prop :=
  forall h t, l !! h = Some t -> active t = true ->
    handler t = resolve_delay /\ repeating t = false /\ delay t = 2000.

(** The current connection has been open: it is open, or closed by the
    transport. *)
Definition has_opened (w : World) : bool :=
  match eventSource (this w) with
  | Some k =>
      match sources w !! k with
      | Some es => negb (readyState es =? CONNECTING)
      | None => false
      end
  | None => false
  end.

(** Every pending timer is behind its handle, and the liveness poll is
    pending only for a connection that has been open. *)
Definition timers_sound (w : World) : Prop :=
  tracks (this w) (timers w) /\
  (forall h t, timers w !! h = Some t -> active t = true -> handler t = checker_tick ->
     has_opened w = true).

(** [w'] has the timers, the handles and the connections of [w]. *)
Definition same_watch (w w' : World) : Prop :=
  timers w' = timers w /\ sources w' = sources w /\
  pingTimeout (this w') = pingTimeout (this w) /\
  checkerInterval (this w') = checkerInterval (this w) /\
  reconnectTimeout (this w') = reconnectTimeout (this w) /\
  eventSource (this w') = eventSource (this w).

Definition poll_timer (due_ : Z) : Timer :=
  {| repeating := true; handler := checker_tick; delay := 1000;
     due := due_; active := true |}.

(** *** A session at rest *)

Definition awaits_refresh (q : Request) : bool :=
  pending q && (if awaited_by q is refresh_chain then true else false).

Definition is_refresh_delay (t : Timer) : bool :=
  active t && (if handler t is resolve_delay then true else false).

(** A token refresh is under way: its login is pending, or its two
    seconds are running. *)
Definition refresh_in_flight (w : World) : bool :=
  existsb awaits_refresh (requests w) || existsb is_refresh_delay (timers w).

(** A stopped session: no connection, no timer pending, auto-reconnect
    off, no token refresh under way. *)
Definition dormant (w : World) : Prop :=
  eventSource (this w) = None /\
  autoreconnect (this w) = false /\
  (forall id es, sources w !! id = Some es -> detached es) /\
  forallb (fun t => negb (active t)) (timers w) = true /\
  forallb (fun q => negb (awaits_refresh q)) (requests w) = true.

(** The connections made so far. *)
Definition connections_made (w : World) : list Effect :=
  List.filter opens_connection (trace w).

Definition is_start_call (e : event) : bool :=
  match e with call_start _ => true | _ => false end.

(** The hub of the scenarios after [stop()], and what may still happen to
    it: a frame that was under way does not arrive, time passes, the owner
    logs in again and the login is answered. *)
Definition after_stop : list event :=
  [elapse 60000;
   call_hubLogin "hub1" "tok1";
   settled 1 (fetch_json (JObj [("id", JStr "T2")]));
   call_retryWithNewAccessToken;
   elapse 60000].


(** *** The login of a token refresh *)


(** *** Turns of the event loop *)

(** The events that make the runtime call a closure of the session. *)
Definition runs_closure (e : event) : bool :=
  match e with
  | es_open _ | es_message _ _ | es_error _ _ | timer_fired _ => true
  | _ => false
  end.

(** *** The promise of [start] *)

Definition is_resolution (k : nat) (e : Effect) : bool :=
  match e with StartResolved j => Nat.eqb j k | _ => false end.

(** How many times the promise of the [start] that made connection [k]
    has been resolved. *)
Definition resolved (k : nat) (w : World) : nat :=
  length (List.filter (is_resolution k) (trace w)).

(** Connection [k] has been made and is no longer the current one. *)
Definition abandoned (k : nat) (w : World) : Prop :=
  eventSource (this w) <> Some k /\ (k < length (sources w))%nat.

(** A session whose first connection fails before it opens. *)
Definition failed_before_open : World :=
  final demo_runtime
    [call_setAccessToken (JStr "t0"); call_start 1%nat; es_error 0 false].

(** ... and what follows: the reconnect after two seconds, the second
    connection opening, a frame. *)
Definition recovery : list event :=
  [elapse 2000; timer_fired 0; es_open 1; es_message 1 switch_text].

(** Connection [k] is no longer the current one and the promise of its
    [start] has been resolved [n] times. *)
Definition left_behind (k n : nat) (w : World) : Prop :=
  resolved k w = n /\ abandoned k w.

(* ================================================================== *)
(** ** Unfolding the monad *)
(* ================================================================== *)

Ltac monad :=
  unfold async, bind, lift, gets, call, ret, throw, of_completion, try_catch in *.

(* ================================================================== *)
(** ** JavaScript values: samples *)
(* ================================================================== *)

Example ToString_samples :
  ToString (JArr [JStr "a"; JNull; JNum (-42); JArr [JNum 0; JBool true]])
    = Normal "a,,-42,0,true" /\
  ToString (JNum (10 ^ 21)) = Normal "1e+21" /\
  ToString (JNum (10 ^ 21 - 1)) = Normal "1e+21" /\
  ToString (JNum 123456789012345678901) = Normal "123456789012345680000" /\
  ToString (JNum (2 ^ 53 + 1)) = Normal "9007199254740992" /\
  ToString (JNum (- 2 ^ 64)) = Normal "-18446744073709552000" /\
  ToString (JNum (10 ^ 400)) = Normal "Infinity" /\
  ToString (JObj [("id", JNum 1)]) = Normal "[object Object]" /\
  ToString (JObj [("toString", JNum 1)]) = Abrupt TypeError /\
  ToString (JArr [JNum 1; JObj [("toString", JNull)]]) = Abrupt TypeError.
Proof. repeat apply conj; vm_compute; reflexivity. Qed.

Example NumberToString_samples :
  NumberToString (Dyadic 1 (-1)) = "0.5" /\
  NumberToString (StringToNumber "0.000001") = "0.000001" /\
  NumberToString (StringToNumber "1e-7") = "1e-7" /\
  NumberToString (StringToNumber "0.1") = "0.1" /\
  NumberToString (StringToNumber "123456.789e3") = "123456789" /\
  NumberToString (StringToNumber "1.7976931348623157e308") = "1.7976931348623157e+308" /\
  NumberToString (StringToNumber "5e-324") = "5e-324" /\
  NumberToString (StringToNumber "-0") = "0".
Proof. repeat apply conj; vm_compute; reflexivity. Qed.

Example StringToNumber_samples :
  StringToNumber "401" = Dyadic 401 0 /\
  StringToNumber "401.0" = Dyadic 401 0 /\
  StringToNumber "401." = Dyadic 401 0 /\
  StringToNumber "4.01e2" = Dyadic 401 0 /\
  StringToNumber ".401E+3" = Dyadic 401 0 /\
  StringToNumber "0x191" = Dyadic 401 0 /\
  StringToNumber "0b110010001" = Dyadic 401 0 /\
  StringToNumber "0o621" = Dyadic 401 0 /\
  StringToNumber " +0401 " = Dyadic 401 0 /\
  StringToNumber "401.00000000000000000001" = Dyadic 401 0 /\
  StringToNumber "401.5" = Dyadic 803 (-1) /\
  StringToNumber "" = Dyadic 0 0 /\
  StringToNumber "-Infinity" = Infinity true /\
  StringToNumber "1e999" = Infinity false /\
  StringToNumber "-0x191" = NaN /\
  StringToNumber "4o1" = NaN /\
  StringToNumber "401n" = NaN /\
  StringToNumber "." = NaN /\
  StringToNumber "1e" = NaN.
Proof. repeat apply conj; vm_compute; reflexivity. Qed.

Example loose_eq_number_samples :
  loose_eq_number (JStr " 401 ") 401 = Normal true /\
  loose_eq_number (JStr "401.0") 401 = Normal true /\
  loose_eq_number (JStr "0x191") 401 = Normal true /\
  loose_eq_number (JStr "4.01e2") 401 = Normal true /\
  loose_eq_number (JArr [JNum 401]) 401 = Normal true /\
  loose_eq_number (JArr [JArr [JStr "401."]]) 401 = Normal true /\
  loose_eq_number (JStr "4o1") 401 = Normal false /\
  loose_eq_number (JBool true) 1 = Normal true /\
  loose_eq_number JNull 0 = Normal false /\
  loose_eq_number (JObj []) 401 = Normal false /\
  loose_eq_number (JObj [("toString", JStr "401")]) 401 = Abrupt TypeError.
Proof. repeat apply conj; vm_compute; reflexivity. Qed.

Example loose_eq_string_samples :
  loose_eq_string (JStr "TOKEN_EXPIRED") "TOKEN_EXPIRED" = Normal true /\
  loose_eq_string (JArr [JStr "TOKEN_EXPIRED"]) "TOKEN_EXPIRED" = Normal true /\
  loose_eq_string (JArr [JStr "TOKEN"; JStr "EXPIRED"]) "TOKEN_EXPIRED" = Normal false /\
  loose_eq_string (JNum 0) "TOKEN_EXPIRED" = Normal false /\
  loose_eq_string (JNum 0) "" = Normal true /\
  loose_eq_string JUndefined "TOKEN_EXPIRED" = Normal false /\
  loose_eq_string (JObj [("toString", JNull)]) "TOKEN_EXPIRED" = Abrupt TypeError.
Proof. repeat apply conj; vm_compute; reflexivity. Qed.

(** A conversion to a string can only throw a TypeError. *)
Lemma ToString_thrown (v : jsval) (e : thrown) : ToString v = Abrupt e -> e = TypeError.
Proof.
  revert e. induction v as [| |b|n|s|items IH|props] using jsval_elements_ind;
    intros e; cbn [ToString].
  - discriminate.
  - discriminate.
  - destruct b; discriminate.
  - discriminate.
  - discriminate.
  - match goal with |- context [?f items] => set (elems := f) end.
    assert (Hl : forall e', elems items = Abrupt e' -> e' = TypeError).
    { induction IH as [|x l Hx _ IHl]; intros e' H; cbn in H; [discriminate|].
      destruct (match x with JUndefined | JNull => Normal "" | _ => ToString x end)
        as [t|e1] eqn:Ex.
      - destruct (elems l) as [r|e2] eqn:El; [discriminate|].
        inversion H. subst e2. eapply IHl. reflexivity.
      - inversion H. subst e1.
        destruct x; try discriminate Ex; exact (Hx _ Ex). }
    destruct (elems items) as [parts|e1] eqn:E; [discriminate|].
    intros H. inversion H. subst e1. eapply Hl. reflexivity.
  - destruct (has_own _ _); intros H; inversion H; reflexivity.
Qed.

(* ================================================================== *)
(** ** The constructor *)
(* ================================================================== *)




Lemma constructor_hubLogin_baseUrl (rt : Runtime) (options : option sseOptions) :
  hubLogin_baseUrl (constructor rt options)
  = normalized (field_or options opt_hubLoginBase DEFAULT_URLS_hubLoginBase).
Proof.
  unfold constructor, normalized. cbn.
  destruct (String.eqb _ "/"); reflexivity.
Qed.

Lemma constructor_flags (rt : Runtime) (options : option sseOptions) :
  autoreconnect (constructor rt options) = field_or options opt_autoreconnect true /\
  requireAuthentication (constructor rt options)
  = field_or options opt_requireAuthentication true.
Proof.
  unfold constructor. cbn.
  split; destruct options as [o|]; reflexivity.
Qed.

(** C10. A session built without options, or with options that leave
    [autoreconnect] or [requireAuthentication] out, reconnects automatically
    and requires authentication, although the field initialiser of
    [autoreconnect] says [false]; a value that is given, [false] included,
    is the one the session gets. *)
Theorem constructor_flag_defaults (rt : Runtime) :
  autoreconnect field_initializers = false /\
  autoreconnect (constructor rt None) = true /\
  requireAuthentication (constructor rt None) = true /\
  forall o : sseOptions,
    autoreconnect (constructor rt (Some o))
    = match opt_autoreconnect o with Some b => b | None => true end /\
    requireAuthentication (constructor rt (Some o))
    = match opt_requireAuthentication o with Some b => b | None => true end.
Proof.
  split; [reflexivity|].
  pose proof (constructor_flags rt None) as [H1 H2].
  split; [exact H1|]. split; [exact H2|].
  intros o. apply (constructor_flags rt (Some o)).
Qed.

#[global] Arguments String.append : simpl never.

(* ================================================================== *)
(** ** Properties kept by every turn of the event loop *)
(* ================================================================== *)

Section Keeps.

Variable P : World -> Prop.

Lemma keeps_ret {A} (a : A) : keeps P (ret a).
Proof. intros w H. exact H. Qed.

Lemma keeps_throw {A} (e : thrown) : keeps P (@throw A e).
Proof. intros w H. exact H. Qed.

Lemma keeps_gets {A} (f : World -> A) : keeps P (gets f).
Proof. intros w H. exact H. Qed.

Lemma keeps_of_completion {A} (c : completion A) : keeps P (of_completion c).
Proof. intros w H. exact H. Qed.

Lemma keeps_lift (f : World -> World) : stable P f -> keeps P (lift f).
Proof. intros Hf w H. apply Hf, H. Qed.

Lemma keeps_call {A} (f : World -> A * World) : keeps P f -> keeps P (call f).
Proof.
  intros Hf w H. specialize (Hf w H). unfold call.
  destruct (f w) as [a w']. exact Hf.
Qed.

Lemma keeps_bind {A B} (m : M A) (k : A -> M B) :
  keeps P m -> (forall a, keeps P (k a)) -> keeps P (bind m k).
Proof.
  intros Hm Hk w H. specialize (Hm w H). unfold bind.
  destruct (m w) as [[a|e] w']; cbn in *; [apply Hk, Hm | exact Hm].
Qed.

Lemma keeps_try_catch {A} (m : M A) (h : thrown -> M A) :
  keeps P m -> (forall e, keeps P (h e)) -> keeps P (try_catch m h).
Proof.
  intros Hm Hh w H. specialize (Hm w H). unfold try_catch.
  destruct (m w) as [[a|e] w']; cbn in *; [exact Hm | apply Hh, Hm].
Qed.

Lemma keeps_async (m : M promise) : keeps P m -> keeps P (async m).
Proof.
  intros Hm w H. specialize (Hm w H). unfold async.
  destruct (m w) as [[a|e] w']; exact Hm.
Qed.

End Keeps.

(** Goals [keeps P m] for a body [m] written with the monad; [known]
    closes the calls of methods already dealt with. *)
Ltac keeps_body known :=
  repeat first
    [ known
    | apply keeps_ret | apply keeps_throw | apply keeps_gets
    | apply keeps_of_completion
    | apply keeps_bind; [|intros ?]
    | apply keeps_try_catch; [|intros ?]
    | apply keeps_async
    | match goal with
      | |- keeps _ (if ?b then _ else _) => destruct b
      | |- keeps _ (match ?x with _ => _ end) => destruct x
      end ].

Section Preservation.

Context (rt : Runtime).
Variable P : World -> Prop.

(** What has to be checked by hand for a given [P]: the primitives, the
    three methods whose intermediate worlds may break it, and the moves of
    the environment. *)
Hypothesis P_emit : forall e, stable P (emit e).
Hypothesis P_cachedLoginData : forall v, stable P (assign (set_cachedLoginData v)).
Hypothesis P_accessToken : forall v, stable P (assign (set_accessToken v)).
Hypothesis P_autoreconnect : forall v, stable P (assign (set_autoreconnect v)).
Hypothesis P_checkerInterval : forall v, stable P (assign (set_checkerInterval v)).
Hypothesis P_reconnectTimeout : forall v, stable P (assign (set_reconnectTimeout v)).
Hypothesis P_cancel : forall h, stable P (cancel h).
Hypothesis P_set_Timeout :
  forall f ms, f <> ping_expired -> keeps P (set_Timeout f ms).
Hypothesis P_set_Interval :
  forall f ms, f <> ping_expired -> keeps P (set_Interval f ms).
Hypothesis P_requests : forall v, stable P (with_requests v).
Hypothesis P_messageReceived : stable P _messageReceived.
Hypothesis P_closeEventSource : stable P closeEventSource.
Hypothesis P_start : forall cb, keeps P (start cb).
Hypothesis P_now : forall t, stable P (with_now t).
Hypothesis P_readyState :
  forall w id es r, P w -> sources w !! id = Some es -> readyState es <> CLOSED ->
    P (set_readyState id r w).
Hypothesis P_fire :
  forall w h t, P w -> timers w !! h = Some t -> active t = true ->
    P (with_timers (alter (if repeating t then rearm else deactivate) h (timers w)) w).

Lemma P_clear_Timeout h : stable P (clear_Timeout h).
Proof. intros w H. apply P_emit, P_cancel, H. Qed.

Lemma P_clear_Interval h : stable P (clear_Interval h).
Proof. intros w H. apply P_emit, P_cancel, H. Qed.

Lemma P_fetch u m hs b : keeps P (fetch u m hs b).
Proof. intros w H. apply P_emit, P_requests, H. Qed.

Lemma P_drop (f : World -> promise * World) :
  keeps P f -> stable P (fun w => drop (f w)).
Proof.
  intros Hf w H. specialize (Hf w H). unfold drop.
  destruct (f w) as [[e|k|q] w']; cbn in *; try apply P_emit; exact Hf.
Qed.

Lemma P_loginHashed m p : keeps P (loginHashed m p).
Proof.
  unfold loginHashed.
  keeps_body ltac:(first [ apply keeps_lift, P_cachedLoginData
                         | apply keeps_call, P_fetch ]).
Qed.

Lemma P_login m p : keeps P (login rt m p).
Proof. apply P_loginHashed. Qed.

Lemma P_hubLogin i t : keeps P (hubLogin i t).
Proof.
  unfold hubLogin.
  keeps_body ltac:(first [ apply keeps_lift, P_cachedLoginData
                         | apply keeps_call, P_fetch ]).
Qed.

Lemma P_retryLogin : keeps P retryLogin.
Proof.
  unfold retryLogin.
  keeps_body ltac:(first [ apply keeps_call, P_hubLogin
                         | apply keeps_call, P_loginHashed ]).
Qed.

Lemma P_stop : stable P stop.
Proof. intros w H. apply P_closeEventSource, P_autoreconnect, H. Qed.

Lemma P_restart : stable P restart.
Proof.
  intros w H. unfold restart.
  exact (P_drop (start (eventCallback (this w))) (P_start _) w H).
Qed.

Lemma P_call_eventCallback v : keeps P (call_eventCallback v).
Proof.
  unfold call_eventCallback. keeps_body ltac:(apply keeps_lift, P_emit).
Qed.

Lemma P_then_restart p : stable P (then_restart p).
Proof.
  intros w H. destruct p; cbn; [apply P_emit | | apply P_requests]; exact H.
Qed.

Lemma P_retryWithNewAccessToken : keeps P retryWithNewAccessToken.
Proof.
  unfold retryWithNewAccessToken.
  keeps_body ltac:(first [ apply P_call_eventCallback
                         | apply keeps_lift, P_closeEventSource
                         | apply keeps_call, P_retryLogin
                         | apply keeps_lift, P_then_restart ]).
Qed.

Lemma P_login_chain r : keeps P (login_chain r).
Proof.
  unfold login_chain, login_then, login_catch.
  keeps_body ltac:(apply keeps_lift, P_accessToken).
Qed.

Lemma P_invoke f data : keeps P (invoke rt f data).
Proof.
  destruct f; cbn [invoke].
  - apply keeps_ret.
  - unfold open_listener_body.
    keeps_body ltac:(first [ apply keeps_lift, P_messageReceived
                           | apply keeps_call, P_set_Interval; discriminate
                           | apply keeps_lift, P_checkerInterval
                           | apply keeps_lift, P_emit ]).
  - unfold message_listener_body, parse, auth_signal.
    keeps_body ltac:(first [ apply P_retryWithNewAccessToken
                           | apply P_call_eventCallback
                           | apply keeps_lift, P_messageReceived ]).
  - unfold error_listener_body.
    keeps_body ltac:(first [ apply keeps_lift, P_clear_Interval
                           | apply keeps_lift, P_clear_Timeout
                           | apply keeps_lift, P_closeEventSource
                           | apply keeps_call, P_set_Timeout; discriminate
                           | apply keeps_lift, P_reconnectTimeout ]).
  - unfold ping_expired_body. keeps_body ltac:(apply keeps_lift, P_restart).
  - unfold checker_tick_body. keeps_body ltac:(apply keeps_lift, P_restart).
  - apply keeps_lift, P_restart.
  - apply keeps_lift, P_restart.
Qed.

Lemma P_run_handler data f : stable P (fun w => run_handler rt data w f).
Proof.
  intros w H. unfold run_handler.
  pose proof (P_invoke f data w H) as H'.
  destruct (invoke rt f data w) as [[a|e] w']; cbn in H'; try apply P_emit; exact H'.
Qed.

Lemma P_dispatch id k data : stable P (dispatch rt id k data).
Proof.
  intros w H. unfold dispatch.
  destruct (sources w !! id) as [es|]; [|exact H].
  generalize dependent w. induction (listeners_for k es) as [|f l IH]; intros w H.
  - exact H.
  - cbn. apply IH. apply P_run_handler, H.
Qed.

Lemma P_settle f r : stable P (settle f r).
Proof.
  intros w H. unfold settle.
  destruct (requests w !! f) as [q|]; [|exact H].
  pose proof (P_login_chain r _ (P_requests (alter completed f (requests w)) w H)) as H'.
  destruct (login_chain r _) as [[a|e] w']; cbn in H';
    destruct (awaited_by q); try (apply P_emit; exact H'); try exact H'.
  apply P_set_Timeout; [discriminate | exact H'].
Qed.

Lemma P_step w e w' : P w -> step rt w e = Some w' -> P w'.
Proof.
  intros H Hs. destruct e; cbn [step] in Hs.
  - inversion Hs. exact (P_drop _ (P_login _ _) w H).
  - inversion Hs. exact (P_drop _ (P_loginHashed _ _) w H).
  - inversion Hs. exact (P_drop _ (P_hubLogin _ _) w H).
  - inversion Hs. exact (P_drop _ P_retryLogin w H).
  - inversion Hs. apply P_accessToken, H.
  - inversion Hs. exact (P_drop _ (P_start _) w H).
  - inversion Hs. pose proof (P_retryWithNewAccessToken w H) as H'.
    destruct (retryWithNewAccessToken w) as [[a|e] w'']; cbn in H';
      try apply P_emit; exact H'.
  - inversion Hs. apply P_stop, H.
  - inversion Hs. apply P_closeEventSource, H.
  - destruct (sources w !! id) as [es|] eqn:E; [|discriminate].
    destruct (readyState es =? CONNECTING) eqn:R; [|discriminate].
    inversion Hs. apply P_dispatch. eapply P_readyState; eauto.
    apply Z.eqb_eq in R. rewrite R. discriminate.
  - destruct (sources w !! id) as [es|] eqn:E; [|discriminate].
    destruct (readyState es =? OPEN) eqn:R; [|discriminate].
    inversion Hs. apply P_dispatch, H.
  - destruct (sources w !! id) as [es|] eqn:E; [|discriminate].
    destruct (readyState es =? CLOSED) eqn:R; [discriminate|].
    inversion Hs. apply P_dispatch. eapply P_readyState; eauto.
    apply Z.eqb_neq in R. exact R.
  - destruct (sources w !! id) as [es|] eqn:E; [|discriminate].
    destruct (readyState es =? CLOSED) eqn:R; [discriminate|].
    inversion Hs. eapply P_readyState; eauto.
    apply Z.eqb_neq in R. exact R.
  - destruct (requests w !! f) as [q|]; [|discriminate].
    destruct (pending q); [|discriminate].
    inversion Hs. apply P_settle, H.
  - destruct (timers w !! h) as [t|] eqn:E; [|discriminate].
    destruct (active t) eqn:A; [|discriminate].
    destruct (due t <=? now w); [|discriminate].
    inversion Hs. unfold fire. apply P_run_handler. apply P_fire; auto.
  - destruct (_ && _); [|discriminate].
    inversion Hs. apply P_now, H.
Qed.

Lemma P_run es : forall w w', P w -> run rt w es = Some w' -> P w'.
Proof.
  induction es as [|e es IH]; intros w w' H Hr; cbn [run] in Hr.
  - inversion Hr. subst. exact H.
  - destruct (step rt w e) as [w1|] eqn:E; [|discriminate].
    eapply IH; [|exact Hr]. eapply P_step; eauto.
Qed.

(** A property of the fresh session that every turn keeps holds in every
    reachable world. *)
Lemma P_reachable options w :
  P (new_session rt options) -> reachable rt options w -> P w.
Proof. intros H0 [es Hr]. eapply P_run; eauto. Qed.

End Preservation.

(* ================================================================== *)
(** ** How [start] unfolds *)
(* ================================================================== *)

Lemma start_unfold (cb : option callback) (w : World) :
  start cb w =
  if refuses w then (Rejected AccessToken_required, w)
  else
    match stream_url (this (prepared cb w)) with
    | Normal u => (AwaitingOpen (fst (connect u (prepared cb w))),
                   snd (connect u (prepared cb w)))
    | Abrupt e => (Rejected e, prepared cb w)
    end.
Proof.
  unfold start, start_executor, refuses, prepared. monad. cbn.
  destruct (is_null _ && _); [reflexivity|].
  destruct (eventSource (this w)); cbn.
  - destruct (stream_url _) as [u|e]; reflexivity.
  - destruct (stream_url _) as [u|e]; reflexivity.
Qed.

Lemma alter_app_last {A} (f : A -> A) (l : list A) (x : A) :
  alter f (length l) (l ++ [x])%list = (l ++ [f x])%list.
Proof. induction l as [|y l IH]; cbn; [reflexivity | now rewrite IH]. Qed.

(** The executor adds one connection, wired to three fresh listeners, and
    makes it the current one. *)
Lemma connect_spec (u : string) (w : World) :
  connect u w = (length (sources w), connected_to u w).
Proof.
  destruct w as [s srcs tms reqs t tr].
  unfold connect, connected_to, new_EventSource, addEventListener, emit, assign.
  cbn. rewrite !alter_app_last. cbn.
  rewrite <- !app_assoc. reflexivity.
Qed.

(* ================================================================== *)
(** ** What the closing and heartbeat methods do to the world *)
(* ================================================================== *)

Lemma length_cancel_in (h : option nat) (l : list Timer) :
  length (cancel_in h l) = length l.
Proof. destruct h; cbn; [apply length_alter | reflexivity]. Qed.

Lemma _clearPendingActions_spec (w : World) :
  _clearPendingActions w =
  {| this := this w;
     sources := sources w;
     timers := cleared_timers (this w) (timers w);
     requests := requests w;
     now := now w;
     trace := trace w ++
       [ClearInterval (checkerInterval (this w));
        ClearTimeout (reconnectTimeout (this w));
        ClearTimeout (pingTimeout (this w))] |}.
Proof.
  destruct w as [s srcs tms reqs t tr].
  unfold _clearPendingActions, clear_Interval, clear_Timeout, cancel, emit,
    cleared_timers.
  cbn. rewrite <- !app_assoc. reflexivity.
Qed.

Lemma closeEventSource_spec (w : World) :
  closeEventSource w =
  match eventSource (this w) with
  | Some id =>
      {| this := set_eventSource None (this w);
         sources := alter (shut (listeners (this w))) id (sources w);
         timers := cleared_timers (this w) (timers w);
         requests := requests w;
         now := now w;
         trace := trace w ++
           [ClearInterval (checkerInterval (this w));
            ClearTimeout (reconnectTimeout (this w));
            ClearTimeout (pingTimeout (this w));
            RemoveEventListener id on_open_event (open (listeners (this w)));
            RemoveEventListener id on_message_event (message (listeners (this w)));
            RemoveEventListener id on_error_event (error (listeners (this w)));
            Close id] |}
  | None => _clearPendingActions w
  end.
Proof.
  unfold closeEventSource. rewrite _clearPendingActions_spec.
  destruct w as [s srcs tms reqs t tr]. cbn.
  destruct (eventSource s) as [id|]; [|reflexivity].
  unfold close, removeEventListener, emit, assign.
  cbn. rewrite !list_alter_alter_eq, <- !app_assoc. reflexivity.
Qed.

Lemma _messageReceived_spec (w : World) :
  _messageReceived w =
  {| this := set_pingTimeout (Some (length (timers w))) (this w);
     sources := sources w;
     timers := cancel_in (pingTimeout (this w)) (timers w) ++ [heartbeat_timer (now w)];
     requests := requests w;
     now := now w;
     trace := trace w ++
       [ClearTimeout (pingTimeout (this w));
        SetTimeout (length (timers w)) ping_expired 40000] |}.
Proof.
  destruct w as [s srcs tms reqs t tr].
  unfold _messageReceived, set_Timeout, clear_Timeout, cancel, emit, assign,
    heartbeat_timer.
  cbn. rewrite length_cancel_in, <- !app_assoc. reflexivity.
Qed.

Lemma prepared_with_handle (cb : option callback) (w : World) (old : nat) :
  eventSource (this w) = Some old ->
  prepared cb w =
  {| this := set_eventSource None (set_eventCallback cb (this w));
     sources := alter (shut (listeners (this w))) old (sources w);
     timers := cleared_timers (this w) (cleared_timers (this w) (timers w));
     requests := requests w;
     now := now w;
     trace := trace w ++
       [ClearInterval (checkerInterval (this w));
        ClearTimeout (reconnectTimeout (this w));
        ClearTimeout (pingTimeout (this w));
        ClearInterval (checkerInterval (this w));
        ClearTimeout (reconnectTimeout (this w));
        ClearTimeout (pingTimeout (this w));
        RemoveEventListener old on_open_event (open (listeners (this w)));
        RemoveEventListener old on_message_event (message (listeners (this w)));
        RemoveEventListener old on_error_event (error (listeners (this w)));
        Close old] |}.
Proof.
  intros E. unfold prepared. rewrite _clearPendingActions_spec.
  destruct w as [s srcs tms reqs t tr]. cbn in E. cbn. rewrite E.
  rewrite closeEventSource_spec. cbn. rewrite E.
  rewrite <- !app_assoc. reflexivity.
Qed.

Lemma prepared_without_handle (cb : option callback) (w : World) :
  eventSource (this w) = None ->
  prepared cb w =
  {| this := set_eventCallback cb (this w);
     sources := sources w;
     timers := cleared_timers (this w) (timers w);
     requests := requests w;
     now := now w;
     trace := trace w ++
       [ClearInterval (checkerInterval (this w));
        ClearTimeout (reconnectTimeout (this w));
        ClearTimeout (pingTimeout (this w))] |}.
Proof.
  intros E. unfold prepared. rewrite _clearPendingActions_spec.
  destruct w as [s srcs tms reqs t tr]. cbn in E. cbn. rewrite E.
  reflexivity.
Qed.

(** What [prepared] leaves alone. *)
Lemma prepared_frame (cb : option callback) (w : World) :
  length (sources (prepared cb w)) = length (sources w) /\
  stream_url (this (prepared cb w)) = stream_url (this w) /\
  config (this (prepared cb w)) = config (this w) /\
  eventCallback (this (prepared cb w)) = cb /\
  eventSource (this (prepared cb w)) = None.
Proof.
  destruct (eventSource (this w)) as [old|] eqn:E.
  - rewrite (prepared_with_handle cb w old E). cbn.
    rewrite length_alter. auto.
  - rewrite (prepared_without_handle cb w E). cbn. auto.
Qed.

Lemma start_spec (cb : option callback) (w : World) :
  start cb w =
  if refuses w then (Rejected AccessToken_required, w)
  else (start_outcome w, started cb w).
Proof.
  rewrite start_unfold. destruct (refuses w); [reflexivity|].
  destruct (prepared_frame cb w) as (Hlen & Hurl & _).
  unfold started, start_outcome. rewrite Hurl.
  destruct (stream_url (this w)); [|reflexivity].
  rewrite connect_spec. cbn [fst snd]. rewrite Hlen. reflexivity.
Qed.

(** The two worlds [start] can leave when it does not refuse. *)
Lemma started_connected (cb : option callback) (w : World) (u : string) :
  stream_url (this w) = Normal u ->
  let p := prepared cb w in
  let k := length (sources w) in
  started cb w =
  {| this := set_listeners (wired_listeners k) (set_eventSource (Some k) (this p));
     sources := sources p ++ [wired_source k u];
     timers := timers p;
     requests := requests p;
     now := now p;
     trace := trace p ++
       [NewEventSource k u;
        AddEventListener k on_open_event (open_listener k);
        AddEventListener k on_message_event (message_listener k);
        AddEventListener k on_error_event (error_listener k)] |}.
Proof.
  intros Hu p k. subst p k. unfold started, connected_to. rewrite Hu.
  destruct (prepared_frame cb w) as (Hlen & _). rewrite Hlen. reflexivity.
Qed.

Lemma started_thrown (cb : option callback) (w : World) (e : thrown) :
  stream_url (this w) = Abrupt e -> started cb w = prepared cb w.
Proof. intros Hu. unfold started. rewrite Hu. reflexivity. Qed.


(** From here on the methods are used through the lemmas above. *)
#[global] Opaque start start_executor prepared closeEventSource
  _clearPendingActions _messageReceived.

(* ================================================================== *)
(** ** The configuration never changes *)
(* ================================================================== *)

(** Goals about a primitive applied to an arbitrary world: once the world
    is taken apart the primitive computes. *)
Ltac by_computing :=
  let w := fresh "w" in
  let H := fresh "H" in
  intros w H; destruct w; exact H.

(** The two cases of [started cb w]. *)
Ltac on_started cb w :=
  let u := fresh "u" in
  let e := fresh "e" in
  let Hu := fresh "Hu" in
  destruct (stream_url (this w)) as [u|e] eqn:Hu;
  [rewrite (started_connected cb w u Hu) | rewrite (started_thrown cb w e Hu)].

(** What the executor leaves alone, whether it gets to connect or not. *)
Lemma started_view (cb : option callback) (w : World) :
  timers (started cb w) = timers (prepared cb w) /\
  requests (started cb w) = requests (prepared cb w) /\
  now (started cb w) = now (prepared cb w) /\
  pingTimeout (this (started cb w)) = pingTimeout (this (prepared cb w)) /\
  checkerInterval (this (started cb w)) = checkerInterval (this (prepared cb w)) /\
  reconnectTimeout (this (started cb w)) = reconnectTimeout (this (prepared cb w)).
Proof. on_started cb w; repeat split; reflexivity. Qed.

Lemma config_started (l : Listeners) (e : option nat) (s : CrownstoneSSE) :
  config (set_listeners l (set_eventSource e s)) = config s.
Proof. reflexivity. Qed.

Lemma configured_start c cb : keeps (configured c) (start cb).
Proof.
  intros w H. rewrite start_spec.
  destruct (refuses w); [exact H|].
  cbn [snd]. unfold configured.
  destruct (prepared_frame cb w) as (_ & _ & Hc & _).
  on_started cb w; cbn [this]; [rewrite config_started|]; rewrite Hc; exact H.
Qed.

Lemma configured_closeEventSource c : stable (configured c) closeEventSource.
Proof.
  intros w H. rewrite closeEventSource_spec.
  destruct (eventSource (this w)); [exact H|].
  rewrite _clearPendingActions_spec. exact H.
Qed.

Lemma configured_reachable (rt : Runtime) (options : option sseOptions) (w : World) :
  reachable rt options w -> configured (config (constructor rt options)) w.
Proof.
  apply P_reachable.
  - intros e. by_computing.
  - intros v. by_computing.
  - intros v. by_computing.
  - intros v. by_computing.
  - intros v. by_computing.
  - intros v. by_computing.
  - intros h. by_computing.
  - intros f ms _. by_computing.
  - intros f ms _. by_computing.
  - intros v. by_computing.
  - intros w0 H. rewrite _messageReceived_spec. exact H.
  - apply configured_closeEventSource.
  - apply configured_start.
  - intros t. by_computing.
  - intros w0 id es r H _ _. destruct w0. exact H.
  - intros w0 h t H _ _. destruct w0. exact H.
  - reflexivity.
Qed.
(* ================================================================== *)
(** ** One connection at a time *)
(* ================================================================== *)

Lemma idle_one_connection (w : World) : idle w -> one_connection w.
Proof.
  intros [He Hd]. split.
  - intros id es Hs _. eapply Hd, Hs.
  - intros id Hid. rewrite He in Hid. discriminate.
Qed.

Lemma without_single (f : closure) : without f [f] = [].
Proof.
  unfold without. rewrite filter_cons.
  destruct (decide (f <> f)); [congruence | reflexivity].
Qed.

Lemma shut_wired (k : nat) (s : CrownstoneSSE) (es : EventSource) :
  wired k s es -> detached (shut (listeners s) es).
Proof.
  intros (Hl & Ho & Hm & He). unfold detached, shut.
  cbn [readyState on_open on_message on_error].
  rewrite Hl, Ho, Hm, He. unfold wired_listeners. cbn [open message error].
  rewrite !without_single. auto.
Qed.

(** After [closeEventSource] every connection is closed and bare. *)
Lemma shut_sources_detached (w : World) (old : nat) :
  one_connection w -> eventSource (this w) = Some old ->
  forall id es,
    alter (shut (listeners (this w))) old (sources w) !! id = Some es -> detached es.
Proof.
  intros [H1 H2] E id' es' Hs.
  destruct (decide (old = id')) as [->|Hne].
  - rewrite list_lookup_alter_eq in Hs.
    destruct (H2 id' E) as (es & Hes & Hw).
    rewrite Hes in Hs. cbn in Hs. inversion Hs. subst es'.
    eapply shut_wired, Hw.
  - rewrite list_lookup_alter_ne in Hs by exact Hne.
    eapply H1; [exact Hs|]. congruence.
Qed.

Lemma all_detached_without_handle (w : World) :
  one_connection w -> eventSource (this w) = None ->
  forall id es, sources w !! id = Some es -> detached es.
Proof.
  intros [H1 _] E id es Hs. eapply H1; [exact Hs|]. rewrite E. discriminate.
Qed.

Lemma closeEventSource_idle (w : World) : one_connection w -> idle (closeEventSource w).
Proof.
  intros H. rewrite closeEventSource_spec.
  destruct (eventSource (this w)) as [id|] eqn:E.
  - split; [reflexivity|]. cbn [sources]. apply shut_sources_detached; assumption.
  - rewrite _clearPendingActions_spec. split; [exact E|]. cbn [sources].
    apply all_detached_without_handle; assumption.
Qed.

Lemma prepared_idle (cb : option callback) (w : World) :
  one_connection w -> idle (prepared cb w).
Proof.
  intros H. destruct (eventSource (this w)) as [old|] eqn:E.
  - rewrite (prepared_with_handle cb w old E).
    split; [reflexivity|]. cbn [sources]. apply shut_sources_detached; assumption.
  - rewrite (prepared_without_handle cb w E).
    split; [exact E|]. cbn [sources]. apply all_detached_without_handle; assumption.
Qed.

Lemma started_one_connection (cb : option callback) (w : World) :
  one_connection w -> one_connection (started cb w).
Proof.
  intros H. pose proof (prepared_idle cb w H) as Hidle.
  destruct Hidle as [Hnone Hd].
  destruct (prepared_frame cb w) as (Hlen & _).
  on_started cb w; [|apply idle_one_connection; split; assumption].
  split; cbn [this sources eventSource set_listeners set_eventSource].
  - intros id es Hs Hne.
    destruct (decide (id < length (sources (prepared cb w)))%nat) as [Hlt|Hge].
    + rewrite lookup_app_l in Hs by exact Hlt. eapply Hd, Hs.
    + rewrite lookup_app_r in Hs by lia.
      destruct (id - length (sources (prepared cb w)))%nat as [|n] eqn:D;
        cbn in Hs; [|discriminate].
      exfalso. apply Hne. f_equal. lia.
  - intros id Hid. inversion Hid. subst id.
    eexists. split.
    + rewrite lookup_app_r by lia. rewrite Hlen, Nat.sub_diag. reflexivity.
    + repeat split.
Qed.

Lemma one_connection_start (cb : option callback) : keeps one_connection (start cb).
Proof.
  intros w H. rewrite start_spec.
  destruct (refuses w); [exact H|].
  cbn [snd]. apply started_one_connection, H.
Qed.

Lemma one_connection_readyState (w : World) (id : nat) (es : EventSource) (r : Z) :
  one_connection w -> sources w !! id = Some es -> readyState es <> CLOSED ->
  one_connection (set_readyState id r w).
Proof.
  intros [H1 H2] Hs Hr.
  assert (Hcur : eventSource (this w) = Some id).
  { destruct (decide (eventSource (this w) = Some id)) as [|Hne]; [assumption|].
    destruct (H1 id es Hs Hne) as [Hc _]. contradiction. }
  destruct w as [s srcs tms reqs t tr]. cbn in *.
  split; cbn.
  - intros id' es' Hs' Hne.
    rewrite list_lookup_alter_ne in Hs' by congruence.
    eapply H1; eauto.
  - intros id' Hid. rewrite Hcur in Hid. inversion Hid. subst id'.
    destruct (H2 id Hcur) as (es0 & Hes0 & Hw).
    exists (with_readyState r es0). split.
    + rewrite list_lookup_alter_eq, Hes0. reflexivity.
    + exact Hw.
Qed.

(** In every reachable world the connections other than the current one
    are closed and have no listener, and the current one carries the
    listeners held in [this.listeners]. *)
Lemma one_connection_reachable (rt : Runtime) (options : option sseOptions) (w : World) :
  reachable rt options w -> one_connection w.
Proof.
  apply P_reachable.
  - intros e. by_computing.
  - intros v. by_computing.
  - intros v. by_computing.
  - intros v. by_computing.
  - intros v. by_computing.
  - intros v. by_computing.
  - intros h. by_computing.
  - intros f ms _. by_computing.
  - intros f ms _. by_computing.
  - intros v. by_computing.
  - intros w0 H. rewrite _messageReceived_spec. destruct w0. exact H.
  - intros w0 H. apply idle_one_connection, closeEventSource_idle, H.
  - apply one_connection_start.
  - intros t. by_computing.
  - intros. eapply one_connection_readyState; eauto.
  - intros w0 h t H _ _. destruct w0. exact H.
  - apply idle_one_connection. split; [|intros id es Hs; discriminate].
    unfold new_session, constructor. cbn. destruct (String.eqb _ _); reflexivity.
Qed.
(** A connection that is not closed is the current one. *)
Lemma live_connection_is_current (w : World) (id : nat) (es : EventSource) :
  one_connection w -> sources w !! id = Some es -> readyState es <> CLOSED ->
  eventSource (this w) = Some id.
Proof.
  intros [H1 _] Hs Hc.
  destruct (decide (eventSource (this w) = Some id)) as [|Hne]; [assumption|].
  destruct (H1 id es Hs Hne) as [Hd _]. contradiction.
Qed.

(** C1. In every world the session can reach, whatever calls of [start]
    and whatever restarts by the heartbeat, the liveness poll, the error
    listener or the token refresh led there, a connection that is not closed
    is the one in [eventSource], so there is at most one. And when [start]
    goes through while [eventSource] holds a connection [old], the executor
    runs in a world [mid] where [old] has lost its three listeners, is
    closed and [eventSource] is [null]: the trace shows the three
    [removeEventListener], then [close], and only then [new EventSource].
    (Should the token not convert to a string, making the URL throws in
    [mid]: the promise is rejected and no connection is made.) *)
Theorem single_connection_handle
    (rt : Runtime) (options : option sseOptions) (w : World) :
  reachable rt options w ->
  (forall id es, sources w !! id = Some es -> readyState es <> CLOSED ->
     eventSource (this w) = Some id) /\
  (forall i j a b, sources w !! i = Some a -> sources w !! j = Some b ->
     readyState a <> CLOSED -> readyState b <> CLOSED -> i = j) /\
  (forall cb old, eventSource (this w) = Some old -> refuses w = false ->
     let mid := prepared cb w in
     let new := length (sources w) in
     start cb w = (start_outcome w, started cb w) /\
     eventSource (this mid) = None /\
     (exists es, sources mid !! old = Some es /\ detached es) /\
     trace mid = (trace w ++
       [ClearInterval (checkerInterval (this w));
        ClearTimeout (reconnectTimeout (this w));
        ClearTimeout (pingTimeout (this w));
        ClearInterval (checkerInterval (this w));
        ClearTimeout (reconnectTimeout (this w));
        ClearTimeout (pingTimeout (this w));
        RemoveEventListener old on_open_event (open_listener old);
        RemoveEventListener old on_message_event (message_listener old);
        RemoveEventListener old on_error_event (error_listener old);
        Close old])%list /\
     (forall u, stream_url (this w) = Normal u ->
        start_outcome w = AwaitingOpen new /\
        trace (started cb w) = (trace mid ++
          [NewEventSource new u;
           AddEventListener new on_open_event (open_listener new);
           AddEventListener new on_message_event (message_listener new);
           AddEventListener new on_error_event (error_listener new)])%list /\
        sources (started cb w) = (sources mid ++ [wired_source new u])%list /\
        eventSource (this (started cb w)) = Some new) /\
     (forall e, stream_url (this w) = Abrupt e ->
        start_outcome w = Rejected e /\ started cb w = mid)).
Proof.
  intros Hr. pose proof (one_connection_reachable _ _ _ Hr) as Hone.
  pose proof Hone as [H1 H2].
  assert (Hcur : forall id es, sources w !! id = Some es -> readyState es <> CLOSED ->
                   eventSource (this w) = Some id)
    by (intros id es; apply live_connection_is_current, Hone).
  split; [exact Hcur|]. split.
  - intros i j a b Ha Hb Hca Hcb.
    pose proof (Hcur i a Ha Hca) as Hi. pose proof (Hcur j b Hb Hcb) as Hj.
    congruence.
  - intros cb old Hold Href mid new.
    destruct (H2 old Hold) as (es & Hes & Hw).
    pose proof Hw as (Hl & _).
    rewrite start_spec, Href.
    split; [reflexivity|].
    assert (Hmid : eventSource (this mid) = None /\
              (exists es, sources mid !! old = Some es /\ detached es) /\
              trace mid = (trace w ++
                [ClearInterval (checkerInterval (this w));
                 ClearTimeout (reconnectTimeout (this w));
                 ClearTimeout (pingTimeout (this w));
                 ClearInterval (checkerInterval (this w));
                 ClearTimeout (reconnectTimeout (this w));
                 ClearTimeout (pingTimeout (this w));
                 RemoveEventListener old on_open_event (open_listener old);
                 RemoveEventListener old on_message_event (message_listener old);
                 RemoveEventListener old on_error_event (error_listener old);
                 Close old])%list).
    { unfold mid. rewrite (prepared_with_handle cb w old Hold).
      cbn [this sources trace eventSource set_eventSource].
      split; [reflexivity|]. split.
      - exists (shut (listeners (this w)) es). split.
        + rewrite list_lookup_alter_eq, Hes. reflexivity.
        + eapply shut_wired, Hw.
      - rewrite Hl. reflexivity. }
    destruct Hmid as (Hm1 & Hm2 & Hm3).
    split; [exact Hm1|]. split; [exact Hm2|]. split; [exact Hm3|]. split.
    + intros u Hu. unfold start_outcome. rewrite Hu, (started_connected cb w u Hu).
      repeat split.
    + intros e He. unfold start_outcome. rewrite He, (started_thrown cb w e He).
      split; reflexivity.
Qed.

Lemma single_connection_handle_witness :
  reachable demo_runtime None connected_world /\
  eventSource (this connected_world) = Some 0%nat /\
  refuses connected_world = false /\
  start (Some 2%nat) connected_world = (AwaitingOpen 1, started (Some 2%nat) connected_world) /\
  eventSource (this (prepared (Some 2%nat) connected_world)) = None /\
  (exists es, sources (prepared (Some 2%nat) connected_world) !! 0%nat = Some es /\ detached es).
Proof.
  assert (Hr : reachable demo_runtime None connected_world).
  { exists [call_setAccessToken (JStr "t0"); call_start 1%nat]. vm_compute. reflexivity. }
  split; [exact Hr|].
  split; [vm_compute; reflexivity|].
  split; [vm_compute; reflexivity|].
  assert (Ho : start_outcome connected_world = AwaitingOpen 1)
    by (vm_compute; reflexivity).
  destruct (single_connection_handle demo_runtime None connected_world Hr) as (_ & _ & Hs).
  destruct (Hs (Some 2%nat) 0%nat) as (H1 & H2 & H3 & _).
  - vm_compute. reflexivity.
  - vm_compute. reflexivity.
  - rewrite Ho in H1. split; [exact H1|]. split; [exact H2|exact H3].
Defined.
(* ================================================================== *)
(** ** Starting: the token check and the URL *)
(* ================================================================== *)


Lemma started_frame (cb : option callback) (w : World) (u : string) :
  stream_url (this w) = Normal u ->
  let k := length (sources w) in
  sources (started cb w) !! k = Some (wired_source k u) /\
  eventSource (this (started cb w)) = Some k /\
  eventCallback (this (started cb w)) = cb.
Proof.
  intros Hu k. destruct (prepared_frame cb w) as (Hlen & _ & _ & Hcb & _).
  rewrite (started_connected cb w u Hu).
  cbn [this sources eventSource eventCallback set_listeners set_eventSource].
  repeat split.
  - rewrite lookup_app_r by lia. rewrite Hlen, Nat.sub_diag. reflexivity.
  - exact Hcb.
Qed.





(** C6 as the specification words it fails when the token is an object
    with a property named [toString] of its own, here the [id] of a login
    answer: the token is not [null], so [start] does not refuse; it stores
    the callback, clears the timers and then throws a TypeError while
    making the URL. The promise is rejected and no connection is made. *)
Lemma unprintable_token_opens_nothing :
  exists w w',
    run demo_runtime (new_session demo_runtime None)
      [call_hubLogin "hub1" "tok1";
       settled 0 (fetch_json (JObj [("id", JObj [("toString", JStr "T1")])]))] = Some w /\
    accessToken (this w) = JObj [("toString", JStr "T1")] /\
    requireAuthentication (this w) = true /\
    refuses w = false /\
    start (Some 1%nat) w = (Rejected TypeError, w') /\
    eventCallback (this w') = Some 1%nat /\
    eventSource (this w') = None /\
    sources w' = [] /\
    existsb opens_connection (trace w') = false.
Proof.
  eexists. eexists.
  split; [vm_compute; reflexivity|].
  repeat apply conj; vm_compute; reflexivity.
Qed.

(* ================================================================== *)
(** ** Retrying the login *)
(* ================================================================== *)

(** What the two logins ask for. *)
Lemma hubLogin_spec (i t : string) (w : World) :
  hubLogin i t w =
  (AwaitingRequest (length (requests w)),
   {| this := set_cachedLoginData
                (Some {| user := None; hub := Some {| hubId := i; hubToken := t |} |})
                (this w);
      sources := sources w;
      timers := timers w;
      requests := requests w ++
        [{| target := hubLogin_baseUrl (this w) ++ i ++ "/login?token=" ++ t;
            method := "POST"; headers := defaultHeaders;
            body := None; awaited_by := caller; pending := true |}];
      now := now w;
      trace := trace w ++
        [Fetch (length (requests w))
           (hubLogin_baseUrl (this w) ++ i ++ "/login?token=" ++ t) None] |}).
Proof. destruct w. reflexivity. Qed.

Lemma loginHashed_spec (m p : string) (w : World) :
  loginHashed m p w =
  (AwaitingRequest (length (requests w)),
   {| this := set_cachedLoginData
                (Some {| user := Some {| email := m; hashedPassword := p |}; hub := None |})
                (this w);
      sources := sources w;
      timers := timers w;
      requests := requests w ++
        [{| target := login_url (this w);
            method := "POST"; headers := defaultHeaders;
            body := Some (JObj [("email", JStr m); ("password", JStr p)]);
            awaited_by := caller; pending := true |}];
      now := now w;
      trace := trace w ++
        [Fetch (length (requests w)) (login_url (this w))
           (Some (JObj [("email", JStr m); ("password", JStr p)]))] |}).
Proof. destruct w. reflexivity. Qed.

Lemma retryLogin_unfold (w : World) :
  retryLogin w =
  match cachedLoginData (this w) with
  | None => (Rejected TypeError, w)
  | Some d =>
      match hub d with
      | Some h => hubLogin (hubId h) (hubToken h) w
      | None =>
          match user d with
          | Some u => loginHashed (email u) (hashedPassword u) w
          | None => (Rejected (Thrown (JStr "NO_CREDENTIALS")), w)
          end
      end
  end.
Proof.
  unfold retryLogin. monad.
  destruct (cachedLoginData (this w)) as [d|]; [|reflexivity].
  destruct (hub d) as [h|].
  - rewrite hubLogin_spec. reflexivity.
  - destruct (user d) as [u|]; [|reflexivity].
    rewrite loginHashed_spec. reflexivity.
Qed.


(** Without stored credentials there is nothing to dispatch on: reading
    [.hub] of [null] is a TypeError. *)
Lemma retryLogin_without_record (w : World) :
  cachedLoginData (this w) = None -> retryLogin w = (Rejected TypeError, w).
Proof. intros Hd. rewrite retryLogin_unfold, Hd. reflexivity. Qed.

(* ================================================================== *)
(** ** The URLs *)
(* ================================================================== *)

Lemma string_app_assoc (a b c : string) : (a ++ b) ++ c = a ++ b ++ c.
Proof.
  induction a as [|x a IH]; [reflexivity|].
  change (String x ((a ++ b) ++ c) = String x (a ++ b ++ c)). now rewrite IH.
Qed.

Lemma constructor_config (rt : Runtime) (options : option sseOptions) :
  config (constructor rt options) =
  (field_or options opt_sseUrl DEFAULT_URLS_sseUrl,
   field_or options opt_loginUrl DEFAULT_URLS_loginUrl,
   normalized (field_or options opt_hubLoginBase DEFAULT_URLS_hubLoginBase),
   Some (client_identifier rt options),
   field_or options opt_requireAuthentication true).
Proof.
  unfold config. rewrite constructor_hubLogin_baseUrl.
  destruct (constructor_flags rt options) as [_ ->].
  unfold constructor. cbn. destruct (String.eqb _ "/"); reflexivity.
Qed.

Lemma reachable_config (rt : Runtime) (options : option sseOptions) (w : World) :
  reachable rt options w ->
  sse_url (this w) = field_or options opt_sseUrl DEFAULT_URLS_sseUrl /\
  hubLogin_baseUrl (this w)
  = normalized (field_or options opt_hubLoginBase DEFAULT_URLS_hubLoginBase) /\
  projectName (this w) = Some (client_identifier rt options) /\
  requireAuthentication (this w) = field_or options opt_requireAuthentication true.
Proof.
  intros Hr. pose proof (configured_reachable rt options w Hr) as H.
  unfold configured in H. rewrite constructor_config in H.
  unfold config in H. inversion H. auto.
Qed.

Lemma run_app (rt : Runtime) (es1 es2 : list event) (w : World) :
  run rt w (es1 ++ es2) =
  match run rt w es1 with Some w1 => run rt w1 es2 | None => None end.
Proof.
  revert w. induction es1 as [|e es1 IH]; intros w; cbn [run app]; [reflexivity|].
  destruct (step rt w e); [apply IH | reflexivity].
Qed.

Lemma reachable_step (rt : Runtime) (options : option sseOptions) (w w' : World) (e : event) :
  reachable rt options w -> step rt w e = Some w' -> reachable rt options w'.
Proof.
  intros [es Hr] Hs. exists (es ++ [e])%list.
  rewrite run_app, Hr. cbn [run]. rewrite Hs. reflexivity.
Qed.

(** C8. Whenever [start] makes a connection, its URL is the configured
    SSE URL, followed by [?accessToken=], the current token as [+] converts
    it to a string, [&projectName=] and the client identifier when
    authentication is required, and the configured SSE URL alone when it is
    not; and [start] makes a connection whenever it does not refuse and the
    token converts. So after [setAccessToken(t)], [start] with
    authentication required connects to a URL that contains
    [accessToken=t]. *)
Theorem start_url
    (rt : Runtime) (options : option sseOptions) (w : World) (cb : option callback) :
  reachable rt options w ->
  let sseUrl := field_or options opt_sseUrl DEFAULT_URLS_sseUrl in
  let auth := field_or options opt_requireAuthentication true in
  let k := length (sources w) in
  let address (token : string) :=
    sseUrl ++ "?accessToken=" ++ token ++ "&projectName=" ++ client_identifier rt options in
  stream_url (this w)
  = (if auth
     then match ToString (accessToken (this w)) with
          | Normal token => Normal (address token)
          | Abrupt e => Abrupt e
          end
     else Normal sseUrl) /\
  (forall u, refuses w = false -> stream_url (this w) = Normal u ->
     fst (start cb w) = AwaitingOpen k /\
     url <$> sources (snd (start cb w)) !! k = Some u) /\
  (forall j, fst (start cb w) = AwaitingOpen j ->
     j = k /\ exists u, stream_url (this w) = Normal u /\
                        url <$> sources (snd (start cb w)) !! k = Some u) /\
  (forall (t : jsval) (token : string),
     auth = true -> is_null t = false -> ToString t = Normal token ->
     let opened := url <$> sources (snd (start cb (setAccessToken t w))) !! k in
     opened = Some (address token) /\
     exists u, opened = Some u /\ contains ("accessToken=" ++ token) u) /\
  (forall t : string,
     auth = true ->
     let opened := url <$> sources (snd (start cb (setAccessToken (JStr t) w))) !! k in
     opened = Some (address t) /\
     exists u, opened = Some u /\ contains ("accessToken=" ++ t) u).
Proof.
  intros Hr sseUrl auth k address.
  assert (Hurl : forall w0, reachable rt options w0 ->
            stream_url (this w0)
            = (if auth
               then match ToString (accessToken (this w0)) with
                    | Normal token => Normal (address token)
                    | Abrupt e => Abrupt e
                    end
               else Normal sseUrl)).
  { intros w0 Hr0.
    destruct (reachable_config rt options w0 Hr0) as (Hu & _ & Hp & Ha).
    unfold stream_url. rewrite Hu, Hp, Ha. reflexivity. }
  assert (Hgen : forall w0 u, refuses w0 = false -> stream_url (this w0) = Normal u ->
            fst (start cb w0) = AwaitingOpen (length (sources w0)) /\
            url <$> sources (snd (start cb w0)) !! length (sources w0) = Some u).
  { intros w0 u Href Hu. rewrite start_spec, Href. cbn [fst snd].
    unfold start_outcome. rewrite Hu. split; [reflexivity|].
    destruct (started_frame cb w0 u Hu) as (Hsrc & _).
    rewrite Hsrc. reflexivity. }
  assert (Hset : forall (t : jsval) (token : string),
     auth = true -> is_null t = false -> ToString t = Normal token ->
     let opened := url <$> sources (snd (start cb (setAccessToken t w))) !! k in
     opened = Some (address token) /\
     exists u, opened = Some u /\ contains ("accessToken=" ++ token) u).
  { intros t token Ha Hnn Ht opened.
    assert (Hr' : reachable rt options (setAccessToken t w))
      by (eapply reachable_step with (e := call_setAccessToken t); [exact Hr|reflexivity]).
    assert (Hk : k = length (sources (setAccessToken t w))) by (destruct w; reflexivity).
    assert (Htok : accessToken (this (setAccessToken t w)) = t) by (destruct w; reflexivity).
    assert (Hrf : refuses (setAccessToken t w) = false)
      by (unfold refuses; rewrite Htok, Hnn; reflexivity).
    assert (Ho : opened = Some (address token)).
    { unfold opened. rewrite Hk.
      apply (Hgen _ _ Hrf). rewrite (Hurl _ Hr'), Ha, Htok, Ht. reflexivity. }
    split; [exact Ho|].
    eexists. split; [exact Ho|].
    exists (sseUrl ++ "?"), ("&projectName=" ++ client_identifier rt options).
    unfold address. rewrite !string_app_assoc. reflexivity. }
  split; [apply Hurl, Hr|]. split; [intros u; apply Hgen|]. split; [|split].
  - intros j Hj. rewrite start_spec in Hj |- *.
    destruct (refuses w); [discriminate Hj|]. cbn [fst snd] in *.
    unfold start_outcome in Hj.
    destruct (stream_url (this w)) as [u|e] eqn:Hu; [|discriminate Hj].
    inversion Hj. split; [reflexivity|]. exists u. split; [reflexivity|].
    destruct (started_frame cb w u Hu) as (Hsrc & _). fold k in Hsrc.
    rewrite Hsrc. reflexivity.
  - exact Hset.
  - intros t Ha. apply (Hset (JStr t) t Ha); reflexivity.
Qed.

Lemma start_url_witness :
  reachable demo_runtime None connected_world /\
  url <$> sources (snd (start (Some 2%nat) (setAccessToken (JStr "t1") connected_world))) !! 1%nat
  = Some "https://events.ownstone.org/sse?accessToken=t1&projectName=crownstone-lib-nodejs-sse-5.0.0-no_project_name" /\
  url <$> sources (snd (start (Some 2%nat)
                          (setAccessToken (JNum (10 ^ 21)) connected_world))) !! 1%nat
  = Some "https://events.ownstone.org/sse?accessToken=1e+21&projectName=crownstone-lib-nodejs-sse-5.0.0-no_project_name".
Proof.
  assert (Hr : reachable demo_runtime None connected_world).
  { exists [call_setAccessToken (JStr "t0"); call_start 1%nat]. vm_compute. reflexivity. }
  assert (Hn : ToString (JNum (10 ^ 21)) = Normal "1e+21") by (vm_compute; reflexivity).
  destruct (start_url demo_runtime None connected_world (Some 2%nat) Hr)
    as (_ & _ & _ & Hany & Hstr).
  split; [exact Hr|]. split.
  - exact (proj1 (Hstr "t1" eq_refl)).
  - exact (proj1 (Hany (JNum (10 ^ 21)) "1e+21" eq_refl eq_refl Hn)).
Defined.


(* ================================================================== *)
(** ** Token refresh: what happens when the second login fails *)
(* ================================================================== *)

(** [retryLogin] is [async]: whatever its body does, its caller gets a
    promise. So the [try] block around [retryLogin()] never throws, and the
    [catch] block of [retryWithNewAccessToken], the one place that would
    deliver the terminal event after a failed login, never runs. *)
Lemma retry_try_block_never_throws (w : World) :
  exists w', (p <- call retryLogin ;; lift (then_restart p)) w = (Normal tt, w').
Proof.
  unfold bind, call. destruct (retryLogin w) as [p w']. unfold lift. eauto.
Qed.

(** The login chain either fails, leaving the world as it was, or stores
    the [id] of the response as the token; which one does not depend on the
    world. *)
Lemma login_chain_cases (r : fetch_result) :
  (exists e, forall w, login_chain r w = (Abrupt e, w)) \/
  (exists id, forall w, login_chain r w = (Normal tt, assign (set_accessToken id) w)).
Proof.
  unfold login_chain, login_then, login_catch. monad.
  destruct r as [e0|result]; [left; exists e0; reflexivity|].
  destruct (loose_eq_number _ 401) as [[|]|e1].
  - left. destruct (get result "error") as [v|e]; eexists; reflexivity.
  - destruct (get result "id") as [v|e].
    + right. exists v. reflexivity.
    + left. exists e. reflexivity.
  - left. exists e1. reflexivity.
Qed.

(** When the login started by the refresh fails, all the session does is
    let the promise reject: the trace gains that rejection and nothing else,
    in particular no call of the event callback. *)
Lemma failed_refresh_is_silent (f : nat) (r : fetch_result) (w : World) (q : Request) (e : thrown) :
  requests w !! f = Some q ->
  awaited_by q = refresh_chain ->
  fst (login_chain r w) = Abrupt e ->
  trace (settle f r w) = (trace w ++ [PromiseRejected e])%list.
Proof.
  intros Hq Ha He. unfold settle. rewrite Hq, Ha.
  destruct (login_chain_cases r) as [[e' H]|[id H]].
  - rewrite H in He. cbn in He. inversion He. subst e'.
    rewrite H. destruct w. reflexivity.
  - rewrite H in He. discriminate He.
Qed.

(** C3, on the code. The hub of [refresh_refused] is told that its token
    has expired while auto-reconnect is on and its credentials are stored;
    the login that follows is refused. The callback has received the
    server's event and nothing after it: no terminal event. The last thing
    in the trace is the rejection of a promise nobody holds; the connection
    is gone, no timer is active and no request is pending, so nothing will
    ever be delivered. *)
Theorem refused_refresh_delivers_no_terminal_event :
  exists w,
    run demo_runtime (new_session demo_runtime None) refresh_refused = Some w /\
    autoreconnect (this w) = true /\
    (if cachedLoginData (this w) is Some _ then true else false) = true /\
    existsb delivers_terminal_event (trace w) = false /\
    List.filter (fun e => if e is Callback _ _ then true else false) (trace w)
      = [Callback 1%nat (system_401 (JStr "TOKEN_EXPIRED"))] /\
    last (trace w)
      = Some (PromiseRejected
                (Thrown (JObj [("statusCode", JNum 401); ("code", JStr "LOGIN_FAILED")]))) /\
    eventSource (this w) = None /\
    existsb active (timers w) = false /\
    existsb pending (requests w) = false.
Proof.
  eexists. split; [vm_compute; reflexivity|].
  vm_compute. repeat split.
Qed.
(* ================================================================== *)
(** ** Stopping *)
(* ================================================================== *)

Lemma cancel_in_inactive (h : option nat) (l : list Timer) (i : nat) (t : Timer) :
  cancel_in h l !! i = Some t ->
  (h = Some i \/ exists t0, l !! i = Some t0 /\ active t0 = false) ->
  active t = false.
Proof.
  intros Ht Hc. destruct h as [j|]; cbn in Ht.
  - destruct (decide (j = i)) as [->|Hne].
    + rewrite list_lookup_alter_eq in Ht.
      destruct (l !! i); cbn in Ht; inversion Ht. reflexivity.
    + rewrite list_lookup_alter_ne in Ht by exact Hne.
      destruct Hc as [Hc|(t0 & Ht0 & Hi)]; [congruence|].
      rewrite Ht0 in Ht. inversion Ht. subst. exact Hi.
  - destruct Hc as [Hc|(t0 & Ht0 & Hi)]; [discriminate|].
    rewrite Ht0 in Ht. inversion Ht. subst. exact Hi.
Qed.

Lemma cancel_in_lookup (h : option nat) (l : list Timer) (i : nat) (t : Timer) :
  cancel_in h l !! i = Some t -> exists t0, l !! i = Some t0.
Proof.
  destruct h as [j|]; cbn; [|eauto].
  destruct (decide (j = i)) as [->|Hne].
  - rewrite list_lookup_alter_eq. destruct (l !! i); cbn; [eauto|discriminate].
  - rewrite list_lookup_alter_ne by exact Hne. eauto.
Qed.

Lemma cleared_timers_inactive (s : CrownstoneSSE) (l : list Timer) (i : nat) (t : Timer) :
  cleared_timers s l !! i = Some t ->
  checkerInterval s = Some i \/ reconnectTimeout s = Some i \/ pingTimeout s = Some i ->
  active t = false.
Proof.
  unfold cleared_timers. intros Ht Hh.
  eapply cancel_in_inactive; [exact Ht|].
  destruct Hh as [Hc|[Hr|Hp]]; [|.. ]; try (left; exact Hp).
  - right. destruct (cancel_in_lookup _ _ _ _ Ht) as [t1 Ht1].
    exists t1. split; [exact Ht1|].
    eapply cancel_in_inactive; [exact Ht1|].
    right. destruct (cancel_in_lookup _ _ _ _ Ht1) as [t2 Ht2].
    exists t2. split; [exact Ht2|].
    eapply cancel_in_inactive; [exact Ht2|]. left. exact Hc.
  - right. destruct (cancel_in_lookup _ _ _ _ Ht) as [t1 Ht1].
    exists t1. split; [exact Ht1|].
    eapply cancel_in_inactive; [exact Ht1|]. left. exact Hr.
Qed.

Lemma closeEventSource_clears (w : World) :
  eventSource (this (closeEventSource w)) = None /\
  autoreconnect (this (closeEventSource w)) = autoreconnect (this w) /\
  handles_cancelled (closeEventSource w).
Proof.
  rewrite closeEventSource_spec.
  destruct (eventSource (this w)) as [id|] eqn:E.
  - split; [reflexivity|]. split; [reflexivity|].
    intros h t Hh Ht. eapply cleared_timers_inactive; [exact Ht|exact Hh].
  - rewrite _clearPendingActions_spec. split; [exact E|]. split; [reflexivity|].
    intros h t Hh Ht. eapply cleared_timers_inactive; [exact Ht|exact Hh].
Qed.

(** What [stop] does achieve, in any world: when it returns the connection
    handle is [null], auto-reconnect is off and the heartbeat, liveness-poll
    and reconnect timers are cancelled. *)
Lemma stop_clears (w : World) :
  eventSource (this (stop w)) = None /\
  autoreconnect (this (stop w)) = false /\
  handles_cancelled (stop w).
Proof.
  unfold stop.
  destruct (closeEventSource_clears (assign (set_autoreconnect false) w)) as (H1 & H2 & H3).
  split; [exact H1|]. split; [|exact H3].
  rewrite H2. destruct w. reflexivity.
Qed.

(** The reconnect after a transport error, by contrast, is stopped: its
    timer is the one behind [reconnectTimeout], and [stop] cancels it. *)
Lemma stop_during_reconnect_delay_holds :
  exists w_error w,
    run demo_runtime (new_session demo_runtime None)
      [call_hubLogin "hub1" "tok1";
       settled 0 (fetch_json (JObj [("id", JStr "T1")]));
       call_start 1%nat; es_open 0; es_error 0 false] = Some w_error /\
    reconnectTimeout (this w_error) = Some 2%nat /\
    (active <$> timers w_error !! 2%nat) = Some true /\
    run demo_runtime (new_session demo_runtime None) stop_during_reconnect_delay = Some w /\
    eventSource (this w) = None /\
    existsb active (timers w) = false /\
    existsb pending (requests w) = false.
Proof.
  eexists. eexists. split; [vm_compute; reflexivity|].
  split; [reflexivity|]. split; [reflexivity|].
  split; [vm_compute; reflexivity|].
  vm_compute. repeat split.
Qed.

(** C2, on the code. The owner calls [stop()] while the login of a token
    refresh is under way. When [stop] returns everything the claim asks for
    holds: no handle, no active timer. Then the login succeeds, the chain of
    [retryWithNewAccessToken] waits its two seconds on a timer that no
    handle refers to, and calls [start]: without any call by the owner the
    session has a new connection. *)
Theorem stop_during_refresh_reopens :
  exists w_stop w,
    run demo_runtime (new_session demo_runtime None) (until_token_expired ++ [call_stop])
      = Some w_stop /\
    eventSource (this w_stop) = None /\
    autoreconnect (this w_stop) = false /\
    existsb active (timers w_stop) = false /\
    existsb opens_connection (trace w_stop)
      = true (* the connection of the first [start] *) /\
    run demo_runtime w_stop
      [settled 1 (fetch_json (JObj [("id", JStr "T2")])); elapse 2000; timer_fired 3]
      = Some w /\
    eventSource (this w) = Some 1%nat /\
    (readyState <$> sources w !! 1%nat) = Some CONNECTING /\
    skipn (length (trace w_stop)) (trace w) =
      [SetTimeout 3 resolve_delay 2000;
       ClearInterval (Some 1%nat); ClearTimeout None; ClearTimeout (Some 2%nat);
       NewEventSource 1
         "https://events.ownstone.org/sse?accessToken=T2&projectName=crownstone-lib-nodejs-sse-5.0.0-no_project_name";
       AddEventListener 1 on_open_event (open_listener 1);
       AddEventListener 1 on_message_event (message_listener 1);
       AddEventListener 1 on_error_event (error_listener 1)].
Proof.
  eexists. eexists. split; [vm_compute; reflexivity|].
  split; [reflexivity|]. split; [reflexivity|]. split; [reflexivity|].
  split; [reflexivity|].
  split; [vm_compute; reflexivity|].
  vm_compute. repeat split.
Qed.

(** The same when [stop()] comes during the two seconds. *)
Lemma stop_during_delay_reopens :
  exists w,
    run demo_runtime (new_session demo_runtime None) stop_during_delay = Some w /\
    autoreconnect (this w) = false /\
    eventSource (this w) = Some 1%nat /\
    (readyState <$> sources w !! 1%nat) = Some CONNECTING.
Proof.
  eexists. split; [vm_compute; reflexivity|]. vm_compute. repeat split.
Qed.
(* ================================================================== *)
(** ** The message listener and the token-expired signal *)
(* ================================================================== *)

(** A [==] against a string throws exactly when the conversion of the
    value to a string does, and what it throws is a TypeError. *)
Lemma loose_eq_string_cases (v : jsval) (s : string) :
  loose_eq_string v s =
  if faults (ToString v) then Abrupt TypeError else Normal (holds (loose_eq_string v s)).
Proof.
  destruct v as [| |b|n|x|l|l]; try reflexivity.
  - destruct b; reflexivity.
  - unfold loose_eq_string.
    destruct (ToString (JArr l)) as [x|e] eqn:E; [reflexivity|].
    rewrite (ToString_thrown _ _ E). reflexivity.
  - unfold loose_eq_string.
    destruct (ToString (JObj l)) as [x|e] eqn:E; [reflexivity|].
    rewrite (ToString_thrown _ _ E). reflexivity.
Qed.


Lemma auth_signal_spec (m : jsval) (sub : string) (w : World) :
  auth_signal m sub w =
  (if unreadable m then Abrupt TypeError else Normal (signals m sub), w).
Proof.
  unfold auth_signal, unreadable, signal_faults, signals. monad.
  destruct m; cbn [get get_opt nullish orb]; try reflexivity.
  - destruct (strict_eq_string _ "system"); [|reflexivity].
    destruct (strict_eq_number _ 401); [|reflexivity].
    cbn [andb]. rewrite loose_eq_string_cases.
    destruct (faults _); reflexivity.
Qed.

Lemma unreadable_signals (m : jsval) (sub : string) :
  unreadable m = true -> signals m sub = false.
Proof.
  unfold unreadable, signal_faults, signals. intros H.
  apply orb_true_iff in H as [H|H].
  - destruct m; try discriminate; reflexivity.
  - apply andb_true_iff in H as [H Hf]. rewrite H. cbn [andb].
    rewrite loose_eq_string_cases, Hf. reflexivity.
Qed.

Lemma nullish_unreadable (m : jsval) : nullish m = true -> unreadable m = true.
Proof. intros H. unfold unreadable. rewrite H. reflexivity. Qed.

Lemma string_eqb_true (a b : string) : String.eqb a b = true -> a = b.
Proof. apply String.eqb_eq. Qed.

(** A value cannot be [==] to both subtypes. *)
Lemma loose_eq_exclusive (v : jsval) :
  holds (loose_eq_string v "TOKEN_EXPIRED") = true ->
  holds (loose_eq_string v "INVALID_ACCESS_TOKEN") = false.
Proof.
  destruct v as [| |b|n|s|l|l]; cbn [loose_eq_string holds]; try discriminate.
  - destruct b; vm_compute; discriminate.
  - change (StringToNumber "TOKEN_EXPIRED") with NaN.
    destruct (NumberOfInteger n); discriminate.
  - intros H. apply string_eqb_true in H. subst s. reflexivity.
  - destruct (ToString (JArr l)) as [x|e]; cbn [holds]; [|discriminate].
    intros H. apply string_eqb_true in H. rewrite H. reflexivity.
  - destruct (ToString (JObj l)) as [x|e]; cbn [holds]; [|discriminate].
    intros H. apply string_eqb_true in H. rewrite H. reflexivity.
Qed.

Lemma signals_exclusive (m : jsval) :
  signals m "TOKEN_EXPIRED" = true -> signals m "INVALID_ACCESS_TOKEN" = false.
Proof.
  unfold signals. intros H.
  apply andb_true_iff in H as [H1 H2]. rewrite H1. cbn [andb].
  apply loose_eq_exclusive, H2.
Qed.

Lemma eventCallback_messageReceived (w : World) :
  eventCallback (this (_messageReceived w)) = eventCallback (this w).
Proof. rewrite _messageReceived_spec. reflexivity. Qed.

Lemma call_eventCallback_spec (m : jsval) (w : World) (cb : callback) :
  eventCallback (this w) = Some cb ->
  call_eventCallback m w = (Normal tt, emit (Callback cb m) w).
Proof. intros H. unfold call_eventCallback. monad. rewrite H. reflexivity. Qed.

(** The listener of a frame with a payload that parses, step by step. *)
Lemma message_listener_unfold (rt : Runtime) (data : string) (m : jsval) (cb : callback) (w : World) :
  truthy (JStr data) = true ->
  JSON_parse rt data = Some m ->
  eventCallback (this w) = Some cb ->
  message_listener_body rt data w =
  if unreadable m then (Abrupt TypeError, delivered cb m w)
  else
    match (if signals m "TOKEN_EXPIRED" then retryWithNewAccessToken else ret tt)
            (delivered cb m w) with
    | (Normal _, w1) =>
        (if signals m "INVALID_ACCESS_TOKEN" then retryWithNewAccessToken else ret tt) w1
    | (Abrupt e, w1) => (Abrupt e, w1)
    end.
Proof.
  intros Hd Hp Hcb. unfold message_listener_body, parse, delivered.
  rewrite Hd, Hp. unfold bind at 1. unfold lift at 1.
  unfold bind at 1. unfold ret at 1.
  unfold bind at 1.
  rewrite (call_eventCallback_spec m (_messageReceived w) cb)
    by (rewrite eventCallback_messageReceived; exact Hcb).
  unfold bind at 1. rewrite auth_signal_spec.
  destruct (unreadable m) eqn:Hn; [reflexivity|].
  unfold bind at 1.
  destruct ((if signals m "TOKEN_EXPIRED" then retryWithNewAccessToken else ret tt)
              (emit (Callback cb m) (_messageReceived w))) as [[u|e] w1]; [|reflexivity].
  unfold bind at 1. rewrite auth_signal_spec, Hn. reflexivity.
Qed.
Lemma delivered_trace (cb : callback) (m : jsval) (w : World) :
  trace (delivered cb m w) =
  (trace w ++ [ClearTimeout (pingTimeout (this w));
               SetTimeout (length (timers w)) ping_expired 40000;
               Callback cb m])%list.
Proof.
  unfold delivered. rewrite _messageReceived_spec. cbn. rewrite <- app_assoc. reflexivity.
Qed.

Lemma signals_strict (m : jsval) (s : string) (sub : string) :
  get_opt m "subType" = JStr s ->
  signals m sub
  = strict_eq_string (get_opt m "type") "system"
    && strict_eq_number (get_opt m "code") 401
    && strict_eq_string (get_opt m "subType") sub.
Proof. intros H. unfold signals. rewrite H. reflexivity. Qed.

Lemma strict_implies_loose (v : jsval) (s : string) :
  strict_eq_string v s = true -> holds (loose_eq_string v s) = true.
Proof. destruct v; try discriminate. intros H. exact H. Qed.

Lemma is_auth_expiry_triggers (m : jsval) :
  is_auth_expiry m = true -> triggers_refresh m = true.
Proof.
  unfold is_auth_expiry, triggers_refresh, signals. intros H.
  apply andb_true_iff in H as [H H3]. rewrite H. cbn [andb].
  apply orb_true_iff in H3 as [H3|H3]; apply strict_implies_loose in H3; rewrite H3;
    [reflexivity | apply orb_true_r].
Qed.

(** C4, as the code has it. A frame whose payload is not empty and parses
    to [m], received while a callback is registered: the heartbeat is bumped
    and [m] is handed to the callback; then, if [m] has [type] ["system"],
    [code] 401 and a [subType] that is [==] to ["TOKEN_EXPIRED"] or to
    ["INVALID_ACCESS_TOKEN"], [retryWithNewAccessToken] runs, once, in the
    world where the callback has already been called; otherwise nothing
    more happens. A frame whose [subType] is a string triggers the refresh
    exactly when it has the shape of the specification; an empty payload or
    one that does not parse never does. When the condition cannot be
    evaluated ([m] is [null], or the [==] on [subType] throws) the listener
    ends with a TypeError once the callback has been called, and does not
    refresh. *)
Theorem message_listener_token_refresh
    (rt : Runtime) (data : string) (m : jsval) (cb : callback) (w : World) :
  truthy (JStr data) = true ->
  JSON_parse rt data = Some m ->
  eventCallback (this w) = Some cb ->
  (triggers_refresh m = true ->
     message_listener_body rt data w = retryWithNewAccessToken (delivered cb m w)) /\
  (triggers_refresh m = false ->
     snd (message_listener_body rt data w) = delivered cb m w) /\
  (is_auth_expiry m = true -> triggers_refresh m = true) /\
  (forall s, get_opt m "subType" = JStr s -> triggers_refresh m = is_auth_expiry m) /\
  trace (delivered cb m w) =
    (trace w ++ [ClearTimeout (pingTimeout (this w));
                 SetTimeout (length (timers w)) ping_expired 40000;
                 Callback cb m])%list /\
  message_listener_body rt "" w = (Normal tt, _messageReceived w) /\
  (forall junk, truthy (JStr junk) = true -> JSON_parse rt junk = None ->
     message_listener_body rt junk w = (Abrupt SyntaxError, _messageReceived w)) /\
  (unreadable m = true ->
     triggers_refresh m = false /\
     message_listener_body rt data w = (Abrupt TypeError, delivered cb m w)) /\
  (unreadable m = false -> triggers_refresh m = false ->
     message_listener_body rt data w = (Normal tt, delivered cb m w)).
Proof.
  intros Hd Hp Hcb.
  pose proof (message_listener_unfold rt data m cb w Hd Hp Hcb) as Hu.
  split; [|split; [|split; [|split; [|split; [|split; [|split; [|split]]]]]]].
  - intros Ht. rewrite Hu.
    destruct (unreadable m) eqn:Hn.
    { unfold triggers_refresh in Ht. rewrite !unreadable_signals in Ht by exact Hn.
      discriminate Ht. }
    unfold triggers_refresh in Ht.
    destruct (signals m "TOKEN_EXPIRED") eqn:H1.
    + rewrite (signals_exclusive m H1).
      destruct (retryWithNewAccessToken (delivered cb m w)) as [[[]|e] w1]; reflexivity.
    + cbn [orb] in Ht. rewrite Ht. reflexivity.
  - intros Ht. rewrite Hu.
    destruct (unreadable m); [reflexivity|].
    unfold triggers_refresh in Ht. apply orb_false_iff in Ht as [H1 H2].
    rewrite H1, H2. reflexivity.
  - apply is_auth_expiry_triggers.
  - intros s Hs. unfold triggers_refresh, is_auth_expiry.
    rewrite !(signals_strict m s) by exact Hs.
    destruct (strict_eq_string (get_opt m "type") "system"); [|reflexivity].
    destruct (strict_eq_number (get_opt m "code") 401); reflexivity.
  - apply delivered_trace.
  - reflexivity.
  - intros junk Hj Hn. unfold message_listener_body, parse. rewrite Hj, Hn. reflexivity.
  - intros Hn. rewrite Hu, Hn. split; [|reflexivity].
    unfold triggers_refresh. rewrite !unreadable_signals by exact Hn. reflexivity.
  - intros Hn Ht. rewrite Hu, Hn.
    unfold triggers_refresh in Ht. apply orb_false_iff in Ht as [H1 H2].
    rewrite H1, H2. reflexivity.
Qed.

Lemma message_listener_token_refresh_witness :
  truthy (JStr token_expired_text) = true /\
  JSON_parse demo_runtime token_expired_text = Some (system_401 (JStr "TOKEN_EXPIRED")) /\
  eventCallback (this streaming_world) = Some 1%nat /\
  message_listener_body demo_runtime token_expired_text streaming_world
  = retryWithNewAccessToken (delivered 1%nat (system_401 (JStr "TOKEN_EXPIRED")) streaming_world).
Proof.
  split; [vm_compute; reflexivity|].
  split; [vm_compute; reflexivity|].
  split; [vm_compute; reflexivity|].
  refine (proj1 (message_listener_token_refresh demo_runtime token_expired_text
                   (system_401 (JStr "TOKEN_EXPIRED")) 1%nat streaming_world _ _ _) _);
    vm_compute; reflexivity.
Defined.

(** C4 as the specification words it fails on a frame whose [subType] is
    the one-element array [["TOKEN_EXPIRED"]]: it does not have the shape,
    its [subType] being no string, yet [["TOKEN_EXPIRED"] == "TOKEN_EXPIRED"]
    holds in JavaScript, and the listener closes the connection and logs in
    again. *)
Lemma wrapped_subtype_triggers_refresh :
  let m := system_401 (JArr [JStr "TOKEN_EXPIRED"]) in
  let after := snd (message_listener_body demo_runtime wrapped_token_expired_text
                      streaming_world) in
  JSON_parse demo_runtime wrapped_token_expired_text = Some m /\
  eventCallback (this streaming_world) = Some 1%nat /\
  is_auth_expiry m = false /\
  after <> delivered 1%nat m streaming_world /\
  eventSource (this streaming_world) = Some 0%nat /\
  eventSource (this after) = None /\
  skipn (length (trace streaming_world)) (trace after) =
    [ClearTimeout (Some 0%nat); SetTimeout 2 ping_expired 40000;
     Callback 1%nat m;
     ClearInterval (Some 1%nat); ClearTimeout None; ClearTimeout (Some 2%nat);
     RemoveEventListener 0 on_open_event (open_listener 0);
     RemoveEventListener 0 on_message_event (message_listener 0);
     RemoveEventListener 0 on_error_event (error_listener 0);
     Close 0;
     Fetch 1 "https://cloud.ownstone.org/api/Hubs/hub1/login?token=tok1" None].
Proof.
  cbv zeta.
  split; [vm_compute; reflexivity|].
  split; [vm_compute; reflexivity|].
  split; [vm_compute; reflexivity|].
  split.
  { intros H. apply (f_equal (fun x => eventSource (this x))) in H.
    vm_compute in H. discriminate H. }
  split; [vm_compute; reflexivity|].
  split; [vm_compute; reflexivity|].
  vm_compute. reflexivity.
Qed.
(* ================================================================== *)
(** ** One heartbeat timer at a time *)
(* ================================================================== *)

Lemma cancel_in_active (h : option nat) (l : list Timer) (i : nat) (t : Timer) :
  cancel_in h l !! i = Some t -> active t = true -> l !! i = Some t /\ h <> Some i.
Proof.
  intros Ht Ha. destruct h as [j|]; cbn in Ht; [|split; [exact Ht|discriminate]].
  destruct (decide (j = i)) as [->|Hne].
  - rewrite list_lookup_alter_eq in Ht.
    destruct (l !! i); cbn in Ht; inversion Ht. subst t. discriminate Ha.
  - rewrite list_lookup_alter_ne in Ht by exact Hne. split; [exact Ht|congruence].
Qed.

Lemma heartbeat_ok_cancel_in (p h : option nat) (l : list Timer) :
  heartbeat_ok p l -> heartbeat_ok p (cancel_in h l).
Proof.
  intros H i t Ht Ha Hh.
  destruct (cancel_in_active h l i t Ht Ha) as [Hl _]. eapply H; eauto.
Qed.

Lemma heartbeat_ok_cleared (p : option nat) (s : CrownstoneSSE) (l : list Timer) :
  heartbeat_ok p l -> heartbeat_ok p (cleared_timers s l).
Proof. intros H. unfold cleared_timers. repeat apply heartbeat_ok_cancel_in. exact H. Qed.

Lemma lookup_snoc {A} (l : list A) (x y : A) (i : nat) :
  (l ++ [x])%list !! i = Some y ->
  (l !! i = Some y) \/ (i = length l /\ y = x).
Proof.
  intros H. destruct (decide (i < length l)%nat) as [Hlt|Hge].
  - rewrite lookup_app_l in H by exact Hlt. left. exact H.
  - rewrite lookup_app_r in H by lia.
    destruct (i - length l)%nat as [|n] eqn:D; cbn in H; [|discriminate].
    inversion H. right. split; [lia|reflexivity].
Qed.

Lemma heartbeat_ok_snoc_other (p : option nat) (l : list Timer) (t : Timer) :
  handler t <> ping_expired -> heartbeat_ok p l -> heartbeat_ok p (l ++ [t])%list.
Proof.
  intros Hn H i t' Ht Ha Hh.
  destruct (lookup_snoc _ _ _ _ Ht) as [Hl|[_ ->]]; [eapply H; eauto | contradiction].
Qed.

(** [_messageReceived]: the old heartbeat timer is off before the new one,
    now the one behind the handle, is on. *)
Lemma heartbeat_ok_bump (p : option nat) (l : list Timer) (n : Z) :
  heartbeat_ok p l ->
  heartbeat_ok (Some (length l)) (cancel_in p l ++ [heartbeat_timer n])%list.
Proof.
  intros H i t Ht Ha Hh.
  destruct (lookup_snoc _ _ _ _ Ht) as [Hl|[Hi ->]].
  - exfalso. destruct (cancel_in_active p l i t Hl Ha) as [Hl' Hne].
    destruct (H i t Hl' Ha Hh) as [Hp _]. contradiction.
  - rewrite length_cancel_in in Hi. subst i. repeat split.
Qed.

Lemma heartbeat_ok_fire (p : option nat) (l : list Timer) (h : nat) (t : Timer) :
  heartbeat_ok p l -> l !! h = Some t -> active t = true ->
  heartbeat_ok p (alter (if repeating t then rearm else deactivate) h l).
Proof.
  intros H Hl Hact i t' Ht Ha Hh.
  destruct (decide (h = i)) as [->|Hne].
  - rewrite list_lookup_alter_eq, Hl in Ht. cbn in Ht. inversion Ht. subst t'. clear Ht.
    destruct (repeating t) eqn:R.
    + cbn in Hh. destruct (H i t Hl Hact Hh) as (_ & R' & _). congruence.
    + discriminate Ha.
  - rewrite list_lookup_alter_ne in Ht by exact Hne. eapply H; eauto.
Qed.

Lemma one_heartbeat_prepared (cb : option callback) (w : World) :
  one_heartbeat w -> one_heartbeat (prepared cb w).
Proof.
  intros H. unfold one_heartbeat in *.
  destruct (eventSource (this w)) as [old|] eqn:E.
  - rewrite (prepared_with_handle cb w old E).
    cbn [this timers pingTimeout set_eventSource set_eventCallback].
    repeat apply heartbeat_ok_cleared. exact H.
  - rewrite (prepared_without_handle cb w E).
    cbn [this timers pingTimeout set_eventSource set_eventCallback].
    apply heartbeat_ok_cleared. exact H.
Qed.

Lemma one_heartbeat_start (cb : option callback) : keeps one_heartbeat (start cb).
Proof.
  intros w H. rewrite start_spec.
  destruct (refuses w); [exact H|].
  cbn [snd]. pose proof (one_heartbeat_prepared cb w H) as Hp.
  unfold one_heartbeat in *.
  destruct (started_view cb w) as (Ht & _ & _ & Hping & _).
  rewrite Ht, Hping. exact Hp.
Qed.

Lemma one_heartbeat_closeEventSource : stable one_heartbeat closeEventSource.
Proof.
  intros w H. unfold one_heartbeat in *. rewrite closeEventSource_spec.
  destruct (eventSource (this w)) as [id|].
  - cbn [this timers pingTimeout set_eventSource]. apply heartbeat_ok_cleared, H.
  - rewrite _clearPendingActions_spec. cbn [this timers]. apply heartbeat_ok_cleared, H.
Qed.

(** In every reachable world at most one heartbeat timer is pending: the
    one [pingTimeout] refers to, a single-shot timer of 40 seconds. *)
Lemma one_heartbeat_reachable (rt : Runtime) (options : option sseOptions) (w : World) :
  reachable rt options w -> one_heartbeat w.
Proof.
  apply P_reachable.
  - intros e. by_computing.
  - intros v. by_computing.
  - intros v. by_computing.
  - intros v. by_computing.
  - intros v. by_computing.
  - intros v. by_computing.
  - intros h w0 H. destruct w0. apply heartbeat_ok_cancel_in. exact H.
  - intros f ms Hf w0 H. destruct w0. apply heartbeat_ok_snoc_other; [exact Hf|exact H].
  - intros f ms Hf w0 H. destruct w0. apply heartbeat_ok_snoc_other; [exact Hf|exact H].
  - intros v. by_computing.
  - intros w0 H. unfold one_heartbeat. rewrite _messageReceived_spec.
    cbn [this timers pingTimeout set_pingTimeout]. apply heartbeat_ok_bump, H.
  - apply one_heartbeat_closeEventSource.
  - apply one_heartbeat_start.
  - intros t. by_computing.
  - intros w0 id es r H _ _. destruct w0. exact H.
  - intros w0 h t H Hl Ha. destruct w0. cbn in *. apply heartbeat_ok_fire; assumption.
  - intros h t Hl. discriminate Hl.
Qed.
(* ================================================================== *)
(** ** The heartbeat deadline *)
(* ================================================================== *)

Lemma ping_expired_spec (w : World) :
  ping_expired_body w =
  (Normal tt, if eventCallback (this w) is Some _ then restart w else w).
Proof.
  unfold ping_expired_body. monad. destruct (eventCallback (this w)); reflexivity.
Qed.

(** The heartbeat timer firing is [start] with the stored callback. *)
Lemma fire_heartbeat (rt : Runtime) (h : nat) (t : Timer) (w : World) (cb : callback) :
  handler t = ping_expired -> repeating t = false ->
  eventCallback (this w) = Some cb ->
  fire rt h t w = drop (start (Some cb) (spent h w)).
Proof.
  intros Hh Hr Hcb. unfold fire, run_handler. rewrite Hh, Hr. cbn [invoke].
  rewrite ping_expired_spec.
  assert (E : eventCallback (this (with_timers (alter deactivate h (timers w)) w)) = Some cb)
    by (destruct w; exact Hcb).
  rewrite E. unfold restart. rewrite E. reflexivity.
Qed.

Lemma open_listener_spec (k : nat) (w : World) :
  open_listener_body k w =
  (Normal tt,
   {| this := set_checkerInterval (Some (S (length (timers w))))
                (set_pingTimeout (Some (length (timers w))) (this w));
      sources := sources w;
      timers := (cancel_in (pingTimeout (this w)) (timers w)
                 ++ [heartbeat_timer (now w)])
                ++ [{| repeating := true; handler := checker_tick; delay := 1000;
                       due := now w + 1000; active := true |}];
      requests := requests w;
      now := now w;
      trace := trace w ++
        [ClearTimeout (pingTimeout (this w));
         SetTimeout (length (timers w)) ping_expired 40000;
         SetInterval (S (length (timers w))) checker_tick 1000;
         StartResolved k] |}).
Proof.
  unfold open_listener_body. unfold bind at 1. unfold lift at 1.
  rewrite _messageReceived_spec.
  destruct w as [s srcs tms reqs n tr]. monad. unfold set_Interval, emit, assign.
  cbn. rewrite length_app, length_cancel_in, <- !app_assoc. cbn.
  rewrite Nat.add_1_r. reflexivity.
Qed.
Lemma forallb_lookup {A} (P : A -> bool) (l : list A) :
  forallb P l = true <-> forall i x, l !! i = Some x -> P x = true.
Proof.
  rewrite forallb_forall. split.
  - intros H i x Hl. apply H. apply list_elem_of_In. eapply list_elem_of_lookup_2, Hl.
  - intros H x Hin. apply list_elem_of_In, list_elem_of_lookup_1 in Hin as [i Hi]. eauto.
Qed.

Lemma forallb_cancel_in (P : Timer -> bool) (h : option nat) (l : list Timer) :
  (forall t, P (deactivate t) = true) ->
  forallb P l = true -> forallb P (cancel_in h l) = true.
Proof.
  intros Hd H. rewrite forallb_lookup in *. intros i t Ht.
  destruct h as [j|]; cbn in Ht; [|eauto].
  destruct (decide (j = i)) as [->|Hne].
  - rewrite list_lookup_alter_eq in Ht.
    destruct (l !! i); cbn in Ht; inversion Ht. apply Hd.
  - rewrite list_lookup_alter_ne in Ht by exact Hne. eauto.
Qed.

Lemma forallb_cleared (P : Timer -> bool) (s : CrownstoneSSE) (l : list Timer) :
  (forall t, P (deactivate t) = true) ->
  forallb P l = true -> forallb P (cleared_timers s l) = true.
Proof.
  intros Hd H. unfold cleared_timers. repeat apply forallb_cancel_in; assumption.
Qed.

(** The retry path always ends without a connection. *)
Lemma call_eventCallback_frame (v : jsval) (w : World) :
  this (snd (call_eventCallback v w)) = this w /\
  sources (snd (call_eventCallback v w)) = sources w.
Proof.
  unfold call_eventCallback. monad. destruct w as [s srcs tms reqs n tr]. cbn.
  destruct (eventCallback s); split; reflexivity.
Qed.

Lemma retryLogin_eventSource (w : World) :
  eventSource (this (snd (retryLogin w))) = eventSource (this w).
Proof.
  rewrite retryLogin_unfold.
  destruct (cachedLoginData (this w)) as [d|]; [|reflexivity].
  destruct (hub d) as [h|].
  - rewrite hubLogin_spec. reflexivity.
  - destruct (user d) as [u|]; [|reflexivity].
    rewrite loginHashed_spec. reflexivity.
Qed.

Lemma then_restart_this (p : promise) (w : World) : this (then_restart p w) = this w.
Proof. destruct p, w; reflexivity. Qed.

Lemma retry_closes (w : World) :
  eventSource (this (snd (retryWithNewAccessToken w))) = None.
Proof.
  destruct (closeEventSource_clears w) as (Hc & _).
  unfold retryWithNewAccessToken. unfold bind at 1. unfold lift at 1.
  generalize dependent (closeEventSource w). intros w1 Hc.
  unfold bind at 1. unfold gets at 1.
  destruct (autoreconnect (this w1) && _).
  - unfold try_catch, bind, call, lift.
    pose proof (retryLogin_eventSource w1) as Hr.
    destruct (retryLogin w1) as [p w2]. cbn [snd] in *.
    rewrite then_restart_this. congruence.
  - destruct (call_eventCallback_frame
                (errorEvent "Token expired, autoconnect is disabled or does not have login credentials. Connection closed.") w1)
      as [Ht _].
    rewrite Ht. exact Hc.
Qed.

(** What the message listener leaves: the world after the heartbeat bump,
    or, through the retry path, a world without connection. *)
Lemma message_listener_bumped_or_closed (rt : Runtime) (data : string) (w : World) :
  bumped w (snd (message_listener_body rt data w)) \/
  eventSource (this (snd (message_listener_body rt data w))) = None.
Proof.
  assert (Hb : bumped w (_messageReceived w)).
  { rewrite _messageReceived_spec. repeat split. }
  assert (Hd : forall cb m, bumped w (delivered cb m w)).
  { intros cb m. unfold delivered. rewrite _messageReceived_spec. repeat split. }
  destruct (truthy (JStr data)) eqn:Ht.
  2:{ left. unfold message_listener_body. rewrite Ht. exact Hb. }
  destruct (JSON_parse rt data) as [m|] eqn:Hp.
  2:{ left. unfold message_listener_body, parse. rewrite Ht, Hp. exact Hb. }
  destruct (eventCallback (this w)) as [cb|] eqn:Hcb.
  2:{ left. unfold message_listener_body, parse. rewrite Ht, Hp.
      unfold bind at 1. unfold lift at 1. unfold bind at 1. unfold ret at 1.
      unfold bind at 1. unfold call_eventCallback. unfold bind at 1. unfold gets at 1.
      rewrite eventCallback_messageReceived, Hcb. exact Hb. }
  rewrite (message_listener_unfold rt data m cb w Ht Hp Hcb).
  destruct (unreadable m); [left; apply Hd|].
  destruct (signals m "TOKEN_EXPIRED").
  - right. pose proof (retry_closes (delivered cb m w)) as Hc.
    destruct (retryWithNewAccessToken (delivered cb m w)) as [[u|e] w1]; cbn [snd] in *;
      [|exact Hc].
    destruct (signals m "INVALID_ACCESS_TOKEN"); [apply retry_closes|exact Hc].
  - unfold ret at 1. destruct (signals m "INVALID_ACCESS_TOKEN").
    + right. apply retry_closes.
    + left. apply Hd.
Qed.
(** [connection_up], [only_watchdogs] and [deadline] look at the session,
    the connections and the timers only. *)
Lemma watch_view (w w' : World) :
  this w' = this w -> sources w' = sources w -> timers w' = timers w ->
  connection_up w' = connection_up w /\
  only_watchdogs w' = only_watchdogs w /\
  deadline w' = deadline w /\
  (one_heartbeat w <-> one_heartbeat w').
Proof.
  intros Hs Hc Ht. unfold connection_up, only_watchdogs, deadline, one_heartbeat.
  rewrite Hs, Hc, Ht. split; [reflexivity|]. split; [reflexivity|].
  split; [reflexivity|]. split; intros H; exact H.
Qed.

Lemma only_watchdogs_deactivate (t : Timer) :
  negb (active (deactivate t)) || is_heartbeat (deactivate t)
  || is_liveness_poll (deactivate t) = true.
Proof. reflexivity. Qed.

(** After the bump the deadline is 40 s from now, and the world is as
    watched as before. *)
Lemma bumped_armed (w w' : World) :
  bumped w w' -> connection_up w = true -> only_watchdogs w = true ->
  connection_up w' = true /\ only_watchdogs w' = true /\
  deadline w' = Some (now w + 40000).
Proof.
  intros (Hs & Hc & Ht & Hn) Hup Hwd.
  split; [|split].
  - unfold connection_up in *. rewrite Hs, Hc. exact Hup.
  - unfold only_watchdogs in *. rewrite Ht, forallb_app. apply andb_true_iff. split.
    + apply forallb_cancel_in; [apply only_watchdogs_deactivate | exact Hwd].
    + reflexivity.
  - unfold deadline. rewrite Hs, Ht. cbn [pingTimeout set_pingTimeout].
    rewrite lookup_app_r by (rewrite length_cancel_in; lia).
    rewrite length_cancel_in, Nat.sub_diag. reflexivity.
Qed.

(** The transport delivers a frame of the current connection to the
    message listener of the session, and to nothing else. *)
Lemma step_message (rt : Runtime) (options : option sseOptions)
    (w w' : World) (id : nat) (data : string) :
  reachable rt options w ->
  step rt w (es_message id data) = Some w' ->
  eventSource (this w) = Some id /\
  w' = run_handler rt data w (message_listener id).
Proof.
  intros Hr Hs. cbn [step] in Hs.
  destruct (sources w !! id) as [es|] eqn:E; [|discriminate].
  destruct (readyState es =? OPEN) eqn:R; [|discriminate].
  apply Z.eqb_eq in R.
  assert (Hid : eventSource (this w) = Some id).
  { apply (live_connection_is_current w id es (one_connection_reachable rt options w Hr) E).
    rewrite R. discriminate. }
  split; [exact Hid|].
  destruct (one_connection_reachable rt options w Hr) as [_ H2].
  destruct (H2 id Hid) as (es' & E' & _ & _ & Hm & _).
  rewrite E in E'. inversion E'. subst es'.
  inversion Hs. unfold dispatch. rewrite E. cbn [listeners_for]. rewrite Hm. reflexivity.
Qed.

Lemma run_handler_view (rt : Runtime) (data : string) (w : World) (f : closure) :
  let w1 := snd (invoke rt f data w) in
  this (run_handler rt data w f) = this w1 /\
  sources (run_handler rt data w f) = sources w1 /\
  timers (run_handler rt data w f) = timers w1 /\
  now (run_handler rt data w f) = now w1.
Proof.
  unfold run_handler. destruct (invoke rt f data w) as [[u|e] w1]; cbn [snd].
  - auto.
  - destruct w1. repeat split.
Qed.
Lemma extends_emit (T : list Effect) (e : Effect) : stable (extends T) (emit e).
Proof.
  intros w [more H]. exists (more ++ [e])%list.
  destruct w as [s srcs tms reqs n tr]. cbn in *. rewrite H, app_assoc. reflexivity.
Qed.

Lemma extends_closeEventSource (T : list Effect) : stable (extends T) closeEventSource.
Proof.
  intros w [more H]. rewrite closeEventSource_spec.
  destruct (eventSource (this w)).
  - eexists. cbn [trace]. rewrite H, <- app_assoc. reflexivity.
  - rewrite _clearPendingActions_spec. eexists. cbn [trace].
    rewrite H, <- app_assoc. reflexivity.
Qed.

Lemma extends_retry (T : list Effect) : keeps (extends T) retryWithNewAccessToken.
Proof.
  apply P_retryWithNewAccessToken.
  - apply extends_emit.
  - intros v. by_computing.
  - intros v. by_computing.
  - apply extends_closeEventSource.
Qed.

(** Whatever the frame carries, the first thing the message listener does
    is to cancel the pending heartbeat timer and to set a new one. *)
Lemma message_listener_rearms_first (rt : Runtime) (data : string) (w : World) :
  extends (trace w ++ [ClearTimeout (pingTimeout (this w));
                       SetTimeout (length (timers w)) ping_expired 40000])
          (snd (message_listener_body rt data w)).
Proof.
  set (T := (trace w ++ _)%list).
  assert (Hb : extends T (_messageReceived w)).
  { exists []. rewrite _messageReceived_spec, app_nil_r. reflexivity. }
  assert (Hd : forall cb m, extends T (delivered cb m w)).
  { intros cb m. apply extends_emit, Hb. }
  destruct (truthy (JStr data)) eqn:Ht.
  2:{ unfold message_listener_body. rewrite Ht. exact Hb. }
  destruct (JSON_parse rt data) as [m|] eqn:Hp.
  2:{ unfold message_listener_body, parse. rewrite Ht, Hp. exact Hb. }
  destruct (eventCallback (this w)) as [cb|] eqn:Hcb.
  2:{ unfold message_listener_body, parse. rewrite Ht, Hp.
      unfold bind at 1. unfold lift at 1. unfold bind at 1. unfold ret at 1.
      unfold bind at 1. unfold call_eventCallback. unfold bind at 1. unfold gets at 1.
      rewrite eventCallback_messageReceived, Hcb. exact Hb. }
  rewrite (message_listener_unfold rt data m cb w Ht Hp Hcb).
  destruct (unreadable m); [apply Hd|].
  destruct (signals m "TOKEN_EXPIRED").
  - pose proof (extends_retry T (delivered cb m w) (Hd cb m)) as Hc.
    destruct (retryWithNewAccessToken (delivered cb m w)) as [[u|e] w1]; cbn [snd] in *;
      [|exact Hc].
    destruct (signals m "INVALID_ACCESS_TOKEN"); [apply extends_retry, Hc|exact Hc].
  - unfold ret at 1. destruct (signals m "INVALID_ACCESS_TOKEN").
    + apply extends_retry, Hd.
    + apply Hd.
Qed.

(** A frame that does not end in the retry path leaves the heartbeat
    timer pending for 40 s after its arrival. *)
Lemma message_rearms (rt : Runtime) (options : option sseOptions)
    (w w' : World) (id : nat) (data : string) :
  reachable rt options w ->
  step rt w (es_message id data) = Some w' ->
  connection_up w = true -> only_watchdogs w = true -> connection_up w' = true ->
  armed w' (now w + 40000) /\ now w' = now w.
Proof.
  intros Hr Hs Hup Hwd Hup'.
  assert (Hone : one_heartbeat w') by (eapply one_heartbeat_reachable, reachable_step; eauto).
  destruct (step_message rt options w w' id data Hr Hs) as [_ ->].
  destruct (run_handler_view rt data w (message_listener id)) as (Ht & Hc & Hm & Hnow).
  cbn [invoke] in *.
  set (w1 := snd (message_listener_body rt data w)) in *.
  assert (Hv : connection_up (run_handler rt data w (message_listener id)) = connection_up w1 /\
               only_watchdogs (run_handler rt data w (message_listener id)) = only_watchdogs w1 /\
               deadline (run_handler rt data w (message_listener id)) = deadline w1).
  { destruct (watch_view w1 _ Ht Hc Hm) as (H1 & H2 & H3 & _). auto. }
  destruct Hv as (V1 & V2 & V3).
  destruct (message_listener_bumped_or_closed rt data w) as [Hb|Hn]; fold w1 in Hb || fold w1 in Hn.
  - destruct (bumped_armed w w1 Hb Hup Hwd) as (B1 & B2 & B3).
    split; [|destruct Hb as (_ & _ & _ & Hn); congruence].
    split; [exact Hup'|]. split; [congruence|]. split; [congruence|exact Hone].
  - exfalso. rewrite V1 in Hup'. unfold connection_up in Hup'. rewrite Hn in Hup'.
    discriminate Hup'.
Qed.
(* ================================================================== *)
(** ** Silence *)
(* ================================================================== *)

Lemma is_closed_test {A} (z : Z) (a b : A) :
  (if Some z is Some 2 then a else b) = if z =? CLOSED then a else b.
Proof. destruct z as [|[[]|[]|]|]; reflexivity. Qed.

(** While the transport does not report "closed", a tick of the liveness
    poll does nothing. *)
Lemma checker_tick_idle (w : World) :
  connection_up w = true -> checker_tick_body w = (Normal tt, w).
Proof.
  unfold connection_up, checker_tick_body. monad.
  destruct (eventSource (this w)) as [id|]; [|discriminate].
  destruct (sources w !! id) as [es|]; [|discriminate].
  cbn [fmap option_fmap option_map]. rewrite is_closed_test.
  destruct (readyState es =? CLOSED); [discriminate|reflexivity].
Qed.

Lemma connection_up_view (w w' : World) :
  this w' = this w -> sources w' = sources w -> connection_up w' = connection_up w.
Proof. intros Hs Hc. unfold connection_up. rewrite Hs, Hc. reflexivity. Qed.

Lemma fire_poll (rt : Runtime) (h : nat) (t : Timer) (w : World) :
  handler t = checker_tick -> connection_up w = true ->
  fire rt h t w
  = with_timers (alter (if repeating t then rearm else deactivate) h (timers w)) w.
Proof.
  intros Hh Hup. unfold fire, run_handler. rewrite Hh. cbn [invoke].
  rewrite checker_tick_idle; [reflexivity|].
  rewrite <- Hup. apply connection_up_view; destruct w; reflexivity.
Qed.

Lemma is_heartbeat_handler (t : Timer) : is_heartbeat t = true <-> handler t = ping_expired.
Proof. unfold is_heartbeat. destruct (handler t); split; congruence. Qed.

Lemma is_liveness_poll_handler (t : Timer) :
  is_liveness_poll t = true <-> handler t = checker_tick.
Proof. unfold is_liveness_poll. destruct (handler t); split; congruence. Qed.

Lemma quiet_view (w w' : World) :
  this w' = this w -> sources w' = sources w -> timers w' = timers w ->
  quiet w -> quiet w'.
Proof.
  intros Hs Hc Ht [H1 H2]. split.
  - rewrite (connection_up_view w w' Hs Hc), Hs. exact H1.
  - rewrite Ht. exact H2.
Qed.

Lemma prepared_timers (P : Timer -> bool) (cb : option callback) (w : World) :
  (forall t, P (deactivate t) = true) ->
  forallb P (timers w) = true -> forallb P (timers (prepared cb w)) = true.
Proof.
  intros Hd H. destruct (eventSource (this w)) as [old|] eqn:E.
  - rewrite (prepared_with_handle cb w old E). cbn [timers].
    repeat apply forallb_cleared; assumption.
  - rewrite (prepared_without_handle cb w E). cbn [timers].
    apply forallb_cleared; assumption.
Qed.

Lemma started_quiet (cb : option callback) (w : World) :
  forallb (fun t => negb (active t) || is_liveness_poll t) (timers w) = true ->
  quiet (started cb w).
Proof.
  intros H. split.
  - destruct (stream_url (this w)) as [u|e] eqn:Hu.
    + left. destruct (started_frame cb w u Hu) as (Hsrc & He & _).
      unfold connection_up. rewrite He, Hsrc. reflexivity.
    + right. rewrite (started_thrown cb w e Hu).
      destruct (prepared_frame cb w) as (_ & _ & _ & _ & Hn). exact Hn.
  - destruct (started_view cb w) as (Ht & _). rewrite Ht.
    apply prepared_timers; [reflexivity|exact H].
Qed.

Lemma restart_quiet (w : World) : quiet w -> quiet (restart w).
Proof.
  intros Hq. unfold restart. rewrite start_spec.
  destruct (refuses w).
  - cbn [drop]. eapply quiet_view; [| | |exact Hq]; destruct w; reflexivity.
  - pose proof (started_quiet (eventCallback (this w)) w (proj2 Hq)) as Hs.
    destruct (start_outcome w); cbn [drop]; exact Hs.
Qed.

(** A tick of the liveness poll in a quiet world leaves it quiet. *)
Lemma quiet_alter (w : World) (h : nat) (t : Timer) :
  quiet w -> timers w !! h = Some t -> active t = true ->
  quiet (with_timers (alter (if repeating t then rearm else deactivate) h (timers w)) w).
Proof.
  intros [H1 H2] Hl Ha. split.
  - destruct H1 as [H1|H1]; [left|right; destruct w; exact H1].
    rewrite <- H1. apply connection_up_view; destruct w; reflexivity.
  - destruct w as [s srcs tms reqs n tr]. cbn in *.
    rewrite forallb_lookup in *. intros i x Hx.
    destruct (decide (h = i)) as [->|Hne].
    + rewrite list_lookup_alter_eq, Hl in Hx. cbn in Hx. inversion Hx.
      pose proof (H2 i t Hl) as Ht. rewrite Ha in Ht. cbn [negb orb] in Ht.
      destruct (repeating t); [|reflexivity].
      unfold is_liveness_poll in *. cbn. exact Ht.
    + rewrite list_lookup_alter_ne in Hx by exact Hne. eauto.
Qed.

Lemma quiet_poll_only (w : World) (h : nat) (t : Timer) :
  quiet w -> timers w !! h = Some t -> active t = true ->
  handler t = checker_tick /\ is_heartbeat t = false.
Proof.
  intros [_ H2] Hl Ha. rewrite forallb_lookup in H2.
  pose proof (H2 h t Hl) as Ht. rewrite Ha in Ht. cbn [negb orb] in Ht.
  apply is_liveness_poll_handler in Ht. split; [exact Ht|].
  unfold is_heartbeat. rewrite Ht. reflexivity.
Qed.

(** Without a connection the tick reads [readyState] of [null]. *)
Lemma fire_poll_without_connection (rt : Runtime) (h : nat) (t : Timer) (w : World) :
  handler t = checker_tick -> eventSource (this w) = None ->
  fire rt h t w
  = emit (Uncaught TypeError)
      (with_timers (alter (if repeating t then rearm else deactivate) h (timers w)) w).
Proof.
  intros Hh Hn. unfold fire, run_handler. rewrite Hh. cbn [invoke].
  unfold checker_tick_body. monad. cbn [this with_timers eventSource].
  rewrite Hn. reflexivity.
Qed.

(** In a quiet world a timer that fires is the liveness poll, which leaves
    the world quiet and the clock where it was. *)
Lemma quiet_fire (rt : Runtime) (w : World) (h : nat) (t : Timer) :
  quiet w -> timers w !! h = Some t -> active t = true ->
  is_heartbeat t = false /\ quiet (fire rt h t w) /\ now (fire rt h t w) = now w.
Proof.
  intros Hq Hl Ha.
  destruct (quiet_poll_only w h t Hq Hl Ha) as [Hh Hb].
  pose proof (quiet_alter w h t Hq Hl Ha) as Hq'.
  split; [exact Hb|].
  destruct (proj1 Hq) as [Hup|Hnone].
  - rewrite (fire_poll rt h t w Hh Hup). split; [exact Hq'|destruct w; reflexivity].
  - rewrite (fire_poll_without_connection rt h t w Hh Hnone).
    split; [|destruct w; reflexivity].
    eapply quiet_view; [| | |exact Hq']; reflexivity.
Qed.

(** Once the heartbeat has fired, silence brings no second firing. *)
Lemma quiet_silence (rt : Runtime) (es : list event) :
  forall w, quiet w -> silence es = true -> heartbeats_fired rt w es = 0%nat.
Proof.
  induction es as [|e es IH]; intros w Hq Hs; [reflexivity|].
  cbn [silence forallb] in Hs. apply andb_true_iff in Hs as [He Hs].
  cbn [heartbeats_fired].
  destruct e; try discriminate He; cbn [step].
  - destruct (timers w !! h) as [t|] eqn:Hl; [|reflexivity].
    destruct (active t) eqn:Ha; [|reflexivity].
    destruct (due t <=? now w); [|reflexivity]. cbn [andb].
    destruct (quiet_fire rt w h t Hq Hl Ha) as (Hb & Hq' & _). rewrite Hb.
    rewrite IH; [reflexivity|exact Hq'|exact Hs].
  - destruct (_ && _); [|reflexivity].
    rewrite IH; [reflexivity| |exact Hs].
    eapply quiet_view; [| | |exact Hq]; destruct w; reflexivity.
Qed.
Lemma armed_timer (w : World) (T : Z) :
  armed w T ->
  exists h t, pingTimeout (this w) = Some h /\ timers w !! h = Some t /\
    active t = true /\ handler t = ping_expired /\ repeating t = false /\ due t = T.
Proof.
  intros (_ & _ & Hd & Hone). unfold deadline in Hd.
  destruct (pingTimeout (this w)) as [h|] eqn:Hp; [|discriminate].
  destruct (timers w !! h) as [t|] eqn:Hl; [|discriminate].
  destruct (active t) eqn:Ha; [|discriminate].
  destruct (is_heartbeat t) eqn:Hb; [|discriminate].
  cbn in Hd. inversion Hd. apply is_heartbeat_handler in Hb.
  destruct (Hone h t Hl Ha Hb) as (_ & Hr & _).
  exists h, t. auto 10.
Qed.

(** Time does not pass the deadline while the heartbeat timer is pending. *)
Lemma armed_elapse (w : World) (T ms : Z) :
  armed w T -> nothing_due_before (now w + ms) w = true ->
  armed (with_now (now w + ms) w) T /\ now w + ms <= T.
Proof.
  intros Ha Hn. split.
  - destruct Ha as (H1 & H2 & H3 & H4).
    destruct (watch_view w (with_now (now w + ms) w)) as (V1 & V2 & V3 & V4);
      try (destruct w; reflexivity).
    split; [congruence|]. split; [congruence|]. split; [congruence|]. apply V4, H4.
  - destruct (armed_timer w T Ha) as (h & t & _ & Hl & Hact & _ & _ & Hdue).
    unfold nothing_due_before in Hn. rewrite forallb_lookup in Hn.
    pose proof (Hn h t Hl) as Ht. rewrite Hact, Hdue in Ht. cbn in Ht.
    apply Z.leb_le in Ht. exact Ht.
Qed.

(** The heartbeat timer fires: what is left is quiet. *)
Lemma armed_heartbeat_fires (rt : Runtime) (w : World) (T : Z) (h : nat) (t : Timer) :
  armed w T -> timers w !! h = Some t -> active t = true -> is_heartbeat t = true ->
  quiet (fire rt h t w).
Proof.
  intros (Hup & Hwd & _ & Hone) Hl Ha Hb.
  apply is_heartbeat_handler in Hb.
  destruct (Hone h t Hl Ha Hb) as (_ & Hr & _).
  assert (Hq : quiet (with_timers (alter deactivate h (timers w)) w)).
  { split.
    - left. rewrite <- Hup. apply connection_up_view; destruct w; reflexivity.
    - unfold only_watchdogs in Hwd. unfold one_heartbeat in Hone.
      destruct w as [s srcs tms reqs n tr]. cbn in *.
      rewrite forallb_lookup in *. intros i x Hx.
      destruct (decide (h = i)) as [->|Hne].
      + rewrite list_lookup_alter_eq, Hl in Hx. cbn in Hx. inversion Hx. reflexivity.
      + rewrite list_lookup_alter_ne in Hx by exact Hne.
        pose proof (Hwd i x Hx) as Hp.
        destruct (active x) eqn:Hax; [|reflexivity]. cbn [negb orb] in *.
        destruct (is_heartbeat x) eqn:Hbx; [|exact Hp].
        exfalso. apply is_heartbeat_handler in Hbx.
        destruct (Hone i x Hx Hax Hbx) as (Hpi & _).
        destruct (Hone h t Hl Ha Hb) as (Hph & _). congruence. }
  unfold fire, run_handler. rewrite Hr, Hb. cbn [invoke]. rewrite ping_expired_spec.
  destruct (eventCallback _); [apply restart_quiet, Hq | exact Hq].
Qed.

(** The liveness poll ticks: the heartbeat timer stays as it is. *)
Lemma armed_poll_fires (rt : Runtime) (w : World) (T : Z) (h : nat) (t : Timer) :
  armed w T -> timers w !! h = Some t -> active t = true -> is_heartbeat t = false ->
  armed (fire rt h t w) T /\ now (fire rt h t w) = now w.
Proof.
  intros Harm Hl Ha Hb.
  destruct (armed_timer w T Harm) as (hp & tp & Hp & Hlp & Hap & Hhp & _ & Hdue).
  destruct Harm as (Hup & Hwd & Hd & Hone).
  assert (Hpoll : handler t = checker_tick).
  { unfold only_watchdogs in Hwd. rewrite forallb_lookup in Hwd.
    pose proof (Hwd h t Hl) as Hx. rewrite Ha, Hb in Hx. cbn in Hx.
    apply is_liveness_poll_handler, Hx. }
  assert (Hne : h <> hp).
  { intros ->. rewrite Hl in Hlp. inversion Hlp. subst tp.
    apply is_heartbeat_handler in Hhp. congruence. }
  rewrite (fire_poll rt h t w Hpoll Hup).
  split; [|destruct w; reflexivity].
  split; [|split; [|split]].
  - rewrite <- Hup. apply connection_up_view; destruct w; reflexivity.
  - unfold only_watchdogs in *. destruct w as [s srcs tms reqs n tr]. cbn in *.
    rewrite forallb_lookup in *. intros i x Hx.
    destruct (decide (h = i)) as [->|Hni].
    + rewrite list_lookup_alter_eq, Hl in Hx. cbn in Hx. inversion Hx.
      apply is_liveness_poll_handler in Hpoll.
      destruct (repeating t); [|reflexivity].
      unfold is_liveness_poll, is_heartbeat in *. cbn. rewrite Hpoll.
      apply orb_true_r.
    + rewrite list_lookup_alter_ne in Hx by exact Hni. eauto.
  - unfold deadline in *. destruct w as [s srcs tms reqs n tr]. cbn in *.
    rewrite Hp in *. rewrite list_lookup_alter_ne by exact Hne. exact Hd.
  - unfold one_heartbeat in *. destruct w as [s srcs tms reqs n tr]. cbn in *.
    apply heartbeat_ok_fire; assumption.
Qed.

(** From a world whose heartbeat timer is pending for [T], a run made of
    timers and passing time only either stays at or before [T] with the
    timer still pending, or has seen it fire exactly once. *)
Lemma armed_silence (rt : Runtime) (es : list event) :
  forall w w' T,
    armed w T -> now w <= T -> silence es = true -> run rt w es = Some w' ->
    heartbeats_fired rt w es = 1%nat \/
    (heartbeats_fired rt w es = 0%nat /\ now w' <= T).
Proof.
  induction es as [|e es IH]; intros w w' T Ha Hn Hs Hr.
  - right. cbn in Hr. inversion Hr. subst w'. split; [reflexivity|exact Hn].
  - cbn [silence forallb] in Hs. apply andb_true_iff in Hs as [He Hs].
    cbn [run] in Hr. cbn [heartbeats_fired].
    destruct e; try discriminate He; cbn [step] in *.
    + destruct (timers w !! h) as [t|] eqn:Hl; [|discriminate].
      destruct (active t) eqn:Hact; [|discriminate].
      destruct (due t <=? now w); [|discriminate]. cbn [andb] in *.
      destruct (is_heartbeat t) eqn:Hb.
      * left. rewrite (quiet_silence rt es _ (armed_heartbeat_fires rt w T h t Ha Hl Hact Hb) Hs).
        reflexivity.
      * destruct (armed_poll_fires rt w T h t Ha Hl Hact Hb) as [Ha' Hn'].
        apply (IH _ w' T Ha'); [rewrite Hn'; exact Hn | exact Hs | exact Hr].
    + destruct (0 <? ms) eqn:Hpos; [|discriminate]. cbn [andb] in *.
      destruct (nothing_due_before (now w + ms) w) eqn:Hnd; [|discriminate].
      destruct (armed_elapse w T ms Ha Hnd) as [Ha' Hn'].
      apply (IH _ w' T Ha'); [destruct w; exact Hn' | exact Hs | exact Hr].
Qed.

(** Forty seconds of silence: the heartbeat timer fires exactly once. *)
Lemma silence_fires_once (rt : Runtime) (es : list event) (w w' : World) (T : Z) :
  armed w T -> now w <= T -> silence es = true -> run rt w es = Some w' ->
  T < now w' -> heartbeats_fired rt w es = 1%nat.
Proof.
  intros Ha Hn Hs Hr Hlate.
  destruct (armed_silence rt es w w' T Ha Hn Hs Hr) as [H|[_ H]]; [exact H|lia].
Qed.
(** C5, as the code has it. In every reachable world at most one
    heartbeat timer is pending, a single-shot timer of 40 s, the one behind
    [pingTimeout]. The message listener, whatever the frame carries, and the
    open listener start by cancelling it and setting a new one. A frame
    that leaves the connection up, arriving while nothing but the two
    watchdogs is pending, leaves the timer pending for 40 s after its
    arrival; and from a world where it is pending for [T], in any run of
    timers and passing time that gets beyond [T], a heartbeat timer fires
    exactly once. Firing, it calls [start] with the stored callback. *)
Theorem heartbeat_deadline (rt : Runtime) (options : option sseOptions) (w : World) :
  reachable rt options w ->
  (forall h t, timers w !! h = Some t -> active t = true -> handler t = ping_expired ->
     pingTimeout (this w) = Some h /\ repeating t = false /\ delay t = 40000) /\
  (forall h1 h2 t1 t2,
     timers w !! h1 = Some t1 -> active t1 = true -> handler t1 = ping_expired ->
     timers w !! h2 = Some t2 -> active t2 = true -> handler t2 = ping_expired ->
     h1 = h2) /\
  (forall data,
     extends (trace w ++ [ClearTimeout (pingTimeout (this w));
                          SetTimeout (length (timers w)) ping_expired 40000])
             (snd (message_listener_body rt data w))) /\
  (forall k,
     trace (snd (open_listener_body k w)) =
     (trace w ++ [ClearTimeout (pingTimeout (this w));
                  SetTimeout (length (timers w)) ping_expired 40000;
                  SetInterval (S (length (timers w))) checker_tick 1000;
                  StartResolved k])%list) /\
  (forall id data w1,
     step rt w (es_message id data) = Some w1 ->
     connection_up w = true -> only_watchdogs w = true -> connection_up w1 = true ->
     armed w1 (now w + 40000) /\ now w1 = now w) /\
  (forall T es w',
     armed w T -> now w <= T -> silence es = true -> run rt w es = Some w' ->
     T < now w' -> heartbeats_fired rt w es = 1%nat) /\
  (forall h t cb,
     handler t = ping_expired -> repeating t = false ->
     eventCallback (this w) = Some cb ->
     fire rt h t w = drop (start (Some cb) (spent h w))).
Proof.
  intros Hr. pose proof (one_heartbeat_reachable rt options w Hr) as Hone.
  split; [exact Hone|].
  split.
  { intros h1 h2 t1 t2 Hl1 Ha1 Hh1 Hl2 Ha2 Hh2.
    destruct (Hone h1 t1 Hl1 Ha1 Hh1) as [H1 _].
    destruct (Hone h2 t2 Hl2 Ha2 Hh2) as [H2 _]. congruence. }
  split; [intros data; apply message_listener_rearms_first|].
  split; [intros k; rewrite open_listener_spec; reflexivity|].
  split; [intros id data w1 Hs; apply (message_rearms rt options w w1 id data Hr Hs)|].
  split; [intros T es w'; apply silence_fires_once|].
  intros h t cb. apply fire_heartbeat.
Qed.

Lemma streaming_world_reachable : reachable demo_runtime None streaming_world.
Proof.
  exists [call_hubLogin "hub1" "tok1";
          settled 0 (fetch_json (JObj [("id", JStr "T1")]));
          call_start 1%nat;
          es_open 0].
  vm_compute. reflexivity.
Qed.

Lemma heartbeat_deadline_witness :
  reachable demo_runtime None streaming_world /\
  armed streaming_world 40000 /\
  now streaming_world <= 40000 /\
  silence (forty_seconds_of_silence 1 0) = true /\
  (exists w', run demo_runtime streaming_world (forty_seconds_of_silence 1 0) = Some w'
              /\ 40000 < now w') /\
  heartbeats_fired demo_runtime streaming_world (forty_seconds_of_silence 1 0) = 1%nat /\
  (exists w1, step demo_runtime streaming_world (es_message 0 switch_text) = Some w1
              /\ connection_up w1 = true /\ armed w1 40000).
Proof.
  assert (Ha : armed streaming_world 40000).
  { split; [vm_compute; reflexivity|]. split; [vm_compute; reflexivity|].
    split; [vm_compute; reflexivity|].
    apply (one_heartbeat_reachable demo_runtime None), streaming_world_reachable. }
  destruct (heartbeat_deadline demo_runtime None streaming_world streaming_world_reachable)
    as (_ & _ & _ & _ & Hm & Hs & _).
  split; [apply streaming_world_reachable|].
  split; [exact Ha|].
  split; [vm_compute; discriminate|].
  split; [vm_compute; reflexivity|].
  split; [|split].
  - eexists. split; [vm_compute; reflexivity|]. vm_compute. reflexivity.
  - eapply (Hs 40000).
    + exact Ha.
    + vm_compute. discriminate.
    + vm_compute. reflexivity.
    + vm_compute. reflexivity.
    + vm_compute. reflexivity.
  - eexists. split; [vm_compute; reflexivity|].
    split; [vm_compute; reflexivity|].
    refine (proj1 (Hm 0%nat switch_text _ _ _ _ _)); vm_compute; reflexivity.
Defined.

(** C5 as the specification words it fails when the last frame is the
    server's "token expired" signal: the listener bumps the heartbeat and
    then runs the retry path, which closes the connection and cancels the
    timer; however long the silence that follows, no heartbeat fires. *)
Lemma token_expired_then_silence_no_heartbeat :
  exists w1 w2,
    connection_up streaming_world = true /\
    only_watchdogs streaming_world = true /\
    step demo_runtime streaming_world (es_message 0 token_expired_text) = Some w1 /\
    silence [elapse 50000] = true /\
    run demo_runtime w1 [elapse 50000] = Some w2 /\
    now streaming_world + 40000 < now w2 /\
    heartbeats_fired demo_runtime w1 [elapse 50000] = 0%nat /\
    existsb active (timers w2) = false.
Proof.
  eexists. eexists.
  split; [vm_compute; reflexivity|].
  split; [vm_compute; reflexivity|].
  split; [vm_compute; reflexivity|].
  split; [reflexivity|].
  split; [vm_compute; reflexivity|].
  split; [vm_compute; reflexivity|].
  split; vm_compute; reflexivity.
Qed.

(* ================================================================== *)
(** ** Logging in: the request and the answer *)
(* ================================================================== *)

Lemma reachable_login_url (rt : Runtime) (options : option sseOptions) (w : World) :
  reachable rt options w ->
  login_url (this w) = field_or options opt_loginUrl DEFAULT_URLS_loginUrl.
Proof.
  intros Hr. pose proof (configured_reachable rt options w Hr) as H.
  unfold configured in H. rewrite constructor_config in H.
  unfold config in H. inversion H. reflexivity.
Qed.



(** The test is made on every answer whose status code is no array and no
    object, and on every answer without one. *)
Lemma refusal_faults_plain (result : jsval) :
  match get_opt (get_opt result "error") "statusCode" with
  | JArr _ | JObj _ => False
  | _ => True
  end ->
  refusal_faults result = false.
Proof.
  unfold refusal_faults.
  destruct (get_opt (get_opt result "error") "statusCode") as [| |b|n|s|l|l];
    try contradiction; try reflexivity.
  destruct b; reflexivity.
Qed.

Lemma settle_caller (f : nat) (r : fetch_result) (w : World) (q : Request) :
  requests w !! f = Some q -> awaited_by q = caller ->
  settle f r w =
  match login_chain r (answered f w) with
  | (Normal _, w') => w'
  | (Abrupt e, w') => emit (PromiseRejected e) w'
  end.
Proof. intros Hq Ha. unfold settle, answered. rewrite Hq, Ha. reflexivity. Qed.




(** X2. [login(email, password)] is [loginHashed] with the hash of the
    password: one POST to the configured login URL whose body holds the
    e-mail and the hash, the credentials stored being the e-mail and the
    hash; the token, the connections and the timers are not touched. A
    [retryLogin] right after it makes the same request once more. *)
Theorem login_sends_hash
    (rt : Runtime) (options : option sseOptions) (w : World) (m p : string) :
  reachable rt options w ->
  let w' := snd (login rt m p w) in
  let q := user_login_request (field_or options opt_loginUrl DEFAULT_URLS_loginUrl)
             m (sha1 rt p) in
  login rt m p w = loginHashed m (sha1 rt p) w /\
  fst (login rt m p w) = AwaitingRequest (length (requests w)) /\
  requests w' = (requests w ++ [q])%list /\
  trace w' = (trace w ++ [Fetch (length (requests w)) (target q) (body q)])%list /\
  cachedLoginData (this w')
  = Some {| user := Some {| email := m; hashedPassword := sha1 rt p |}; hub := None |} /\
  accessToken (this w') = accessToken (this w) /\
  sources w' = sources w /\ timers w' = timers w /\
  fst (retryLogin w') = AwaitingRequest (S (length (requests w))) /\
  requests (snd (retryLogin w')) = (requests w ++ [q; q])%list.
Proof.
  intros Hr w' q. pose proof (reachable_login_url rt options w Hr) as Hu.
  split; [reflexivity|].
  unfold w', login. rewrite loginHashed_spec. cbn [fst snd].
  split; [reflexivity|].
  split; [cbn [requests]; rewrite Hu; reflexivity|].
  split; [cbn [trace]; rewrite Hu; reflexivity|].
  split; [destruct w; reflexivity|].
  split; [destruct w; reflexivity|].
  split; [reflexivity|]. split; [reflexivity|].
  rewrite retryLogin_unfold. cbn [this cachedLoginData set_cachedLoginData hub user].
  rewrite loginHashed_spec. cbn [fst snd requests this].
  split.
  - rewrite length_app. cbn [length]. rewrite Nat.add_1_r. reflexivity.
  - cbn [email hashedPassword login_url set_cachedLoginData]. rewrite Hu, <- app_assoc.
    reflexivity.
Qed.

Lemma login_sends_hash_witness :
  let w' := snd (login demo_runtime "ann@example.org" "secret" streaming_world) in
  requests w' !! 1%nat
  = Some (user_login_request "https://cloud.ownstone.org/api/users/login"
            "ann@example.org" "sha1(secret)") /\
  requests (snd (retryLogin w')) !! 2%nat = requests w' !! 1%nat.
Proof.
  intros w'.
  destruct (login_sends_hash demo_runtime None streaming_world "ann@example.org" "secret"
              streaming_world_reachable) as (_ & _ & H1 & _ & _ & _ & _ & _ & _ & H2).
  fold w' in H1, H2. rewrite H2, H1. split; reflexivity.
Defined.

(* ================================================================== *)
(** ** The configuration *)
(* ================================================================== *)

(** X3. What the constructor settles stays settled: in every reachable
    world the three URLs, the client identifier and [requireAuthentication]
    are the values of the options, or the defaults where an option is left
    out, the hub login base with its final slash and the project name
    behind the library name and version. *)
Theorem configuration_is_fixed (rt : Runtime) (options : option sseOptions) (w : World) :
  reachable rt options w ->
  sse_url (this w) = field_or options opt_sseUrl DEFAULT_URLS_sseUrl /\
  login_url (this w) = field_or options opt_loginUrl DEFAULT_URLS_loginUrl /\
  hubLogin_baseUrl (this w)
  = (let base := field_or options opt_hubLoginBase DEFAULT_URLS_hubLoginBase in
     if String.eqb (substr_last base) "/" then base else base ++ "/") /\
  projectName (this w)
  = Some ("crownstone-lib-nodejs-sse-" ++ config_version rt ++ "-"
          ++ field_or options opt_projectName "no_project_name") /\
  requireAuthentication (this w) = field_or options opt_requireAuthentication true.
Proof.
  intros Hr. pose proof (configured_reachable rt options w Hr) as H.
  unfold configured in H. rewrite constructor_config in H.
  unfold config, normalized, client_identifier in H. inversion H. cbv zeta. auto 10.
Qed.

Lemma configuration_is_fixed_witness :
  sse_url (this streaming_world) = "https://events.ownstone.org/sse" /\
  login_url (this streaming_world) = "https://cloud.ownstone.org/api/users/login" /\
  hubLogin_baseUrl (this streaming_world) = "https://cloud.ownstone.org/api/Hubs/" /\
  projectName (this streaming_world)
  = Some "crownstone-lib-nodejs-sse-5.0.0-no_project_name" /\
  requireAuthentication (this streaming_world) = true.
Proof.
  exact (configuration_is_fixed demo_runtime None streaming_world streaming_world_reachable).
Defined.

(* ================================================================== *)
(** ** A token that is [undefined] *)
(* ================================================================== *)



(* ================================================================== *)
(** ** Connections the session is done with *)
(* ================================================================== *)

(** X5. A connection that is not the current one reaches nobody: in
    every reachable world it has no listener left, so an event the
    transport would still deliver on it changes nothing and never gets to
    the callback; being closed, it neither opens, nor carries a frame, nor
    reports an error. *)
Theorem replaced_connection_is_mute
    (rt : Runtime) (options : option sseOptions) (w : World) (id : nat) :
  reachable rt options w -> eventSource (this w) <> Some id ->
  (forall k data, dispatch rt id k data w = w) /\
  (forall data, step rt w (es_message id data) = None) /\
  step rt w (es_open id) = None /\
  (forall fatal, step rt w (es_error id fatal) = None).
Proof.
  intros Hr Hne. destruct (one_connection_reachable rt options w Hr) as [H1 _].
  destruct (sources w !! id) as [es|] eqn:E.
  - destruct (H1 id es E Hne) as (Hc & Ho & Hm & He).
    split; [|split; [|split]].
    + intros k data. unfold dispatch. rewrite E.
      destruct k; cbn [listeners_for]; rewrite ?Ho, ?Hm, ?He; reflexivity.
    + intros data. cbn [step]. rewrite E, Hc. reflexivity.
    + cbn [step]. rewrite E, Hc. reflexivity.
    + intros fatal. cbn [step]. rewrite E, Hc. reflexivity.
  - split; [|split; [|split]].
    + intros k data. unfold dispatch. rewrite E. reflexivity.
    + intros data. cbn [step]. rewrite E. reflexivity.
    + cbn [step]. rewrite E. reflexivity.
    + intros fatal. cbn [step]. rewrite E. reflexivity.
Qed.

Lemma replaced_connection_is_mute_witness :
  let w := final demo_runtime
             [call_setAccessToken (JStr "t0"); call_start 1%nat; es_open 0; call_start 2%nat] in
  eventSource (this w) = Some 1%nat /\
  dispatch demo_runtime 0 on_message_event switch_text w = w /\
  step demo_runtime w (es_message 0 switch_text) = None.
Proof.
  intros w.
  assert (Hr : reachable demo_runtime None w).
  { exists [call_setAccessToken (JStr "t0"); call_start 1%nat; es_open 0; call_start 2%nat].
    vm_compute. reflexivity. }
  destruct (replaced_connection_is_mute demo_runtime None w 0%nat Hr) as (H1 & H2 & _).
  - vm_compute. discriminate.
  - split; [vm_compute; reflexivity|]. split; [apply H1 | apply H2].
Defined.

(* ================================================================== *)
(** ** Token refresh switched off *)
(* ================================================================== *)

Lemma closeEventSource_this (w : World) :
  this (closeEventSource w) = set_eventSource None (this w).
Proof.
  rewrite closeEventSource_spec.
  destruct (eventSource (this w)) as [id|] eqn:E; [reflexivity|].
  rewrite _clearPendingActions_spec. cbn [this].
  destruct w as [s srcs tms reqs n tr]. destruct s. cbn in *. subst. reflexivity.
Qed.

Lemma closeEventSource_frame (w : World) :
  requests (closeEventSource w) = requests w /\
  now (closeEventSource w) = now w /\
  timers (closeEventSource w) = cleared_timers (this w) (timers w) /\
  length (sources (closeEventSource w)) = length (sources w).
Proof.
  rewrite closeEventSource_spec.
  destruct (eventSource (this w)) as [id|].
  - cbn. rewrite length_alter. auto.
  - rewrite _clearPendingActions_spec. cbn. auto.
Qed.

(** The branch of [retryWithNewAccessToken] taken when auto-reconnect is
    off or no credentials are stored. *)
Lemma retryWithNewAccessToken_disabled (w : World) (cb : callback) :
  eventCallback (this w) = Some cb ->
  autoreconnect (this w) = false \/ cachedLoginData (this w) = None ->
  retryWithNewAccessToken w
  = (Normal tt, emit (Callback cb refresh_disabled_event) (closeEventSource w)).
Proof.
  intros Hcb Hoff.
  assert (Hc : eventCallback (this (closeEventSource w)) = Some cb)
    by (rewrite closeEventSource_this; exact Hcb).
  assert (Ht : autoreconnect (this (closeEventSource w))
               && (if cachedLoginData (this (closeEventSource w)) is Some _ then true else false)
               = false).
  { rewrite closeEventSource_this. cbn [autoreconnect cachedLoginData set_eventSource].
    destruct Hoff as [-> | ->]; [reflexivity | apply andb_false_r]. }
  unfold retryWithNewAccessToken. unfold bind at 1. unfold lift at 1.
  unfold bind at 1. unfold gets at 1. rewrite Ht.
  apply call_eventCallback_spec, Hc.
Qed.

(** A frame that carries the signal ends in [retryWithNewAccessToken], run
    once, after the callback has seen the frame. *)
Lemma message_listener_retry
    (rt : Runtime) (data : string) (m : jsval) (cb : callback) (w : World) :
  truthy (JStr data) = true -> JSON_parse rt data = Some m ->
  eventCallback (this w) = Some cb -> triggers_refresh m = true ->
  message_listener_body rt data w = retryWithNewAccessToken (delivered cb m w).
Proof.
  intros Hd Hp Hcb Ht. rewrite (message_listener_unfold rt data m cb w Hd Hp Hcb).
  destruct (unreadable m) eqn:Hn.
  { unfold triggers_refresh in Ht. rewrite !unreadable_signals in Ht by exact Hn.
    discriminate Ht. }
  unfold triggers_refresh in Ht.
  destruct (signals m "TOKEN_EXPIRED") eqn:H1.
  - rewrite (signals_exclusive m H1).
    destruct (retryWithNewAccessToken (delivered cb m w)) as [[[]|e] w1]; reflexivity.
  - cbn [orb] in Ht. rewrite Ht. reflexivity.
Qed.

(** X6. A frame with the token-expired signal, received while
    auto-reconnect is off or no credentials are stored: the heartbeat is
    bumped, the callback gets the frame, the timers are cleared, the
    connection loses its listeners and is closed, and the callback gets the
    terminal event [COULD_NOT_REFRESH_TOKEN], once, as the last thing. No
    login is attempted and the token stays as it was. *)
Theorem refresh_disabled_terminal_event
    (rt : Runtime) (data : string) (m : jsval) (cb : callback) (w : World) (id : nat) :
  truthy (JStr data) = true -> JSON_parse rt data = Some m ->
  eventCallback (this w) = Some cb -> eventSource (this w) = Some id ->
  triggers_refresh m = true ->
  autoreconnect (this w) = false \/ cachedLoginData (this w) = None ->
  let w' := snd (message_listener_body rt data w) in
  fst (message_listener_body rt data w) = Normal tt /\
  trace w' = (trace w ++
    [ClearTimeout (pingTimeout (this w));
     SetTimeout (length (timers w)) ping_expired 40000;
     Callback cb m;
     ClearInterval (checkerInterval (this w));
     ClearTimeout (reconnectTimeout (this w));
     ClearTimeout (Some (length (timers w)));
     RemoveEventListener id on_open_event (open (listeners (this w)));
     RemoveEventListener id on_message_event (message (listeners (this w)));
     RemoveEventListener id on_error_event (error (listeners (this w)));
     Close id;
     Callback cb refresh_disabled_event])%list /\
  delivers_terminal_event (Callback cb refresh_disabled_event) = true /\
  eventSource (this w') = None /\
  handles_cancelled w' /\
  requests w' = requests w /\
  accessToken (this w') = accessToken (this w).
Proof.
  intros Hd Hp Hcb Hid Ht Hoff w'. unfold w'.
  rewrite (message_listener_retry rt data m cb w Hd Hp Hcb Ht).
  assert (Hthis : this (delivered cb m w) = set_pingTimeout (Some (length (timers w))) (this w)).
  { unfold delivered. rewrite _messageReceived_spec. reflexivity. }
  rewrite (retryWithNewAccessToken_disabled (delivered cb m w) cb)
    by (rewrite Hthis; assumption).
  cbn [fst snd]. split; [reflexivity|].
  destruct (closeEventSource_clears (delivered cb m w)) as (Hnone & _ & Hcancel).
  destruct (closeEventSource_frame (delivered cb m w)) as (Hreq & _).
  split; [|split; [reflexivity|split; [|split; [|split]]]].
  - rewrite closeEventSource_spec, Hthis. cbn [eventSource set_pingTimeout]. rewrite Hid.
    unfold emit. cbn [trace]. rewrite delivered_trace, <- !app_assoc. reflexivity.
  - generalize dependent (closeEventSource (delivered cb m w)). intros w1 Hnone _ _.
    destruct w1. exact Hnone.
  - generalize dependent (closeEventSource (delivered cb m w)). intros w1 _ Hc _.
    destruct w1. exact Hc.
  - generalize dependent (closeEventSource (delivered cb m w)). intros w1 _ _ Hr.
    destruct w1. cbn in *. rewrite Hr. unfold delivered. rewrite _messageReceived_spec.
    reflexivity.
  - assert (Ha : accessToken (this (closeEventSource (delivered cb m w)))
                 = accessToken (this w))
      by (rewrite closeEventSource_this, Hthis; reflexivity).
    generalize dependent (closeEventSource (delivered cb m w)). intros w1 _ _ _ Ha.
    destruct w1. exact Ha.
Qed.

Lemma refresh_disabled_terminal_event_witness :
  let w' := snd (message_listener_body demo_runtime token_expired_text token_world) in
  cachedLoginData (this token_world) = None /\
  last (trace w') = Some (Callback 1%nat refresh_disabled_event) /\
  eventSource (this w') = None /\
  requests w' = [].
Proof.
  intros w'.
  assert (H0 : cachedLoginData (this token_world) = None) by (vm_compute; reflexivity).
  destruct (refresh_disabled_terminal_event demo_runtime token_expired_text
              (system_401 (JStr "TOKEN_EXPIRED")) 1%nat token_world 0%nat)
    as (_ & Htr & _ & Hes & _ & Hreq & _);
    [vm_compute; reflexivity ..| right; exact H0 |].
  fold w' in Htr, Hes, Hreq.
  split; [exact H0|]. split; [|split; [exact Hes|]].
  - rewrite Htr, last_app. reflexivity.
  - rewrite Hreq. vm_compute. reflexivity.
Defined.

(* ================================================================== *)
(** ** Stopping twice *)
(* ================================================================== *)

Lemma cancel_in_lookup_eq (h : option nat) (l : list Timer) (i : nat) :
  cancel_in h l !! i = if decide (h = Some i) then deactivate <$> l !! i else l !! i.
Proof.
  destruct h as [j|]; cbn [cancel_in].
  - destruct (decide (Some j = Some i)) as [E|Hne].
    + inversion E. subst j. apply list_lookup_alter_eq.
    + apply list_lookup_alter_ne. congruence.
  - destruct (decide (None = Some i)); [discriminate|reflexivity].
Qed.

Lemma cleared_timers_idempotent (s : CrownstoneSSE) (l : list Timer) :
  cleared_timers s (cleared_timers s l) = cleared_timers s l.
Proof.
  apply list_eq. intros i. unfold cleared_timers. rewrite !cancel_in_lookup_eq.
  destruct (decide (pingTimeout s = Some i)), (decide (reconnectTimeout s = Some i)),
    (decide (checkerInterval s = Some i)), (l !! i); reflexivity.
Qed.

(** X7. A second [stop()] repeats the three clear calls and nothing
    else: the session, the connections, the timers and the requests are
    what the first one left. *)
Theorem stop_is_idempotent (w : World) :
  stop (stop w) =
  {| this := this (stop w);
     sources := sources (stop w);
     timers := timers (stop w);
     requests := requests (stop w);
     now := now (stop w);
     trace := trace (stop w) ++
       [ClearInterval (checkerInterval (this w));
        ClearTimeout (reconnectTimeout (this w));
        ClearTimeout (pingTimeout (this w))] |}.
Proof.
  assert (Hthis : this (stop w) = set_eventSource None (set_autoreconnect false (this w))).
  { unfold stop. rewrite closeEventSource_this. destruct w. reflexivity. }
  assert (Htm : timers (stop w) = cleared_timers (this w) (timers w)).
  { unfold stop. destruct (closeEventSource_frame (assign (set_autoreconnect false) w))
      as (_ & _ & H & _). rewrite H. destruct w. reflexivity. }
  generalize dependent (stop w). intros w1 Hthis Htm.
  unfold stop. rewrite closeEventSource_spec.
  destruct w1 as [s1 srcs1 tms1 reqs1 n1 tr1]. cbn in Hthis, Htm. subst s1 tms1.
  cbn. rewrite _clearPendingActions_spec. cbn.
  f_equal. apply (cleared_timers_idempotent
                    (set_autoreconnect false (set_eventSource None (set_autoreconnect false (this w))))
                    (timers w)).
Qed.

(* ================================================================== *)
(** ** Reconnecting after an error of the transport *)
(* ================================================================== *)

Lemma error_listener_spec (w : World) :
  error_listener_body w =
  (Normal tt,
   reconnect_armed
     (closeEventSource
        (clear_Timeout (reconnectTimeout (this w))
           (clear_Interval (checkerInterval (this w)) w)))).
Proof.
  unfold error_listener_body. monad.
  assert (E : reconnectTimeout (this (clear_Interval (checkerInterval (this w)) w))
              = reconnectTimeout (this w)) by (destruct w; reflexivity).
  rewrite E.
  generalize (closeEventSource
                (clear_Timeout (reconnectTimeout (this w))
                   (clear_Interval (checkerInterval (this w)) w))).
  intros w1. destruct w1. reflexivity.
Qed.

(** A timer of one of the two delays fires: [start] with the stored
    callback, its promise left alone. *)
Lemma fire_restart (rt : Runtime) (h : nat) (t : Timer) (w : World) :
  handler t = reconnect_after_error \/ handler t = resolve_delay ->
  repeating t = false ->
  fire rt h t w = restart (spent h w).
Proof.
  intros Hh Hr. unfold fire, run_handler, spent. rewrite Hr.
  destruct Hh as [-> | ->]; reflexivity.
Qed.


(** The transport reports an error on the current connection, and on no
    other. *)
Lemma step_error (rt : Runtime) (options : option sseOptions)
    (w w' : World) (id : nat) (fatal : bool) :
  reachable rt options w ->
  step rt w (es_error id fatal) = Some w' ->
  eventSource (this w) = Some id /\
  listeners (this w) = wired_listeners id /\
  w' = run_handler rt "" (set_readyState id (if fatal then CLOSED else CONNECTING) w)
         (error_listener id).
Proof.
  intros Hr Hs. cbn [step] in Hs.
  destruct (sources w !! id) as [es|] eqn:E; [|discriminate].
  destruct (readyState es =? CLOSED) eqn:R; [discriminate|].
  apply Z.eqb_neq in R.
  pose proof (one_connection_reachable rt options w Hr) as Hone.
  assert (Hid : eventSource (this w) = Some id)
    by (apply (live_connection_is_current w id es Hone E R)).
  destruct Hone as [_ H2].
  destruct (H2 id Hid) as (es' & E' & Hl & _ & _ & He).
  rewrite E in E'. inversion E'. subst es'.
  split; [exact Hid|]. split; [exact Hl|].
  inversion Hs. unfold dispatch.
  assert (Es : sources (set_readyState id (if fatal then CLOSED else CONNECTING) w) !! id
               = Some (with_readyState (if fatal then CLOSED else CONNECTING) es)).
  { destruct w. cbn in *. rewrite list_lookup_alter_eq, E. reflexivity. }
  rewrite Es. cbn [listeners_for on_error with_readyState]. rewrite He. reflexivity.
Qed.

(** X8. An error of the transport, which can only come from the current
    connection: the error listener clears the liveness poll and a pending
    reconnect, closes the connection (listeners removed, handle [null],
    the three timers behind the handles cancelled) and sets one timer of 2
    seconds, kept in [reconnectTimeout]; when that timer fires, [start] is
    called with the stored callback. This does not depend on
    [autoreconnect]. *)
Theorem error_listener_reconnects
    (rt : Runtime) (options : option sseOptions) (w w' : World) (id : nat) (fatal : bool) :
  reachable rt options w ->
  step rt w (es_error id fatal) = Some w' ->
  let h := length (timers w) in
  eventSource (this w) = Some id /\
  eventSource (this w') = None /\
  (exists es, sources w' !! id = Some es /\ detached es) /\
  reconnectTimeout (this w') = Some h /\
  timers w' !! h = Some (reconnect_timer (now w)) /\
  (forall i t, timers w' !! i = Some t -> i <> h ->
     checkerInterval (this w) = Some i \/ reconnectTimeout (this w) = Some i
     \/ pingTimeout (this w) = Some i ->
     active t = false) /\
  trace w' = (trace w ++
    [ClearInterval (checkerInterval (this w));
     ClearTimeout (reconnectTimeout (this w));
     ClearInterval (checkerInterval (this w));
     ClearTimeout (reconnectTimeout (this w));
     ClearTimeout (pingTimeout (this w));
     RemoveEventListener id on_open_event (open_listener id);
     RemoveEventListener id on_message_event (message_listener id);
     RemoveEventListener id on_error_event (error_listener id);
     Close id;
     SetTimeout h reconnect_after_error 2000])%list /\
  (forall w2, fire rt h (reconnect_timer (now w)) w2
              = drop (start (eventCallback (this w2)) (spent h w2))).
Proof.
  intros Hr Hs h.
  destruct (step_error rt options w w' id fatal Hr Hs) as (Hid & Hl & ->).
  split; [exact Hid|].
  unfold run_handler. cbn [invoke]. rewrite error_listener_spec.
  set (r := if fatal then CLOSED else CONNECTING).
  set (w0 := clear_Timeout _ (clear_Interval _ (set_readyState id r w))).
  assert (Hone0 : one_connection w0).
  { pose proof (one_connection_reachable rt options w Hr) as Hone.
    pose proof (reachable_step rt options _ _ _ Hr Hs) as _.
    cbn [step] in Hs.
    destruct (sources w !! id) as [es|] eqn:E; [|discriminate].
    destruct (readyState es =? CLOSED) eqn:R; [discriminate|]. apply Z.eqb_neq in R.
    pose proof (one_connection_readyState w id es r Hone E R) as H1.
    unfold w0. destruct w. exact H1. }
  assert (Hthis0 : this w0 = this w) by (unfold w0; destruct w; reflexivity).
  assert (Htm0 : timers w0
                 = cancel_in (reconnectTimeout (this w)) (cancel_in (checkerInterval (this w)) (timers w)))
    by (unfold w0; destruct w; reflexivity).
  assert (Hnow0 : now w0 = now w) by (unfold w0; destruct w; reflexivity).
  assert (Htr0 : trace w0 = (trace w ++ [ClearInterval (checkerInterval (this w));
                                         ClearTimeout (reconnectTimeout (this w))])%list).
  { unfold w0. destruct w. cbn. rewrite <- app_assoc. reflexivity. }
  assert (Hid0 : eventSource (this w0) = Some id) by (rewrite Hthis0; exact Hid).
  destruct (closeEventSource_idle w0 Hone0) as [Hnone Hdet].
  destruct (closeEventSource_frame w0) as (_ & Hnow1 & Htm1 & Hlen1).
  assert (Hsrc1 : exists es, sources (closeEventSource w0) !! id = Some es).
  { apply lookup_lt_is_Some. rewrite Hlen1. destruct Hone0 as [_ H2].
    destruct (H2 id Hid0) as (es & Hes & _). eapply lookup_lt_Some, Hes. }
  assert (Htr1 : trace (closeEventSource w0) = (trace w0 ++
            [ClearInterval (checkerInterval (this w));
             ClearTimeout (reconnectTimeout (this w));
             ClearTimeout (pingTimeout (this w));
             RemoveEventListener id on_open_event (open_listener id);
             RemoveEventListener id on_message_event (message_listener id);
             RemoveEventListener id on_error_event (error_listener id);
             Close id])%list).
  { rewrite closeEventSource_spec, Hid0. cbn [trace]. rewrite Hthis0, Hl. reflexivity. }
  assert (Hlen : length (timers (closeEventSource w0)) = h).
  { rewrite Htm1, Htm0. unfold cleared_timers. rewrite !length_cancel_in. reflexivity. }
  generalize dependent (closeEventSource w0). intros w1 Hnone Hdet Hnow1 Htm1 Hlen1 Hsrc1 Htr1 Hlen.
  unfold reconnect_armed. cbn [snd this sources timers trace eventSource reconnectTimeout
                                set_reconnectTimeout].
  split; [exact Hnone|].
  split; [destruct Hsrc1 as [es Hes]; exists es; split; [exact Hes | eapply Hdet, Hes]|].
  split; [rewrite Hlen; reflexivity|].
  split.
  { rewrite lookup_app_r by lia. rewrite Hlen, Nat.sub_diag. cbn.
    rewrite Hnow1, Hnow0. reflexivity. }
  split.
  { intros i t Ht Hne Hh.
    destruct (lookup_snoc _ _ _ _ Ht) as [Hl'|[Hi _]]; [|lia].
    rewrite Htm1, Hthis0 in Hl'. eapply cleared_timers_inactive; eauto. }
  split.
  { rewrite Htr1, Htr0, Hlen, <- !app_assoc. reflexivity. }
  intros w2. rewrite fire_restart; [reflexivity | left; reflexivity | reflexivity].
Qed.

Lemma error_listener_reconnects_witness :
  exists w',
    step demo_runtime streaming_world (es_error 0 false) = Some w' /\
    eventSource (this w') = None /\
    reconnectTimeout (this w') = Some 2%nat /\
    timers w' !! 2%nat = Some (reconnect_timer 0).
Proof.
  eexists. split; [vm_compute; reflexivity|].
  destruct (error_listener_reconnects demo_runtime None streaming_world _ 0%nat false
              streaming_world_reachable eq_refl) as (_ & H1 & _ & H2 & H3 & _).
  split; [exact H1|]. split; [exact H2|exact H3].
Defined.

(* ================================================================== *)
(** ** A token refresh that succeeds *)
(* ================================================================== *)




(* ================================================================== *)
(** ** Every pending timer is behind its handle *)
(* ================================================================== *)

Lemma delays_only_tracks (s : CrownstoneSSE) (l : list Timer) :
  delays_only l -> tracks s l.
Proof.
  intros H h t Hl Ha. destruct (H h t Hl Ha) as (Hh & Hr & Hd).
  unfold tracked_as. rewrite Hh. auto.
Qed.

Lemma delays_only_sound (w : World) : delays_only (timers w) -> timers_sound w.
Proof.
  intros H. split; [apply delays_only_tracks, H|].
  intros h t Hl Ha Hh. destruct (H h t Hl Ha) as (Hd & _). congruence.
Qed.

Lemma tracked_as_view (s s' : CrownstoneSSE) (h : nat) (t : Timer) :
  pingTimeout s' = pingTimeout s -> checkerInterval s' = checkerInterval s ->
  reconnectTimeout s' = reconnectTimeout s ->
  tracked_as s h t -> tracked_as s' h t.
Proof. intros E1 E2 E3. unfold tracked_as. rewrite E1, E2, E3. auto. Qed.

Lemma has_opened_view (w w' : World) :
  sources w' = sources w -> eventSource (this w') = eventSource (this w) ->
  has_opened w' = has_opened w.
Proof. intros E1 E2. unfold has_opened. rewrite E1, E2. reflexivity. Qed.

Lemma sound_view (w w' : World) :
  same_watch w w' -> timers_sound w -> timers_sound w'.
Proof.
  intros (Et & Es & E1 & E2 & E3 & Ee) [H1 H2]. split.
  - intros h t Hl Ha. rewrite Et in Hl.
    eapply tracked_as_view; [exact E1|exact E2|exact E3|]. eapply H1; eauto.
  - intros h t Hl Ha Hh. rewrite Et in Hl.
    rewrite (has_opened_view w w' Es Ee). eapply H2; eauto.
Qed.

Lemma same_watch_refl (w : World) : same_watch w w.
Proof. repeat split. Qed.

Lemma same_watch_trans (w1 w2 w3 : World) :
  same_watch w1 w2 -> same_watch w2 w3 -> same_watch w1 w3.
Proof.
  intros (A1 & A2 & A3 & A4 & A5 & A6) (B1 & B2 & B3 & B4 & B5 & B6).
  repeat split; congruence.
Qed.

Lemma same_watch_emit (e : Effect) (w : World) : same_watch w (emit e w).
Proof. destruct w. repeat split. Qed.

Lemma same_watch_drop (r : promise * World) (w : World) :
  same_watch w (snd r) -> same_watch w (drop r).
Proof.
  destruct r as [[e|k|f] w1]; cbn [snd drop]; intros H; exact H.
Qed.

Lemma same_watch_loginHashed (m p : string) (w : World) :
  same_watch w (snd (loginHashed m p w)).
Proof. rewrite loginHashed_spec. repeat split. Qed.

Lemma same_watch_hubLogin (i t : string) (w : World) :
  same_watch w (snd (hubLogin i t w)).
Proof. rewrite hubLogin_spec. repeat split. Qed.

Lemma same_watch_retryLogin (w : World) : same_watch w (snd (retryLogin w)).
Proof.
  rewrite retryLogin_unfold.
  destruct (cachedLoginData (this w)) as [d|]; [|apply same_watch_refl].
  destruct (hub d) as [h|]; [apply same_watch_hubLogin|].
  destruct (user d) as [u|]; [apply same_watch_loginHashed | apply same_watch_refl].
Qed.

Lemma same_watch_call_eventCallback (v : jsval) (w : World) :
  same_watch w (snd (call_eventCallback v w)).
Proof.
  unfold call_eventCallback. monad.
  destruct (eventCallback (this w)); [apply same_watch_emit | apply same_watch_refl].
Qed.

Lemma same_watch_then_restart (p : promise) (w : World) : same_watch w (then_restart p w).
Proof. destruct p, w; repeat split. Qed.

Lemma same_watch_login_chain (r : fetch_result) (w : World) :
  same_watch w (snd (login_chain r w)).
Proof.
  destruct (login_chain_cases r) as [[e H]|[id H]]; rewrite H; cbn [snd].
  - apply same_watch_refl.
  - destruct w. repeat split.
Qed.

(** *** Clearing *)

Lemma tracks_cleared (s : CrownstoneSSE) (l : list Timer) :
  tracks s l -> delays_only (cleared_timers s l).
Proof.
  intros H h t Hl Ha. unfold cleared_timers in Hl.
  destruct (cancel_in_active _ _ _ _ Hl Ha) as [Hl1 Hp].
  destruct (cancel_in_active _ _ _ _ Hl1 Ha) as [Hl2 Hr].
  destruct (cancel_in_active _ _ _ _ Hl2 Ha) as [Hl3 Hc].
  pose proof (H h t Hl3 Ha) as Ht. unfold tracked_as in Ht.
  destruct (handler t); try contradiction.
  - destruct Ht as [Ht _]. contradiction.
  - destruct Ht as [Ht _]. contradiction.
  - destruct Ht as [Ht _]. contradiction.
  - destruct Ht as [Hr' Hd]. auto.
Qed.

Lemma delays_only_cancel_in (h : option nat) (l : list Timer) :
  delays_only l -> delays_only (cancel_in h l).
Proof.
  intros H i t Hl Ha. destruct (cancel_in_active _ _ _ _ Hl Ha) as [Hl' _]. eauto.
Qed.

Lemma tracks_cancel_in (s : CrownstoneSSE) (h : option nat) (l : list Timer) :
  tracks s l -> tracks s (cancel_in h l).
Proof.
  intros H i t Hl Ha. destruct (cancel_in_active _ _ _ _ Hl Ha) as [Hl' _]. eauto.
Qed.

Lemma delays_only_snoc (l : list Timer) (n : Z) :
  delays_only l -> delays_only (l ++ [refresh_delay_timer n])%list.
Proof.
  intros H i t Hl Ha.
  destruct (lookup_snoc _ _ _ _ Hl) as [Hl'|[_ ->]]; [eauto | repeat split].
Qed.

Lemma closeEventSource_delays (w : World) :
  tracks (this w) (timers w) -> delays_only (timers (closeEventSource w)).
Proof.
  intros H. destruct (closeEventSource_frame w) as (_ & _ & -> & _).
  apply tracks_cleared, H.
Qed.

Lemma started_timers (cb : option callback) (w : World) :
  timers (started cb w) = cleared_timers (this w) (timers w).
Proof.
  destruct (started_view cb w) as (-> & _).
  destruct (eventSource (this w)) as [old|] eqn:E.
  - rewrite (prepared_with_handle cb w old E). cbn [timers].
    apply cleared_timers_idempotent.
  - rewrite (prepared_without_handle cb w E). reflexivity.
Qed.

Lemma started_delays (cb : option callback) (w : World) :
  tracks (this w) (timers w) -> delays_only (timers (started cb w)).
Proof. intros H. rewrite started_timers. apply tracks_cleared, H. Qed.

Lemma start_sound (cb : option callback) (w : World) :
  timers_sound w -> timers_sound (drop (start cb w)).
Proof.
  intros H. rewrite start_spec. destruct (refuses w); cbn [drop].
  - eapply sound_view; [apply same_watch_emit | exact H].
  - pose proof (started_delays cb w (proj1 H)) as Hd.
    destruct (start_outcome w); cbn [drop]; apply delays_only_sound; exact Hd.
Qed.

Lemma restart_sound (w : World) : timers_sound w -> timers_sound (restart w).
Proof. intros H. unfold restart. apply start_sound, H. Qed.

Lemma closeEventSource_sound (w : World) :
  timers_sound w -> timers_sound (closeEventSource w).
Proof. intros [H _]. apply delays_only_sound, closeEventSource_delays, H. Qed.

(** The retry path leaves nothing pending but refresh delays. *)
Lemma retry_delays (w : World) :
  tracks (this w) (timers w) ->
  delays_only (timers (snd (retryWithNewAccessToken w))).
Proof.
  intros H. pose proof (closeEventSource_delays w H) as Hc.
  unfold retryWithNewAccessToken. unfold bind at 1. unfold lift at 1.
  generalize dependent (closeEventSource w). intros w1 Hc.
  unfold bind at 1. unfold gets at 1.
  destruct (autoreconnect (this w1) && _).
  - unfold try_catch, bind, call, lift.
    destruct (same_watch_retryLogin w1) as (Ht & _).
    destruct (retryLogin w1) as [p w2]. cbn [snd] in *.
    destruct (same_watch_then_restart p w2) as (Ht' & _). rewrite Ht', Ht. exact Hc.
  - destruct (same_watch_call_eventCallback
                (errorEvent "Token expired, autoconnect is disabled or does not have login credentials. Connection closed.") w1)
      as (Ht & _).
    rewrite Ht. exact Hc.
Qed.

(** *** The heartbeat bump and the listeners *)

Lemma same_watch_of_view (w w' : World) :
  this w' = this w -> sources w' = sources w -> timers w' = timers w -> same_watch w w'.
Proof. intros E1 E2 E3. unfold same_watch. rewrite E1, E2, E3. repeat split. Qed.

Lemma run_handler_sound (rt : Runtime) (data : string) (w : World) (f : closure) :
  timers_sound (snd (invoke rt f data w)) -> timers_sound (run_handler rt data w f).
Proof.
  destruct (run_handler_view rt data w f) as (H1 & H2 & H3 & _).
  apply sound_view, same_watch_of_view; assumption.
Qed.

Lemma tracks_bump (s : CrownstoneSSE) (l : list Timer) (n : Z) :
  tracks s l ->
  tracks (set_pingTimeout (Some (length l)) s)
         (cancel_in (pingTimeout s) l ++ [heartbeat_timer n])%list.
Proof.
  intros H i t Hl Ha.
  destruct (lookup_snoc _ _ _ _ Hl) as [Hl'|[Hi ->]].
  - destruct (cancel_in_active _ _ _ _ Hl' Ha) as [Hl0 Hne].
    pose proof (H i t Hl0 Ha) as Ht. unfold tracked_as in *.
    destruct (handler t); try exact Ht.
    destruct Ht as [Ht _]. contradiction.
  - rewrite length_cancel_in in Hi. subst i. repeat split.
Qed.

Lemma _messageReceived_sound (w : World) :
  timers_sound w -> timers_sound (_messageReceived w).
Proof.
  intros [H1 H2]. rewrite _messageReceived_spec. split; cbn [this timers].
  - apply tracks_bump, H1.
  - intros h t Hl Ha Hh.
    destruct (lookup_snoc _ _ _ _ Hl) as [Hl'|[_ ->]]; [|discriminate Hh].
    destruct (cancel_in_active _ _ _ _ Hl' Ha) as [Hl0 _].
    rewrite <- (H2 h t Hl0 Ha Hh). apply has_opened_view; reflexivity.
Qed.

Lemma delivered_sound (cb : callback) (m : jsval) (w : World) :
  timers_sound w -> timers_sound (delivered cb m w).
Proof.
  intros H. unfold delivered.
  eapply sound_view; [apply same_watch_emit | apply _messageReceived_sound, H].
Qed.

Lemma retry_sound (w : World) :
  timers_sound w -> timers_sound (snd (retryWithNewAccessToken w)).
Proof. intros [H _]. apply delays_only_sound, retry_delays, H. Qed.

Lemma message_listener_sound (rt : Runtime) (data : string) (w : World) :
  timers_sound w -> timers_sound (snd (message_listener_body rt data w)).
Proof.
  intros H. pose proof (_messageReceived_sound w H) as Hb.
  destruct (truthy (JStr data)) eqn:Ht.
  2:{ unfold message_listener_body. rewrite Ht. exact Hb. }
  destruct (JSON_parse rt data) as [m|] eqn:Hp.
  2:{ unfold message_listener_body, parse. rewrite Ht, Hp. exact Hb. }
  destruct (eventCallback (this w)) as [cb|] eqn:Hcb.
  2:{ unfold message_listener_body, parse. rewrite Ht, Hp.
      unfold bind at 1. unfold lift at 1. unfold bind at 1. unfold ret at 1.
      unfold bind at 1. unfold call_eventCallback. unfold bind at 1. unfold gets at 1.
      rewrite eventCallback_messageReceived, Hcb. exact Hb. }
  rewrite (message_listener_unfold rt data m cb w Ht Hp Hcb).
  pose proof (delivered_sound cb m w H) as Hd.
  destruct (unreadable m); [exact Hd|].
  destruct (signals m "TOKEN_EXPIRED").
  - pose proof (retry_sound (delivered cb m w) Hd) as Hc.
    destruct (retryWithNewAccessToken (delivered cb m w)) as [[u|e] w1]; cbn [snd] in *;
      [|exact Hc].
    destruct (signals m "INVALID_ACCESS_TOKEN"); [apply retry_sound, Hc|exact Hc].
  - unfold ret at 1. destruct (signals m "INVALID_ACCESS_TOKEN").
    + apply retry_sound, Hd.
    + exact Hd.
Qed.

Lemma open_listener_sound (k : nat) (w : World) :
  tracks (this w) (timers w) ->
  (forall h t, timers w !! h = Some t -> active t = true -> handler t <> checker_tick) ->
  has_opened w = true ->
  timers_sound (snd (open_listener_body k w)).
Proof.
  intros H Hno Hop. rewrite open_listener_spec. cbn [snd]. split; cbn [this timers].
  - intros i t Hl Ha.
    destruct (lookup_snoc _ _ _ _ Hl) as [Hl1|[Hi ->]].
    + destruct (lookup_snoc _ _ _ _ Hl1) as [Hl2|[Hi ->]].
      * destruct (cancel_in_active _ _ _ _ Hl2 Ha) as [Hl0 Hne].
        pose proof (H i t Hl0 Ha) as Ht. pose proof (Hno i t Hl0 Ha) as Hnc.
        unfold tracked_as in *.
        destruct (handler t); try exact Ht.
        -- destruct Ht as [Ht _]. contradiction.
        -- contradiction.
      * rewrite length_cancel_in in Hi. subst i. repeat split.
    + rewrite length_app, length_cancel_in in Hi. cbn [length] in Hi.
      rewrite Nat.add_1_r in Hi. subst i. repeat split.
  - intros _ _ _ _ _. rewrite <- Hop. apply has_opened_view; reflexivity.
Qed.

Lemma reconnect_armed_sound (w1 : World) :
  delays_only (timers w1) -> timers_sound (reconnect_armed w1).
Proof.
  intros H. unfold reconnect_armed. split; cbn [this timers].
  - intros i t Hl Ha.
    destruct (lookup_snoc _ _ _ _ Hl) as [Hl'|[Hi ->]].
    + destruct (H i t Hl' Ha) as (Hh & Hr & Hd). unfold tracked_as. rewrite Hh. auto.
    + subst i. repeat split.
  - intros i t Hl Ha Hh.
    destruct (lookup_snoc _ _ _ _ Hl) as [Hl'|[_ ->]]; [|discriminate Hh].
    destruct (H i t Hl' Ha) as (Hd & _). congruence.
Qed.

Lemma error_listener_sound (w : World) :
  tracks (this w) (timers w) -> timers_sound (snd (error_listener_body w)).
Proof.
  intros H. rewrite error_listener_spec. cbn [snd].
  apply reconnect_armed_sound, closeEventSource_delays.
  destruct w as [s srcs tms reqs n tr]. cbn in *.
  apply tracks_cancel_in, tracks_cancel_in, H.
Qed.

(** *** Timers firing, logins ending, the transport *)

Lemma tracks_fire (s : CrownstoneSSE) (l : list Timer) (h : nat) (t : Timer) :
  tracks s l -> l !! h = Some t -> active t = true ->
  tracks s (alter (if repeating t then rearm else deactivate) h l).
Proof.
  intros H Hl Hact i t' Ht Ha.
  destruct (decide (h = i)) as [->|Hne].
  - rewrite list_lookup_alter_eq, Hl in Ht. cbn in Ht. inversion Ht. subst t'. clear Ht.
    destruct (repeating t) eqn:R; [|discriminate Ha].
    exact (H i t Hl Hact).
  - rewrite list_lookup_alter_ne in Ht by exact Hne. eauto.
Qed.

Lemma fired_sound (w : World) (h : nat) (t : Timer) :
  timers_sound w -> timers w !! h = Some t -> active t = true ->
  timers_sound (with_timers (alter (if repeating t then rearm else deactivate) h (timers w)) w).
Proof.
  intros [H1 H2] Hl Hact. split.
  - destruct w. cbn in *. apply tracks_fire; assumption.
  - intros i t' Ht Ha Hh.
    assert (Hop : exists t0, timers w !! i = Some t0 /\ active t0 = true
                             /\ handler t0 = checker_tick).
    { destruct w as [s srcs tms reqs n tr]. cbn in *.
      destruct (decide (h = i)) as [->|Hne].
      - rewrite list_lookup_alter_eq, Hl in Ht. cbn in Ht. inversion Ht. subst t'.
        exists t. split; [exact Hl|]. split; [exact Hact|].
        destruct (repeating t); exact Hh.
      - rewrite list_lookup_alter_ne in Ht by exact Hne. eauto. }
    destruct Hop as (t0 & Hl0 & Ha0 & Hh0).
    rewrite <- (H2 i t0 Hl0 Ha0 Hh0). apply has_opened_view; destruct w; reflexivity.
Qed.

Lemma timer_closure_sound (rt : Runtime) (f : closure) (w : World) :
  timers_sound w ->
  f = ping_expired \/ f = checker_tick \/ f = reconnect_after_error \/ f = resolve_delay ->
  timers_sound (snd (invoke rt f "" w)).
Proof.
  intros H [-> | [-> | [-> | ->]]]; cbn [invoke].
  - rewrite ping_expired_spec. cbn [snd].
    destruct (eventCallback (this w)); [apply restart_sound, H | exact H].
  - unfold checker_tick_body. monad.
    destruct (eventSource (this w)) as [id|]; [|exact H].
    destruct (readyState <$> sources w !! id) as [z|]; [|exact H].
    rewrite is_closed_test. destruct (z =? CLOSED); [apply restart_sound, H | exact H].
  - apply restart_sound, H.
  - apply restart_sound, H.
Qed.

Lemma delay_sound (w : World) :
  timers_sound w -> timers_sound (snd (set_Timeout resolve_delay 2000 w)).
Proof.
  intros [H1 H2]. destruct w as [s srcs tms reqs n tr]. split; cbn in *.
  - intros i t Hl Ha.
    destruct (lookup_snoc _ _ _ _ Hl) as [Hl'|[_ ->]]; [eauto | repeat split].
  - intros i t Hl Ha Hh.
    destruct (lookup_snoc _ _ _ _ Hl) as [Hl'|[_ ->]]; [|discriminate Hh].
    exact (H2 i t Hl' Ha Hh).
Qed.

Lemma settle_sound (f : nat) (r : fetch_result) (w : World) :
  timers_sound w -> timers_sound (settle f r w).
Proof.
  intros H. unfold settle. destruct (requests w !! f) as [q|]; [|exact H].
  assert (Ha : timers_sound (with_requests (alter completed f (requests w)) w)).
  { eapply sound_view; [|exact H]. destruct w. repeat split. }
  pose proof (sound_view _ _ (same_watch_login_chain r _) Ha) as Hc.
  destruct (login_chain r _) as [[u|e] w1]; cbn [snd] in Hc; destruct (awaited_by q).
  - exact Hc.
  - apply delay_sound, Hc.
  - eapply sound_view; [apply same_watch_emit | exact Hc].
  - eapply sound_view; [apply same_watch_emit | exact Hc].
Qed.

Lemma set_readyState_sound (id : nat) (r : Z) (w : World) :
  timers_sound w -> r <> CONNECTING -> timers_sound (set_readyState id r w).
Proof.
  intros [H1 H2] Hr. split.
  - destruct w. exact H1.
  - intros h t Hl Ha Hh.
    assert (Hop : has_opened w = true) by (destruct w; eapply H2; eauto).
    clear - Hop Hr. destruct w as [s srcs tms reqs n tr]. unfold has_opened in *. cbn in *.
    destruct (eventSource s) as [k|]; [|discriminate].
    destruct (decide (id = k)) as [->|Hne].
    + rewrite list_lookup_alter_eq. destruct (srcs !! k); [|discriminate]. cbn.
      apply negb_true_iff, Z.eqb_neq, Hr.
    + rewrite list_lookup_alter_ne by exact Hne. exact Hop.
Qed.

(** The transport opens the current connection, and no other. *)
Lemma step_open (rt : Runtime) (options : option sseOptions) (w w' : World) (id : nat) :
  reachable rt options w ->
  step rt w (es_open id) = Some w' ->
  eventSource (this w) = Some id /\
  (exists es, sources w !! id = Some es /\ readyState es = CONNECTING) /\
  w' = run_handler rt "" (set_readyState id OPEN w) (open_listener id).
Proof.
  intros Hr Hs. cbn [step] in Hs.
  destruct (sources w !! id) as [es|] eqn:E; [|discriminate].
  destruct (readyState es =? CONNECTING) eqn:R; [|discriminate].
  apply Z.eqb_eq in R.
  pose proof (one_connection_reachable rt options w Hr) as Hone.
  assert (Hid : eventSource (this w) = Some id).
  { apply (live_connection_is_current w id es Hone E). rewrite R. discriminate. }
  destruct Hone as [_ H2].
  destruct (H2 id Hid) as (es' & E' & _ & Ho & _).
  rewrite E in E'. inversion E'. subst es'.
  split; [exact Hid|]. split; [eauto|].
  inversion Hs. unfold dispatch.
  assert (Es : sources (set_readyState id OPEN w) !! id = Some (with_readyState OPEN es)).
  { destruct w. cbn in *. rewrite list_lookup_alter_eq, E. reflexivity. }
  rewrite Es. cbn [listeners_for on_open with_readyState]. rewrite Ho. reflexivity.
Qed.

(** *** Every turn *)

Lemma timers_sound_step
    (rt : Runtime) (options : option sseOptions) (w w' : World) (e : event) :
  reachable rt options w -> timers_sound w -> step rt w e = Some w' -> timers_sound w'.
Proof.
  intros Hr H Hs. destruct e.
  - cbn [step] in Hs. apply Some_inj in Hs; subst w'. eapply sound_view; [|exact H].
    apply same_watch_drop. unfold login. apply same_watch_loginHashed.
  - cbn [step] in Hs. apply Some_inj in Hs; subst w'. eapply sound_view; [|exact H].
    apply same_watch_drop, same_watch_loginHashed.
  - cbn [step] in Hs. apply Some_inj in Hs; subst w'. eapply sound_view; [|exact H].
    apply same_watch_drop, same_watch_hubLogin.
  - cbn [step] in Hs. apply Some_inj in Hs; subst w'. eapply sound_view; [|exact H].
    apply same_watch_drop, same_watch_retryLogin.
  - cbn [step] in Hs. apply Some_inj in Hs; subst w'. eapply sound_view; [|exact H].
    destruct w. repeat split.
  - cbn [step] in Hs. apply Some_inj in Hs; subst w'. apply start_sound, H.
  - cbn [step] in Hs. apply Some_inj in Hs; subst w'. pose proof (retry_sound w H) as H'.
    destruct (retryWithNewAccessToken w) as [[u|e] w1]; cbn [snd] in H'; [exact H'|].
    eapply sound_view; [apply same_watch_emit | exact H'].
  - cbn [step] in Hs. apply Some_inj in Hs; subst w'. unfold stop. apply closeEventSource_sound.
    eapply sound_view; [|exact H]. destruct w. repeat split.
  - cbn [step] in Hs. apply Some_inj in Hs; subst w'. apply closeEventSource_sound, H.
  - destruct (step_open rt options w w' id Hr Hs) as (Hid & (es & Hes & Hc) & ->).
    apply run_handler_sound. cbn [invoke].
    assert (Hno : forall h t, timers w !! h = Some t -> active t = true ->
                    handler t <> checker_tick).
    { intros h t Hl Ha Hh. pose proof (proj2 H h t Hl Ha Hh) as Hop.
      unfold has_opened in Hop. rewrite Hid, Hes, Hc in Hop. discriminate Hop. }
    apply open_listener_sound.
    + destruct w. exact (proj1 H).
    + destruct w. exact Hno.
    + unfold has_opened. destruct w as [s srcs tms reqs n tr]. cbn in *.
      rewrite Hid, list_lookup_alter_eq, Hes. reflexivity.
  - destruct (step_message rt options w w' id data Hr Hs) as [_ ->].
    apply run_handler_sound. cbn [invoke]. apply message_listener_sound, H.
  - destruct (step_error rt options w w' id fatal Hr Hs) as (_ & _ & ->).
    apply run_handler_sound. cbn [invoke]. apply error_listener_sound.
    destruct w. exact (proj1 H).
  - cbn [step] in Hs.
    destruct (sources w !! id) as [es|]; [|discriminate].
    destruct (readyState es =? CLOSED); [discriminate|].
    apply Some_inj in Hs; subst w'. apply set_readyState_sound; [exact H | discriminate].
  - cbn [step] in Hs.
    destruct (requests w !! f) as [q|]; [|discriminate].
    destruct (pending q); [|discriminate].
    apply Some_inj in Hs; subst w'. apply settle_sound, H.
  - cbn [step] in Hs.
    destruct (timers w !! h) as [t|] eqn:Hl; [|discriminate].
    destruct (active t) eqn:Ha; [|discriminate].
    destruct (due t <=? now w); [|discriminate].
    apply Some_inj in Hs; subst w'. unfold fire. apply run_handler_sound, timer_closure_sound.
    + apply fired_sound; assumption.
    + pose proof (proj1 H h t Hl Ha) as Hk. unfold tracked_as in Hk.
      destruct (handler t); try contradiction; auto.
  - cbn [step] in Hs. destruct (_ && _); [|discriminate].
    apply Some_inj in Hs; subst w'. eapply sound_view; [|exact H]. destruct w. repeat split.
Qed.

Lemma timers_sound_run (rt : Runtime) (options : option sseOptions) (es : list event) :
  forall w w', reachable rt options w -> timers_sound w -> run rt w es = Some w' ->
    timers_sound w'.
Proof.
  induction es as [|e es IH]; intros w w' Hr H Hrun; cbn [run] in Hrun.
  - inversion Hrun. subst. exact H.
  - destruct (step rt w e) as [w1|] eqn:E; [|discriminate].
    apply (IH w1 w'); [|eapply timers_sound_step; eauto|exact Hrun].
    eapply reachable_step; eauto.
Qed.

Lemma timers_sound_reachable (rt : Runtime) (options : option sseOptions) (w : World) :
  reachable rt options w -> timers_sound w.
Proof.
  intros [es Hr].
  apply (timers_sound_run rt options es (new_session rt options) w); [| |exact Hr].
  - exists []. reflexivity.
  - split; intros h t Hl; discriminate Hl.
Qed.

(** X13. In every reachable world each pending timer is one of four:
    the heartbeat (single shot, 40 s), which is the one behind
    [pingTimeout]; the liveness poll (every second), the one behind
    [checkerInterval]; the reconnect after an error (single shot, 2 s), the
    one behind [reconnectTimeout]; or the two seconds a token refresh waits,
    which no handle refers to. So at most one heartbeat, one poll and one
    reconnect are pending at a time, and [_clearPendingActions] reaches all
    three. The poll is pending only while the current connection has been
    open. *)
Theorem pending_timers_are_tracked
    (rt : Runtime) (options : option sseOptions) (w : World) :
  reachable rt options w ->
  (forall h t, timers w !! h = Some t -> active t = true ->
     (handler t = ping_expired /\ pingTimeout (this w) = Some h
      /\ repeating t = false /\ delay t = 40000) \/
     (handler t = checker_tick /\ checkerInterval (this w) = Some h
      /\ repeating t = true /\ delay t = 1000) \/
     (handler t = reconnect_after_error /\ reconnectTimeout (this w) = Some h
      /\ repeating t = false /\ delay t = 2000) \/
     (handler t = resolve_delay /\ repeating t = false /\ delay t = 2000)) /\
  (forall h1 h2 t1 t2,
     timers w !! h1 = Some t1 -> active t1 = true ->
     timers w !! h2 = Some t2 -> active t2 = true ->
     handler t1 = handler t2 -> handler t1 <> resolve_delay -> h1 = h2) /\
  (forall h t, timers w !! h = Some t -> active t = true -> handler t = checker_tick ->
     exists k es, eventSource (this w) = Some k /\ sources w !! k = Some es
                  /\ readyState es <> CONNECTING).
Proof.
  intros Hr. destruct (timers_sound_reachable rt options w Hr) as [H1 H2].
  assert (Hk : forall h t, timers w !! h = Some t -> active t = true ->
     (handler t = ping_expired /\ pingTimeout (this w) = Some h
      /\ repeating t = false /\ delay t = 40000) \/
     (handler t = checker_tick /\ checkerInterval (this w) = Some h
      /\ repeating t = true /\ delay t = 1000) \/
     (handler t = reconnect_after_error /\ reconnectTimeout (this w) = Some h
      /\ repeating t = false /\ delay t = 2000) \/
     (handler t = resolve_delay /\ repeating t = false /\ delay t = 2000)).
  { intros h t Hl Ha. pose proof (H1 h t Hl Ha) as Ht. unfold tracked_as in Ht.
    destruct (handler t); try contradiction; auto 10. }
  split; [exact Hk|]. split.
  - intros h1 h2 t1 t2 Hl1 Ha1 Hl2 Ha2 He Hn.
    destruct (Hk h1 t1 Hl1 Ha1) as [(A & B & _)|[(A & B & _)|[(A & B & _)|(A & _)]]];
      destruct (Hk h2 t2 Hl2 Ha2) as [(C & D & _)|[(C & D & _)|[(C & D & _)|(C & _)]]];
      congruence.
  - intros h t Hl Ha Hh. pose proof (H2 h t Hl Ha Hh) as Hop. unfold has_opened in Hop.
    destruct (eventSource (this w)) as [k|]; [|discriminate].
    destruct (sources w !! k) as [es|] eqn:E; [|discriminate].
    exists k, es. split; [reflexivity|]. split; [exact E|].
    apply negb_true_iff, Z.eqb_neq in Hop. exact Hop.
Qed.

Lemma pending_timers_are_tracked_witness :
  timers streaming_world !! 1%nat = Some (poll_timer 1000) /\
  checkerInterval (this streaming_world) = Some 1%nat /\
  exists k es, eventSource (this streaming_world) = Some k
               /\ sources streaming_world !! k = Some es /\ readyState es <> CONNECTING.
Proof.
  assert (Hl : timers streaming_world !! 1%nat = Some (poll_timer 1000))
    by (vm_compute; reflexivity).
  destruct (pending_timers_are_tracked demo_runtime None streaming_world
              streaming_world_reachable) as (H1 & _ & H3).
  split; [exact Hl|]. split.
  - destruct (H1 1%nat _ Hl eq_refl) as [(A & _)|[(_ & B & _)|[(A & _)|(A & _)]]];
      try discriminate A. exact B.
  - exact (H3 1%nat _ Hl eq_refl eq_refl).
Defined.

(* ================================================================== *)
(** ** The liveness poll *)
(* ================================================================== *)

Lemma one_connection_view (w w' : World) :
  eventSource (this w') = eventSource (this w) ->
  listeners (this w') = listeners (this w) ->
  sources w' = sources w -> one_connection w -> one_connection w'.
Proof.
  intros E1 E2 E3. unfold one_connection, wired. rewrite E1, E2, E3. auto.
Qed.




(* ================================================================== *)
(** ** Properties kept by every turn but those of some calls *)
(* ================================================================== *)

(** As [Preservation], for properties that a login or [stop] may break,
    the calls of the owner being let through by [allowed], and for
    properties that the [resolve()] of the open listener may break. *)
Section Turns.

Context (rt : Runtime).
Variable P : World -> Prop.
Variable allowed : event -> bool.

Hypothesis T_emit : forall e, (forall k, e <> StartResolved k) -> stable P (emit e).
Hypothesis T_accessToken : forall v, stable P (assign (set_accessToken v)).
Hypothesis T_checkerInterval : forall v, stable P (assign (set_checkerInterval v)).
Hypothesis T_reconnectTimeout : forall v, stable P (assign (set_reconnectTimeout v)).
Hypothesis T_cancel : forall h, stable P (cancel h).
Hypothesis T_set_Timeout : forall f ms, keeps P (set_Timeout f ms).
Hypothesis T_set_Interval : forall f ms, keeps P (set_Interval f ms).
Hypothesis T_requests : forall v, stable P (with_requests v).
Hypothesis T_messageReceived : stable P _messageReceived.
Hypothesis T_closeEventSource : stable P closeEventSource.
Hypothesis T_start : forall cb, keeps P (start cb).
Hypothesis T_retryLogin : keeps P retryLogin.
Hypothesis T_now : forall t, stable P (with_now t).
Hypothesis T_readyState : forall id r, stable P (set_readyState id r).
Hypothesis T_fire : forall h f, stable P (fun w => with_timers (alter f h (timers w)) w).
Hypothesis T_login :
  forall m p, allowed (call_login m p) = true -> keeps P (login rt m p).
Hypothesis T_loginHashed :
  forall m p, allowed (call_loginHashed m p) = true -> keeps P (loginHashed m p).
Hypothesis T_hubLogin :
  forall i t, allowed (call_hubLogin i t) = true -> keeps P (hubLogin i t).
Hypothesis T_stop : allowed call_stop = true -> stable P stop.

Ltac emitted := apply T_emit; [intros ?; discriminate | try assumption].

Lemma T_drop (f : World -> promise * World) :
  keeps P f -> stable P (fun w => drop (f w)).
Proof.
  intros Hf w H. specialize (Hf w H). unfold drop.
  destruct (f w) as [[e|k|q] w']; cbn in *; try emitted; exact Hf.
Qed.

Lemma T_restart : stable P restart.
Proof.
  intros w H. unfold restart.
  exact (T_drop (start (eventCallback (this w))) (T_start _) w H).
Qed.

Lemma T_call_eventCallback v : keeps P (call_eventCallback v).
Proof.
  unfold call_eventCallback.
  keeps_body ltac:(apply keeps_lift; intros ? ?; emitted).
Qed.

Lemma T_then_restart p : stable P (then_restart p).
Proof.
  intros w H. destruct p; cbn; [emitted | | apply T_requests]; exact H.
Qed.

Lemma T_retryWithNewAccessToken : keeps P retryWithNewAccessToken.
Proof.
  unfold retryWithNewAccessToken.
  keeps_body ltac:(first [ apply T_call_eventCallback
                         | apply keeps_lift, T_closeEventSource
                         | apply keeps_call, T_retryLogin
                         | apply keeps_lift, T_then_restart ]).
Qed.

Lemma T_login_chain r : keeps P (login_chain r).
Proof.
  unfold login_chain, login_then, login_catch.
  keeps_body ltac:(apply keeps_lift, T_accessToken).
Qed.

(** The closures other than the open listener. *)
Lemma T_invoke_other f data :
  (forall k, f <> open_listener k) -> keeps P (invoke rt f data).
Proof.
  intros Hf. destruct f; cbn [invoke].
  - apply keeps_ret.
  - exfalso. apply (Hf k). reflexivity.
  - unfold message_listener_body, parse, auth_signal.
    keeps_body ltac:(first [ apply T_retryWithNewAccessToken
                           | apply T_call_eventCallback
                           | apply keeps_lift, T_messageReceived ]).
  - unfold error_listener_body.
    keeps_body ltac:(first [ apply keeps_lift; intros ? ?; emitted; apply T_cancel; assumption
                           | apply keeps_lift, T_closeEventSource
                           | apply keeps_call, T_set_Timeout
                           | apply keeps_lift, T_reconnectTimeout ]).
  - unfold ping_expired_body. keeps_body ltac:(apply keeps_lift, T_restart).
  - unfold checker_tick_body. keeps_body ltac:(apply keeps_lift, T_restart).
  - apply keeps_lift, T_restart.
  - apply keeps_lift, T_restart.
Qed.

Lemma T_run_handler_other data f :
  (forall k, f <> open_listener k) -> stable P (fun w => run_handler rt data w f).
Proof.
  intros Hf w H. unfold run_handler.
  pose proof (T_invoke_other f data Hf w H) as H'.
  destruct (invoke rt f data w) as [[a|e] w']; cbn in H'; try emitted; exact H'.
Qed.

Lemma T_settle f r : stable P (settle f r).
Proof.
  intros w H. unfold settle.
  destruct (requests w !! f) as [q|]; [|exact H].
  pose proof (T_login_chain r _ (T_requests (alter completed f (requests w)) w H)) as H'.
  destruct (login_chain r _) as [[a|e] w']; cbn in H';
    destruct (awaited_by q); try (emitted; exact H'); try exact H'.
  apply T_set_Timeout. exact H'.
Qed.

Lemma T_step_quiet w e w' :
  P w -> allowed e = true -> runs_closure e = false -> step rt w e = Some w' -> P w'.
Proof.
  intros H Ha Hq Hs. destruct e; try discriminate Hq; cbn [step] in Hs.
  - inversion Hs. exact (T_drop _ (T_login _ _ Ha) w H).
  - inversion Hs. exact (T_drop _ (T_loginHashed _ _ Ha) w H).
  - inversion Hs. exact (T_drop _ (T_hubLogin _ _ Ha) w H).
  - inversion Hs. exact (T_drop _ T_retryLogin w H).
  - inversion Hs. apply T_accessToken, H.
  - inversion Hs. exact (T_drop _ (T_start _) w H).
  - inversion Hs. pose proof (T_retryWithNewAccessToken w H) as H'.
    destruct (retryWithNewAccessToken w) as [[a|e] w'']; cbn in H';
      try emitted; exact H'.
  - inversion Hs. apply (T_stop Ha), H.
  - inversion Hs. apply T_closeEventSource, H.
  - destruct (sources w !! id) as [es|] eqn:E; [|discriminate].
    destruct (readyState es =? CLOSED) eqn:R; [discriminate|].
    inversion Hs. apply T_readyState, H.
  - destruct (requests w !! f) as [q|]; [|discriminate].
    destruct (pending q); [|discriminate].
    inversion Hs. apply T_settle, H.
  - destruct (_ && _); [|discriminate].
    inversion Hs. apply T_now, H.
Qed.

(** A turn from a reachable world: the transport talks to the listeners
    of the current connection only, and the timers run the four closures
    made for them. What the open listener does to [P] is left to be shown,
    for the connection that opens. *)
Lemma T_step_reached options w e w' :
  reachable rt options w -> P w -> allowed e = true ->
  (forall id, e = es_open id -> eventSource (this w) = Some id ->
     P (snd (open_listener_body id (set_readyState id OPEN w)))) ->
  step rt w e = Some w' -> P w'.
Proof.
  intros Hr H Ha Hopen Hs.
  destruct (runs_closure e) eqn:Hq; [|eapply T_step_quiet; eauto].
  destruct e; try discriminate Hq.
  - destruct (step_open rt options w w' id Hr Hs) as (Hid & _ & ->).
    unfold run_handler. cbn [invoke]. rewrite open_listener_spec.
    pose proof (Hopen id eq_refl Hid) as Ho. rewrite open_listener_spec in Ho. exact Ho.
  - destruct (step_message rt options w w' id data Hr Hs) as [_ ->].
    apply T_run_handler_other; [intros k; discriminate | exact H].
  - destruct (step_error rt options w w' id fatal Hr Hs) as (_ & _ & ->).
    apply T_run_handler_other; [intros k; discriminate | apply T_readyState, H].
  - cbn [step] in Hs.
    destruct (timers w !! h) as [t|] eqn:Hl; [|discriminate].
    destruct (active t) eqn:Hact; [|discriminate].
    destruct (due t <=? now w); [|discriminate].
    apply Some_inj in Hs. subst w'. unfold fire. apply T_run_handler_other.
    + destruct (timers_sound_reachable rt options w Hr) as [Htr _].
      pose proof (Htr h t Hl Hact) as Hk. unfold tracked_as in Hk.
      intros k Hh. rewrite Hh in Hk. exact Hk.
    + apply (T_fire h (if repeating t then rearm else deactivate)), H.
Qed.

Lemma T_run_reached options es :
  (forall w id, reachable rt options w -> P w -> eventSource (this w) = Some id ->
     P (snd (open_listener_body id (set_readyState id OPEN w)))) ->
  forall w w', reachable rt options w -> P w -> forallb allowed es = true ->
    run rt w es = Some w' -> P w'.
Proof.
  intros Hopen. induction es as [|e es IH]; intros w w' Hr H Ha Hrun; cbn [run] in Hrun.
  - inversion Hrun. subst. exact H.
  - cbn [forallb] in Ha. apply andb_true_iff in Ha as [Ha1 Ha2].
    destruct (step rt w e) as [w1|] eqn:E; [|discriminate].
    apply (IH w1 w'); [eapply reachable_step; eauto| |exact Ha2|exact Hrun].
    eapply T_step_reached; eauto.
Qed.

(** When the [resolve()] of the open listener is harmless too, every turn
    keeps [P], from any world. *)
Hypothesis T_resolve : forall k, stable P (emit (StartResolved k)).

Lemma T_invoke f data : keeps P (invoke rt f data).
Proof.
  destruct f; try (apply T_invoke_other; intros ?; discriminate).
  cbn [invoke]. unfold open_listener_body.
  keeps_body ltac:(first [ apply keeps_lift, T_messageReceived
                         | apply keeps_call, T_set_Interval
                         | apply keeps_lift, T_checkerInterval
                         | apply keeps_lift, T_resolve ]).
Qed.

Lemma T_run_handler data f : stable P (fun w => run_handler rt data w f).
Proof.
  intros w H. unfold run_handler.
  pose proof (T_invoke f data w H) as H'.
  destruct (invoke rt f data w) as [[a|e] w']; cbn in H'; try emitted; exact H'.
Qed.

Lemma T_dispatch id k data : stable P (dispatch rt id k data).
Proof.
  intros w H. unfold dispatch.
  destruct (sources w !! id) as [es|]; [|exact H].
  generalize dependent w. induction (listeners_for k es) as [|f l IH]; intros w H.
  - exact H.
  - cbn. apply IH. apply T_run_handler, H.
Qed.

Lemma T_step w e w' : P w -> allowed e = true -> step rt w e = Some w' -> P w'.
Proof.
  intros H Ha Hs.
  destruct (runs_closure e) eqn:Hq; [|eapply T_step_quiet; eauto].
  destruct e; try discriminate Hq; cbn [step] in Hs.
  - destruct (sources w !! id) as [es|] eqn:E; [|discriminate].
    destruct (readyState es =? CONNECTING) eqn:R; [|discriminate].
    inversion Hs. apply T_dispatch, T_readyState, H.
  - destruct (sources w !! id) as [es|] eqn:E; [|discriminate].
    destruct (readyState es =? OPEN) eqn:R; [|discriminate].
    inversion Hs. apply T_dispatch, H.
  - destruct (sources w !! id) as [es|] eqn:E; [|discriminate].
    destruct (readyState es =? CLOSED) eqn:R; [discriminate|].
    inversion Hs. apply T_dispatch, T_readyState, H.
  - destruct (timers w !! h) as [t|] eqn:E; [|discriminate].
    destruct (active t && (due t <=? now w)); [|discriminate].
    inversion Hs. unfold fire. apply T_run_handler.
    apply (T_fire h (if repeating t then rearm else deactivate)), H.
Qed.

Lemma T_run es : forall w w',
  P w -> forallb allowed es = true -> run rt w es = Some w' -> P w'.
Proof.
  induction es as [|e es IH]; intros w w' H Ha Hr; cbn [run] in Hr.
  - inversion Hr. subst. exact H.
  - cbn [forallb] in Ha. apply andb_true_iff in Ha as [Ha1 Ha2].
    destruct (step rt w e) as [w1|] eqn:E; [|discriminate].
    eapply IH; [|exact Ha2|exact Hr]. eapply T_step; eauto.
Qed.

End Turns.

(** The same for a property of the fields of the session alone. *)
Section FieldTurns.

Context (rt : Runtime).
Variable Q : CrownstoneSSE -> Prop.
Variable allowed : event -> bool.

Hypothesis Q_accessToken : forall v s, Q s -> Q (set_accessToken v s).
Hypothesis Q_checkerInterval : forall v s, Q s -> Q (set_checkerInterval v s).
Hypothesis Q_reconnectTimeout : forall v s, Q s -> Q (set_reconnectTimeout v s).
Hypothesis Q_pingTimeout : forall v s, Q s -> Q (set_pingTimeout v s).
Hypothesis Q_eventSource : forall v s, Q s -> Q (set_eventSource v s).
Hypothesis Q_listeners : forall v s, Q s -> Q (set_listeners v s).
Hypothesis Q_eventCallback : forall v s, Q s -> Q (set_eventCallback v s).
Hypothesis Q_retryLogin : keeps (fun w => Q (this w)) retryLogin.
Hypothesis Q_login :
  forall m p, allowed (call_login m p) = true -> keeps (fun w => Q (this w)) (login rt m p).
Hypothesis Q_loginHashed :
  forall m p, allowed (call_loginHashed m p) = true ->
    keeps (fun w => Q (this w)) (loginHashed m p).
Hypothesis Q_hubLogin :
  forall i t, allowed (call_hubLogin i t) = true -> keeps (fun w => Q (this w)) (hubLogin i t).
Hypothesis Q_stop : allowed call_stop = true -> forall s, Q s -> Q (set_autoreconnect false s).

Lemma prepared_this (cb : option callback) (w : World) :
  this (prepared cb w) = set_eventSource None (set_eventCallback cb (this w)).
Proof.
  destruct (eventSource (this w)) as [old|] eqn:E.
  - rewrite (prepared_with_handle cb w old E). reflexivity.
  - rewrite (prepared_without_handle cb w E). cbn [this].
    destruct (this w). cbn in *. rewrite E. reflexivity.
Qed.

Lemma started_this (cb : option callback) (w : World) :
  exists l e,
    this (started cb w) = set_listeners l (set_eventSource e (set_eventCallback cb (this w))).
Proof.
  on_started cb w; cbn [this]; rewrite prepared_this.
  - eexists. eexists. reflexivity.
  - exists (listeners (this w)), None. destruct (this w). reflexivity.
Qed.

Lemma Q_run (es : list event) (w w' : World) :
  Q (this w) -> forallb allowed es = true -> run rt w es = Some w' -> Q (this w').
Proof.
  apply (T_run rt (fun w => Q (this w)) allowed).
  - intros e _. by_computing.
  - intros v w0 H. destruct w0. apply Q_accessToken, H.
  - intros v w0 H. destruct w0. apply Q_checkerInterval, H.
  - intros v w0 H. destruct w0. apply Q_reconnectTimeout, H.
  - intros h. by_computing.
  - intros f ms. by_computing.
  - intros f ms. by_computing.
  - intros v. by_computing.
  - intros w0 H. rewrite _messageReceived_spec. apply Q_pingTimeout, H.
  - intros w0 H. rewrite closeEventSource_this. apply Q_eventSource, H.
  - intros cb w0 H. rewrite start_spec. destruct (refuses w0); [exact H|].
    cbn [snd]. destruct (started_this cb w0) as (l & e & ->).
    apply Q_listeners, Q_eventSource, Q_eventCallback, H.
  - exact Q_retryLogin.
  - intros t. by_computing.
  - intros id r. by_computing.
  - intros h f. by_computing.
  - exact Q_login.
  - exact Q_loginHashed.
  - exact Q_hubLogin.
  - intros Ha w0 H. unfold stop. rewrite closeEventSource_this.
    apply Q_eventSource. destruct w0. apply (Q_stop Ha), H.
  - intros k. by_computing.
Qed.

End FieldTurns.

(* ================================================================== *)
(** ** Auto-reconnect, once off *)
(* ================================================================== *)

Lemma autoreconnect_off_run (rt : Runtime) (es : list event) (w w' : World) :
  autoreconnect (this w) = false -> run rt w es = Some w' ->
  autoreconnect (this w') = false.
Proof.
  intros H Hr.
  apply (Q_run rt (fun s => autoreconnect s = false) (fun _ => true)) with (es := es) (w := w);
    try (intros; assumption); try exact H; try exact Hr.
  - intros w0 H0. rewrite retryLogin_unfold.
    destruct (cachedLoginData (this w0)) as [d|]; [|exact H0].
    destruct (hub d) as [h|]; [rewrite hubLogin_spec; exact H0|].
    destruct (user d) as [u|]; [rewrite loginHashed_spec; exact H0|exact H0].
  - intros m p _ w0 H0. unfold login. rewrite loginHashed_spec. exact H0.
  - intros m p _ w0 H0. rewrite loginHashed_spec. exact H0.
  - intros i t _ w0 H0. rewrite hubLogin_spec. exact H0.
  - intros _ s _. reflexivity.
  - clear. induction es; [reflexivity|assumption].
Qed.

(** X10. [stop()] switches the token refresh off for good: nothing sets
    [autoreconnect] back, not even a later [start]. So in every world
    reached after a [stop()], a frame with the token-expired signal ends in
    the terminal event instead of a new login. *)
Theorem stop_disables_refresh_for_good (rt : Runtime) (w w' : World) (es : list event) :
  run rt (stop w) es = Some w' ->
  autoreconnect (this w') = false /\
  (forall data m cb,
     truthy (JStr data) = true -> JSON_parse rt data = Some m ->
     eventCallback (this w') = Some cb -> triggers_refresh m = true ->
     message_listener_body rt data w'
     = (Normal tt,
        emit (Callback cb refresh_disabled_event) (closeEventSource (delivered cb m w')))).
Proof.
  intros Hr.
  assert (Hoff : autoreconnect (this w') = false).
  { apply (autoreconnect_off_run rt es (stop w) w'); [|exact Hr].
    apply stop_clears. }
  split; [exact Hoff|].
  intros data m cb Hd Hp Hcb Ht.
  rewrite (message_listener_retry rt data m cb w' Hd Hp Hcb Ht).
  apply retryWithNewAccessToken_disabled.
  - unfold delivered. rewrite _messageReceived_spec. exact Hcb.
  - left. unfold delivered. rewrite _messageReceived_spec. exact Hoff.
Qed.

Lemma stop_disables_refresh_for_good_witness :
  exists w',
    run demo_runtime (stop streaming_world) [call_start 2%nat; es_open 1] = Some w' /\
    autoreconnect (this w') = false /\
    (if cachedLoginData (this w') is Some _ then true else false) = true /\
    last (trace (snd (message_listener_body demo_runtime token_expired_text w')))
    = Some (Callback 2%nat refresh_disabled_event).
Proof.
  eexists. split; [vm_compute; reflexivity|].
  match goal with |- autoreconnect (this ?x) = _ /\ _ => set (w' := x) end.
  destruct (stop_disables_refresh_for_good demo_runtime streaming_world w'
              [call_start 2%nat; es_open 1]) as [H1 H2].
  { vm_compute. reflexivity. }
  split; [exact H1|]. split; [reflexivity|].
  rewrite (H2 token_expired_text (system_401 (JStr "TOKEN_EXPIRED")) 2%nat);
    try (vm_compute; reflexivity).
Defined.

(* ================================================================== *)
(** ** The stored credentials *)
(* ================================================================== *)

Lemma one_credential_cases (d : CachedLoginData) :
  one_credential d = true ->
  (exists u, d = {| user := Some u; hub := None |}) \/
  (exists h, d = {| user := None; hub := Some h |}).
Proof.
  destruct d as [[u|] [h|]]; cbn; try discriminate; eauto.
Qed.

(** [retryLogin] stores the credentials it finds. *)
Lemma retryLogin_keeps_credentials (w : World) :
  credentials_ok w ->
  cachedLoginData (this (snd (retryLogin w))) = cachedLoginData (this w).
Proof.
  intros Hok. rewrite retryLogin_unfold.
  destruct (cachedLoginData (this w)) as [d|] eqn:E; [|exact E].
  destruct (one_credential_cases d (Hok d E)) as [[u ->]|[h ->]]; cbn [hub user].
  - rewrite loginHashed_spec. cbn. destruct u. reflexivity.
  - rewrite hubLogin_spec. cbn. destruct h. reflexivity.
Qed.

Lemma credentials_ok_view (w w' : World) :
  cachedLoginData (this w') = cachedLoginData (this w) -> credentials_ok w -> credentials_ok w'.
Proof. intros E H d Hd. apply H. rewrite <- E. exact Hd. Qed.

Lemma credentials_ok_reachable (rt : Runtime) (options : option sseOptions) (w : World) :
  reachable rt options w -> credentials_ok w.
Proof.
  intros [es Hr].
  pose proof (Q_run rt (fun s => forall d, cachedLoginData s = Some d -> one_credential d = true)
                (fun _ => true)) as HQ.
  cbv beta in HQ. unfold credentials_ok.
  apply HQ with (es := es) (w := new_session rt options); clear HQ;
    try (intros v s H; exact H); try exact Hr.
  - intros w0 H0. apply (credentials_ok_view w0); [|exact H0].
    apply retryLogin_keeps_credentials. exact H0.
  - intros m p _ w0 H0. unfold login. rewrite loginHashed_spec.
    intros d Hd. inversion Hd. reflexivity.
  - intros m p _ w0 H0. rewrite loginHashed_spec.
    intros d Hd. inversion Hd. reflexivity.
  - intros i t _ w0 H0. rewrite hubLogin_spec.
    intros d Hd. inversion Hd. reflexivity.
  - intros d Hd. unfold new_session, constructor in Hd. cbn in Hd.
    destruct (String.eqb _ _); discriminate Hd.
  - clear. induction es; [reflexivity|assumption].
Qed.

(** X11. In every reachable world the stored credentials, if any, hold
    exactly one of [user] and [hub]. So [retryLogin] on stored credentials
    always issues a login request, and stores the same credentials again;
    it never fails with ["NO_CREDENTIALS"]. *)
Theorem stored_credentials_are_usable
    (rt : Runtime) (options : option sseOptions) (w : World) :
  reachable rt options w ->
  (forall d, cachedLoginData (this w) = Some d ->
     (exists u, user d = Some u /\ hub d = None) \/
     (exists h, hub d = Some h /\ user d = None)) /\
  (forall d, cachedLoginData (this w) = Some d ->
     fst (retryLogin w) = AwaitingRequest (length (requests w)) /\
     cachedLoginData (this (snd (retryLogin w))) = Some d) /\
  fst (retryLogin w) <> Rejected (Thrown (JStr "NO_CREDENTIALS")).
Proof.
  intros Hr. pose proof (credentials_ok_reachable rt options w Hr) as Hok.
  split; [|split].
  - intros d Hd. destruct (one_credential_cases d (Hok d Hd)) as [[u ->]|[h ->]]; eauto.
  - intros d Hd. split.
    + rewrite retryLogin_unfold, Hd.
      destruct (one_credential_cases d (Hok d Hd)) as [[u ->]|[h ->]]; cbn [hub user].
      * rewrite loginHashed_spec. reflexivity.
      * rewrite hubLogin_spec. reflexivity.
    + rewrite retryLogin_keeps_credentials by exact Hok. exact Hd.
  - rewrite retryLogin_unfold.
    destruct (cachedLoginData (this w)) as [d|] eqn:Hd; [|discriminate].
    destruct (one_credential_cases d (Hok d Hd)) as [[u ->]|[h ->]]; cbn [hub user].
    + rewrite loginHashed_spec. discriminate.
    + rewrite hubLogin_spec. discriminate.
Qed.

Lemma stored_credentials_are_usable_witness :
  cachedLoginData (this refreshing_world)
  = Some {| user := None; hub := Some {| hubId := "hub1"; hubToken := "tok1" |} |} /\
  fst (retryLogin refreshing_world) = AwaitingRequest 2.
Proof.
  assert (Hr : reachable demo_runtime None refreshing_world).
  { exists until_token_expired. vm_compute. reflexivity. }
  assert (Hd : cachedLoginData (this refreshing_world)
               = Some {| user := None; hub := Some {| hubId := "hub1"; hubToken := "tok1" |} |})
    by (vm_compute; reflexivity).
  split; [exact Hd|].
  destruct (stored_credentials_are_usable demo_runtime None refreshing_world Hr)
    as (_ & H & _).
  exact (proj1 (H _ Hd)).
Defined.

(** X12. Only a login called by the owner changes the stored
    credentials: every other turn of the event loop, the token refresh with
    its [retryLogin] and [stop()] included, leaves them as they are. *)
Theorem credentials_persist
    (rt : Runtime) (options : option sseOptions) (w w' : World) (es : list event) :
  reachable rt options w ->
  forallb (fun e => negb (is_login_call e)) es = true ->
  run rt w es = Some w' ->
  cachedLoginData (this w') = cachedLoginData (this w).
Proof.
  intros Hr Hes Hrun. pose proof (credentials_ok_reachable rt options w Hr) as Hok.
  set (c := cachedLoginData (this w)) in *.
  assert (Hc : forall w0, cachedLoginData (this w0) = c -> credentials_ok w0).
  { intros w0 E. apply (credentials_ok_view w); [exact E|exact Hok]. }
  apply (Q_run rt (fun s => cachedLoginData s = c) (fun e => negb (is_login_call e)))
    with (es := es) (w := w);
    try (intros; assumption); try exact Hes; try exact Hrun; try reflexivity;
    try (intros; discriminate).
  intros w0 H0. rewrite retryLogin_keeps_credentials; [exact H0 | exact (Hc w0 H0)].
Qed.

Lemma credentials_persist_witness :
  exists w',
    run demo_runtime streaming_world
      [es_message 0 token_expired_text;
       settled 1 (fetch_json (JObj [("id", JStr "T2")]));
       elapse 2000; timer_fired 3; es_open 1; call_stop] = Some w' /\
    cachedLoginData (this w')
    = Some {| user := None; hub := Some {| hubId := "hub1"; hubToken := "tok1" |} |}.
Proof.
  eexists. split; [vm_compute; reflexivity|].
  match goal with |- cachedLoginData (this ?x) = _ => set (w' := x) end.
  rewrite (credentials_persist demo_runtime None streaming_world w'
             [es_message 0 token_expired_text;
              settled 1 (fetch_json (JObj [("id", JStr "T2")]));
              elapse 2000; timer_fired 3; es_open 1; call_stop]
             streaming_world_reachable eq_refl).
  - vm_compute. reflexivity.
  - vm_compute. reflexivity.
Defined.

(* ================================================================== *)
(** ** A stopped session stays stopped *)
(* ================================================================== *)

Lemma forallb_alter {A} (P : A -> bool) (f : A -> A) (i : nat) (l : list A) :
  (forall x, P x = true -> P (f x) = true) ->
  forallb P l = true -> forallb P (alter f i l) = true.
Proof.
  intros Hf H. rewrite forallb_lookup in *. intros j x Hx.
  destruct (decide (i = j)) as [->|Hne].
  - rewrite list_lookup_alter_eq in Hx.
    destruct (l !! j) as [y|] eqn:E; cbn in Hx; inversion Hx. eauto.
  - rewrite list_lookup_alter_ne in Hx by exact Hne. eauto.
Qed.

Lemma existsb_false_lookup {A} (P : A -> bool) (l : list A) (i : nat) (x : A) :
  existsb P l = false -> l !! i = Some x -> P x = false.
Proof.
  intros H Hl. destruct (P x) eqn:E; [|reflexivity].
  assert (Hex : existsb P l = true).
  { apply existsb_exists. exists x. split; [|exact E].
    apply list_elem_of_In. eapply list_elem_of_lookup_2, Hl. }
  congruence.
Qed.

Lemma connections_made_app (w w' : World) (more : list Effect) :
  trace w' = (trace w ++ more)%list ->
  forallb (fun e => negb (opens_connection e)) more = true ->
  connections_made w' = connections_made w.
Proof.
  intros E H. unfold connections_made. rewrite E, List.filter_app.
  assert (Hn : List.filter opens_connection more = []).
  { clear E. induction more as [|e more IH]; [reflexivity|].
    cbn in *. apply andb_true_iff in H as [H1 H2].
    destruct (opens_connection e); [discriminate|]. apply IH, H2. }
  rewrite Hn. apply app_nil_r.
Qed.

(** What a turn may change in a stopped session. *)
Lemma dormant_change (w w' : World) (more : list Effect) :
  dormant w ->
  eventSource (this w') = eventSource (this w) ->
  autoreconnect (this w') = autoreconnect (this w) ->
  sources w' = sources w ->
  forallb (fun t => negb (active t)) (timers w') = true ->
  forallb (fun q => negb (awaits_refresh q)) (requests w') = true ->
  trace w' = (trace w ++ more)%list ->
  forallb (fun e => negb (opens_connection e)) more = true ->
  dormant w' /\ connections_made w' = connections_made w.
Proof.
  intros (D1 & D2 & D3 & _ & _) E1 E2 E3 Ht Hq Etr Hm.
  split; [|eapply connections_made_app; eauto].
  unfold dormant. rewrite E1, E2, E3. auto.
Qed.

Lemma inactive_cleared (s : CrownstoneSSE) (l : list Timer) :
  forallb (fun t => negb (active t)) l = true ->
  forallb (fun t => negb (active t)) (cleared_timers s l) = true.
Proof. apply forallb_cleared. reflexivity. Qed.

Lemma no_refresh_snoc (l : list Request) (q : Request) :
  awaited_by q = caller ->
  forallb (fun q => negb (awaits_refresh q)) l = true ->
  forallb (fun q => negb (awaits_refresh q)) (l ++ [q])%list = true.
Proof.
  intros Ha H. rewrite forallb_app, H. cbn. unfold awaits_refresh. rewrite Ha.
  rewrite andb_false_r. reflexivity.
Qed.

Lemma no_refresh_completed (l : list Request) (f : nat) :
  forallb (fun q => negb (awaits_refresh q)) l = true ->
  forallb (fun q => negb (awaits_refresh q)) (alter completed f l) = true.
Proof. apply forallb_alter. intros q _. reflexivity. Qed.

Lemma dormant_login (w : World) (r : promise * World) (s' : CrownstoneSSE) (u : string)
    (b : option jsval) :
  dormant w ->
  eventSource s' = eventSource (this w) -> autoreconnect s' = autoreconnect (this w) ->
  snd r = {| this := s'; sources := sources w; timers := timers w;
             requests := requests w ++
               [{| target := u; method := "POST"; headers := defaultHeaders; body := b;
                   awaited_by := caller; pending := true |}];
             now := now w;
             trace := trace w ++ [Fetch (length (requests w)) u b] |} ->
  fst r = AwaitingRequest (length (requests w)) ->
  dormant (drop r) /\ connections_made (drop r) = connections_made w.
Proof.
  intros D E1 E2 Es Ef. destruct r as [p w1]. cbn [fst snd] in *. subst p w1. cbn [drop].
  apply (dormant_change w _ [Fetch (length (requests w)) u b] D).
  - exact E1.
  - exact E2.
  - reflexivity.
  - apply D.
  - apply no_refresh_snoc; [reflexivity | apply D].
  - reflexivity.
  - reflexivity.
Qed.

Lemma dormant_loginHashed (m p : string) (w : World) :
  dormant w ->
  dormant (drop (loginHashed m p w))
  /\ connections_made (drop (loginHashed m p w)) = connections_made w.
Proof.
  intros D. eapply dormant_login; [exact D| | | |];
    try (rewrite loginHashed_spec; reflexivity); reflexivity.
Qed.

Lemma dormant_hubLogin (i t : string) (w : World) :
  dormant w ->
  dormant (drop (hubLogin i t w))
  /\ connections_made (drop (hubLogin i t w)) = connections_made w.
Proof.
  intros D. eapply dormant_login; [exact D| | | |];
    try (rewrite hubLogin_spec; reflexivity); reflexivity.
Qed.

Lemma dormant_emit (e : Effect) (w : World) :
  dormant w -> opens_connection e = false ->
  dormant (emit e w) /\ connections_made (emit e w) = connections_made w.
Proof.
  intros D He. apply (dormant_change w _ [e] D); try (destruct w; reflexivity).
  - destruct w. apply D.
  - destruct w. apply D.
  - cbn. rewrite He. reflexivity.
Qed.

Lemma dormant_clearPendingActions (w : World) :
  dormant w ->
  dormant (_clearPendingActions w)
  /\ connections_made (_clearPendingActions w) = connections_made w.
Proof.
  intros D. rewrite _clearPendingActions_spec.
  apply (dormant_change w _ [ClearInterval (checkerInterval (this w));
                             ClearTimeout (reconnectTimeout (this w));
                             ClearTimeout (pingTimeout (this w))] D); try reflexivity.
  - cbn [timers]. apply inactive_cleared, D.
  - apply D.
Qed.

Lemma dormant_closeEventSource (w : World) :
  dormant w ->
  dormant (closeEventSource w)
  /\ connections_made (closeEventSource w) = connections_made w.
Proof.
  intros D. rewrite closeEventSource_spec.
  destruct D as (D1 & D'). rewrite D1. apply dormant_clearPendingActions.
  split; assumption.
Qed.

(** With auto-reconnect off the retry path is: close, then hand the
    terminal event to the callback. *)
Lemma retryWithNewAccessToken_off (w : World) :
  autoreconnect (this w) = false ->
  retryWithNewAccessToken w
  = call_eventCallback refresh_disabled_event (closeEventSource w).
Proof.
  intros Hoff.
  assert (Ht : autoreconnect (this (closeEventSource w)) = false)
    by (rewrite closeEventSource_this; exact Hoff).
  unfold retryWithNewAccessToken. unfold bind at 1. unfold lift at 1.
  unfold bind at 1. unfold gets at 1. rewrite Ht. reflexivity.
Qed.

Lemma dormant_retry (w : World) :
  dormant w ->
  let w' := match retryWithNewAccessToken w with
            | (Normal _, w1) => w1
            | (Abrupt e, w1) => emit (Uncaught e) w1
            end in
  dormant w' /\ connections_made w' = connections_made w.
Proof.
  intros D. cbv zeta. rewrite retryWithNewAccessToken_off by apply D.
  destruct (dormant_closeEventSource w D) as [Dc Ec].
  generalize dependent (closeEventSource w). intros w1 Dc Ec.
  unfold call_eventCallback. monad.
  destruct (eventCallback (this w1)).
  - destruct (dormant_emit (Callback c refresh_disabled_event) w1 Dc eq_refl) as [A B].
    split; [exact A | rewrite <- Ec; exact B].
  - destruct (dormant_emit (Uncaught TypeError) w1 Dc eq_refl) as [A B].
    split; [exact A | rewrite <- Ec; exact B].
Qed.

(** A turn that leaves no trace and touches neither timers nor requests. *)
Lemma dormant_silent (w w' : World) :
  dormant w ->
  eventSource (this w') = eventSource (this w) ->
  autoreconnect (this w') = autoreconnect (this w) ->
  sources w' = sources w -> timers w' = timers w -> requests w' = requests w ->
  trace w' = trace w ->
  dormant w' /\ connections_made w' = connections_made w.
Proof.
  intros D E1 E2 E3 E4 E5 E6.
  apply (dormant_change w w' [] D); try assumption.
  - rewrite E4. apply D.
  - rewrite E5. apply D.
  - rewrite E6, app_nil_r. reflexivity.
  - reflexivity.
Qed.

Lemma dormant_closed (w : World) (id : nat) (es : EventSource) :
  dormant w -> sources w !! id = Some es -> readyState es = CLOSED.
Proof. intros (_ & _ & D & _) Hs. apply (D id es Hs). Qed.

Lemma dormant_step (rt : Runtime) (w w' : World) (e : event) :
  dormant w -> is_start_call e = false -> step rt w e = Some w' ->
  dormant w' /\ connections_made w' = connections_made w.
Proof.
  intros D He Hs. destruct e; try discriminate He; cbn [step] in Hs.
  - apply Some_inj in Hs. subst w'. unfold login. apply dormant_loginHashed, D.
  - apply Some_inj in Hs. subst w'. apply dormant_loginHashed, D.
  - apply Some_inj in Hs. subst w'. apply dormant_hubLogin, D.
  - apply Some_inj in Hs. subst w'. rewrite retryLogin_unfold.
    destruct (cachedLoginData (this w)) as [d|].
    + destruct (hub d) as [h|]; [apply dormant_hubLogin, D|].
      destruct (user d) as [u|]; [apply dormant_loginHashed, D|].
      cbn [drop]. apply dormant_emit; [exact D|reflexivity].
    + cbn [drop]. apply dormant_emit; [exact D|reflexivity].
  - apply Some_inj in Hs. subst w'. apply dormant_silent; destruct w; try reflexivity.
    exact D.
  - apply Some_inj in Hs. subst w'. apply dormant_retry, D.
  - apply Some_inj in Hs. subst w'. unfold stop. 
    assert (D0 : dormant (assign (set_autoreconnect false) w)
                 /\ connections_made (assign (set_autoreconnect false) w) = connections_made w).
    { apply dormant_silent; try (destruct w; reflexivity); [exact D|].
      destruct w. cbn. symmetry. apply D. }
    destruct D0 as [D0 E0].
    destruct (dormant_closeEventSource _ D0) as [A B]. split; [exact A|congruence].
  - apply Some_inj in Hs. subst w'. apply dormant_closeEventSource, D.
  - destruct (sources w !! id) as [es|] eqn:E; [|discriminate].
    rewrite (dormant_closed w id es D E) in Hs. discriminate Hs.
  - destruct (sources w !! id) as [es|] eqn:E; [|discriminate].
    rewrite (dormant_closed w id es D E) in Hs. discriminate Hs.
  - destruct (sources w !! id) as [es|] eqn:E; [|discriminate].
    rewrite (dormant_closed w id es D E) in Hs. discriminate Hs.
  - destruct (sources w !! id) as [es|] eqn:E; [|discriminate].
    rewrite (dormant_closed w id es D E) in Hs. discriminate Hs.
  - destruct (requests w !! f) as [q|] eqn:Hq; [|discriminate].
    destruct (pending q) eqn:Hp; [|discriminate].
    apply Some_inj in Hs. subst w'.
    assert (Ha : awaited_by q = caller).
    { destruct D as (_ & _ & _ & _ & Dq). rewrite forallb_lookup in Dq.
      pose proof (Dq f q Hq) as Hn. unfold awaits_refresh in Hn. rewrite Hp in Hn.
      destruct (awaited_by q); [reflexivity|discriminate Hn]. }
    rewrite (settle_caller f r w q Hq Ha).
    assert (Da : dormant (answered f w) /\ connections_made (answered f w) = connections_made w).
    { apply (dormant_change w _ [] D); try (destruct w; reflexivity).
      - destruct w. apply D.
      - destruct w. cbn. apply no_refresh_completed, D.
      - destruct w. cbn. rewrite app_nil_r. reflexivity. }
    destruct Da as [Da Ea].
    destruct (login_chain_cases r) as [[e H]|[id H]]; rewrite H.
    + destruct (dormant_emit (PromiseRejected e) _ Da eq_refl) as [A B].
      split; [exact A|congruence].
    + cbn [snd]. generalize dependent (answered f w). intros w1 Da Ea.
      destruct (dormant_silent w1 (assign (set_accessToken id) w1) Da)
        as [A B]; try (destruct w1; reflexivity).
      split; [exact A|congruence].
  - destruct (timers w !! h) as [t|] eqn:Hl; [|discriminate].
    destruct D as (_ & _ & _ & Dt & _). rewrite forallb_lookup in Dt.
    pose proof (Dt h t Hl) as Hn. apply negb_true_iff in Hn. rewrite Hn in Hs.
    discriminate Hs.
  - destruct (_ && _); [|discriminate]. apply Some_inj in Hs. subst w'.
    apply dormant_silent; destruct w; try reflexivity. exact D.
Qed.

Lemma dormant_run (rt : Runtime) (es : list event) :
  forall w w', dormant w -> forallb (fun e => negb (is_start_call e)) es = true ->
    run rt w es = Some w' ->
    dormant w' /\ connections_made w' = connections_made w.
Proof.
  induction es as [|e es IH]; intros w w' D Hes Hr; cbn [run] in Hr.
  - inversion Hr. subst. auto.
  - cbn [forallb] in Hes. apply andb_true_iff in Hes as [He Hes].
    apply negb_true_iff in He.
    destruct (step rt w e) as [w1|] eqn:E; [|discriminate].
    destruct (dormant_step rt w w1 e D He E) as [D1 E1].
    destruct (IH w1 w' D1 Hes Hr) as [D' E']. split; [exact D'|congruence].
Qed.

(** [stop()] while no token refresh is under way leaves the session
    dormant. *)
Lemma stop_dormant (rt : Runtime) (options : option sseOptions) (w : World) :
  reachable rt options w -> refresh_in_flight w = false -> dormant (stop w).
Proof.
  intros Hr Hn. apply orb_false_iff in Hn as [Hq Ht].
  pose proof (one_connection_reachable rt options w Hr) as Hone.
  destruct (timers_sound_reachable rt options w Hr) as [Htr _].
  destruct (stop_clears w) as (S1 & S2 & _).
  split; [exact S1|]. split; [exact S2|]. split; [|split].
  - unfold stop. apply closeEventSource_idle.
    eapply one_connection_view; [| | |exact Hone]; destruct w; reflexivity.
  - unfold stop.
    destruct (closeEventSource_frame (assign (set_autoreconnect false) w)) as (_ & _ & -> & _).
    apply forallb_lookup. intros i t Hl.
    destruct (active t) eqn:Ha; [|reflexivity]. exfalso.
    assert (Hl' : cleared_timers (this w) (timers w) !! i = Some t)
      by (destruct w; exact Hl).
    destruct (tracks_cleared _ _ Htr i t Hl' Ha) as (Hh & _).
    unfold cleared_timers in Hl'.
    destruct (cancel_in_active _ _ _ _ Hl' Ha) as [Hl1 _].
    destruct (cancel_in_active _ _ _ _ Hl1 Ha) as [Hl2 _].
    destruct (cancel_in_active _ _ _ _ Hl2 Ha) as [Hl3 _].
    pose proof (existsb_false_lookup _ _ _ _ Ht Hl3) as Hf.
    unfold is_refresh_delay in Hf. rewrite Ha, Hh in Hf. discriminate Hf.
  - unfold stop.
    destruct (closeEventSource_frame (assign (set_autoreconnect false) w)) as (-> & _).
    apply forallb_lookup. intros i q Hl.
    assert (Hl' : requests w !! i = Some q) by (destruct w; exact Hl).
    rewrite (existsb_false_lookup _ _ _ _ Hq Hl'). reflexivity.
Qed.

(** X15. [stop()] called while no token refresh is under way is final:
    whatever happens afterwards short of a call of [start] (time passing,
    logins being called and answered, [retryWithNewAccessToken],
    [closeEventSource], [stop] again), the session has no connection, no
    pending timer, auto-reconnect off, and makes no new connection. *)
Theorem stop_is_final_without_refresh
    (rt : Runtime) (options : option sseOptions) (w w' : World) (es : list event) :
  reachable rt options w -> refresh_in_flight w = false ->
  forallb (fun e => negb (is_start_call e)) es = true ->
  run rt (stop w) es = Some w' ->
  eventSource (this w') = None /\
  autoreconnect (this w') = false /\
  (forall id c, sources w' !! id = Some c -> detached c) /\
  existsb active (timers w') = false /\
  refresh_in_flight w' = false /\
  List.filter opens_connection (trace w') = List.filter opens_connection (trace w).
Proof.
  intros Hr Hn Hes Hrun.
  pose proof (stop_dormant rt options w Hr Hn) as D.
  destruct (dormant_run rt es (stop w) w' D Hes Hrun) as [(D1 & D2 & D3 & D4 & D5) E].
  assert (Hact : existsb active (timers w') = false).
  { destruct (existsb active (timers w')) eqn:X; [|reflexivity].
    apply existsb_exists in X as (t & Hin & Ha).
    rewrite forallb_forall in D4. pose proof (D4 t Hin) as Hx. rewrite Ha in Hx.
    discriminate Hx. }
  split; [exact D1|]. split; [exact D2|]. split; [exact D3|]. split; [exact Hact|].
  split.
  - unfold refresh_in_flight. apply orb_false_iff. split.
    + destruct (existsb awaits_refresh (requests w')) eqn:X; [|reflexivity].
      apply existsb_exists in X as (q & Hin & Ha).
      rewrite forallb_forall in D5. pose proof (D5 q Hin) as Hx. rewrite Ha in Hx.
      discriminate Hx.
    + destruct (existsb is_refresh_delay (timers w')) eqn:X; [|reflexivity].
      apply existsb_exists in X as (t & Hin & Ha).
      rewrite forallb_forall in D4. pose proof (D4 t Hin) as Hx.
      unfold is_refresh_delay in Ha. apply andb_true_iff in Ha as [Ha _].
      rewrite Ha in Hx. discriminate Hx.
  - unfold connections_made in E. rewrite E.
    assert (Es : connections_made (stop w) = connections_made w).
    { unfold stop. unfold connections_made.
      rewrite closeEventSource_spec.
      destruct (eventSource (this (assign (set_autoreconnect false) w))).
      - cbn [trace]. rewrite List.filter_app. cbn. rewrite app_nil_r.
        destruct w; reflexivity.
      - rewrite _clearPendingActions_spec. cbn [trace]. rewrite List.filter_app. cbn.
        rewrite app_nil_r. destruct w; reflexivity. }
    exact Es.
Qed.

Lemma stop_is_final_without_refresh_witness :
  exists w',
    refresh_in_flight streaming_world = false /\
    run demo_runtime (stop streaming_world) after_stop = Some w' /\
    accessToken (this w') = JStr "T2" /\
    eventSource (this w') = None /\
    existsb active (timers w') = false /\
    List.filter opens_connection (trace w')
    = [NewEventSource 0 "https://events.ownstone.org/sse?accessToken=T1&projectName=crownstone-lib-nodejs-sse-5.0.0-no_project_name"].
Proof.
  assert (Hrun : exists w', run demo_runtime (stop streaming_world) after_stop = Some w'
                            /\ accessToken (this w') = JStr "T2").
  { eexists. split; vm_compute; reflexivity. }
  destruct Hrun as (w' & Hrun & Htok). exists w'.
  destruct (stop_is_final_without_refresh demo_runtime None streaming_world w' after_stop
              streaming_world_reachable eq_refl eq_refl Hrun) as (H1 & _ & _ & H4 & _ & H6).
  split; [reflexivity|]. split; [exact Hrun|]. split; [exact Htok|].
  split; [exact H1|]. split; [exact H4|].
  rewrite H6. vm_compute. reflexivity.
Defined.


(* ================================================================== *)
(** ** Token refresh switched on: logging in again *)
(* ================================================================== *)





(* ================================================================== *)
(** ** The promise of [start] *)
(* ================================================================== *)

Lemma resolved_app (k : nat) (w w' : World) (more : list Effect) :
  trace w' = (trace w ++ more)%list ->
  forallb (fun e => negb (is_resolution k e)) more = true ->
  resolved k w' = resolved k w.
Proof.
  intros E H. unfold resolved. rewrite E, List.filter_app, length_app.
  assert (Hn : List.filter (is_resolution k) more = []).
  { clear E. induction more as [|e more IH]; [reflexivity|].
    cbn in *. apply andb_true_iff in H as [H1 H2].
    destruct (is_resolution k e); [discriminate|]. apply IH, H2. }
  rewrite Hn. cbn. lia.
Qed.

Lemma left_behind_change (k n : nat) (w w' : World) (more : list Effect) :
  trace w' = (trace w ++ more)%list ->
  forallb (fun e => negb (is_resolution k e)) more = true ->
  eventSource (this w') <> Some k ->
  (length (sources w) <= length (sources w'))%nat ->
  left_behind k n w -> left_behind k n w'.
Proof.
  intros E Hm He Hl (Hn & _ & Hk). split; [|split].
  - rewrite (resolved_app k w w' more E Hm). exact Hn.
  - exact He.
  - lia.
Qed.

Lemma left_behind_silent (k n : nat) (w w' : World) :
  trace w' = trace w -> eventSource (this w') = eventSource (this w) ->
  length (sources w') = length (sources w) ->
  left_behind k n w -> left_behind k n w'.
Proof.
  intros E He Hl H. apply (left_behind_change k n w w' []); try assumption.
  - rewrite E, app_nil_r. reflexivity.
  - reflexivity.
  - rewrite He. apply H.
  - lia.
Qed.

Lemma left_behind_emit (k n : nat) (e : Effect) :
  (forall j, e <> StartResolved j) -> stable (left_behind k n) (emit e).
Proof.
  intros He w H. apply (left_behind_change k n w _ [e]); try (destruct w; reflexivity).
  - cbn. destruct e; try reflexivity. exfalso. apply (He k0). reflexivity.
  - destruct w. apply H.
  - assumption.
Qed.

Lemma left_behind_login (k n : nat) (w : World) (r : promise * World)
    (s' : CrownstoneSSE) (q : Request) (e : Effect) :
  eventSource s' = eventSource (this w) ->
  (forall j, e <> StartResolved j) ->
  snd r = {| this := s'; sources := sources w; timers := timers w;
             requests := requests w ++ [q]; now := now w; trace := trace w ++ [e] |} ->
  left_behind k n w -> left_behind k n (snd r).
Proof.
  intros He Hn -> H. apply (left_behind_change k n w _ [e]); try reflexivity.
  - cbn. destruct e; try reflexivity. exfalso. apply (Hn k0). reflexivity.
  - cbn [this]. rewrite He. apply H.
  - assumption.
Qed.

Lemma left_behind_loginHashed (k n : nat) (m p : string) :
  keeps (left_behind k n) (loginHashed m p).
Proof.
  intros w H. eapply left_behind_login; [| |rewrite loginHashed_spec; reflexivity|exact H].
  - reflexivity.
  - intros j; discriminate.
Qed.

Lemma left_behind_hubLogin (k n : nat) (i t : string) :
  keeps (left_behind k n) (hubLogin i t).
Proof.
  intros w H. eapply left_behind_login; [| |rewrite hubLogin_spec; reflexivity|exact H].
  - reflexivity.
  - intros j; discriminate.
Qed.

Lemma left_behind_closeEventSource (k n : nat) : stable (left_behind k n) closeEventSource.
Proof.
  intros w H. rewrite closeEventSource_spec.
  destruct (eventSource (this w)) as [id|].
  - eapply left_behind_change; [reflexivity| | | |exact H].
    + reflexivity.
    + discriminate.
    + cbn [sources]. rewrite length_alter. lia.
  - rewrite _clearPendingActions_spec.
    eapply left_behind_change; [reflexivity| | | |exact H].
    + reflexivity.
    + apply H.
    + reflexivity.
Qed.

Lemma left_behind_start (k n : nat) (cb : option callback) :
  keeps (left_behind k n) (start cb).
Proof.
  intros w H. rewrite start_spec. destruct (refuses w); [exact H|]. cbn [snd].
  assert (Hp : exists more, trace (prepared cb w) = (trace w ++ more)%list
                 /\ forallb (fun e => negb (is_resolution k e)) more = true).
  { destruct (eventSource (this w)) as [old|] eqn:E.
    - rewrite (prepared_with_handle cb w old E). eexists. split; reflexivity.
    - rewrite (prepared_without_handle cb w E). eexists. split; reflexivity. }
  destruct Hp as (more & Hp & Hm).
  destruct (prepared_frame cb w) as (Hlen & _ & _ & _ & Hnone).
  destruct (stream_url (this w)) as [u|e] eqn:Hu.
  - rewrite (started_connected cb w u Hu).
    apply (left_behind_change k n w _
             (more ++ [NewEventSource (length (sources w)) u;
                       AddEventListener (length (sources w)) on_open_event
                         (open_listener (length (sources w)));
                       AddEventListener (length (sources w)) on_message_event
                         (message_listener (length (sources w)));
                       AddEventListener (length (sources w)) on_error_event
                         (error_listener (length (sources w)))])%list).
    + cbn [trace]. rewrite Hp, <- app_assoc. reflexivity.
    + rewrite forallb_app, Hm. reflexivity.
    + cbn [this eventSource set_listeners set_eventSource].
      destruct H as (_ & _ & Hk). intros E. inversion E. lia.
    + cbn [sources]. rewrite length_app, Hlen. lia.
    + exact H.
  - rewrite (started_thrown cb w e Hu).
    apply (left_behind_change k n w _ more).
    + exact Hp.
    + exact Hm.
    + rewrite Hnone. discriminate.
    + rewrite Hlen. lia.
    + exact H.
Qed.

(** X17. Once a connection is no longer the current one, the promise
    returned by the [start] that created it is never resolved again,
    whatever happens afterwards: [resolve] is called by
    [listeners.open] only, and the listeners of a replaced connection
    have been removed.  In particular a connection that fails before it
    opens leaves its [start] promise pending for good.  The connection
    that does open resolves its own promise at that moment. *)
Theorem replaced_start_never_resolves
    (rt : Runtime) (options : option sseOptions) (w w' : World) (k : nat) (es : list event) :
  reachable rt options w ->
  (k < length (sources w))%nat -> eventSource (this w) <> Some k ->
  run rt w es = Some w' ->
  resolved k w' = resolved k w /\
  eventSource (this w') <> Some k /\
  (forall id w1, step rt w' (es_open id) = Some w1 ->
     id <> k /\ resolved id w1 = S (resolved id w')).
Proof.
  intros Hr Hk Hne Hrun.
  assert (H0 : left_behind k (resolved k w) w) by (repeat split; assumption).
  assert (H' : left_behind k (resolved k w) w').
  { apply (T_run_reached rt (left_behind k (resolved k w)) (fun _ => true)) with
      (options := options) (es := es) (w := w); try assumption.
    - apply left_behind_emit.
    - intros v w0 H. eapply left_behind_silent; [| | |exact H]; destruct w0; reflexivity.
    - intros v w0 H. eapply left_behind_silent; [| | |exact H]; destruct w0; reflexivity.
    - intros h w0 H. eapply left_behind_silent; [| | |exact H]; destruct w0; reflexivity.
    - intros f ms w0 H.
      apply (left_behind_change _ _ w0 _ [SetTimeout (length (timers w0)) f ms]);
        try (destruct w0; reflexivity); [destruct w0; apply H | exact H].
    - intros v w0 H. eapply left_behind_silent; [| | |exact H]; destruct w0; reflexivity.
    - intros w0 H. rewrite _messageReceived_spec.
      eapply left_behind_change; [reflexivity| | | |exact H];
        [reflexivity | apply H | reflexivity].
    - apply left_behind_closeEventSource.
    - apply left_behind_start.
    - intros w0 H. rewrite retryLogin_unfold.
      destruct (cachedLoginData (this w0)) as [d|]; [|exact H].
      destruct (hub d) as [h|]; [apply left_behind_hubLogin, H|].
      destruct (user d) as [u|]; [apply left_behind_loginHashed, H | exact H].
    - intros t w0 H. eapply left_behind_silent; [| | |exact H]; destruct w0; reflexivity.
    - intros id r w0 H. eapply left_behind_silent; [| | |exact H];
        destruct w0; try reflexivity. cbn. apply length_alter.
    - intros h f w0 H. eapply left_behind_silent; [| | |exact H]; destruct w0; reflexivity.
    - intros m p _. unfold login. apply left_behind_loginHashed.
    - intros m p _. apply left_behind_loginHashed.
    - intros i t _. apply left_behind_hubLogin.
    - intros _ w0 H. unfold stop. apply left_behind_closeEventSource.
      eapply left_behind_silent; [| | |exact H]; destruct w0; reflexivity.
    - intros w0 id _ H Hid. rewrite open_listener_spec. cbn [snd].
      assert (Hidk : id <> k) by (intros ->; destruct H as (_ & Hc & _); contradiction).
      eapply left_behind_change; [reflexivity| | | |].
      + cbn. destruct (Nat.eqb_spec id k); [contradiction|reflexivity].
      + cbn [this eventSource set_checkerInterval set_pingTimeout].
        destruct w0. cbn in *. rewrite Hid. congruence.
      + destruct w0. cbn. rewrite length_alter. lia.
      + eapply left_behind_silent; [| | |exact H]; destruct w0; try reflexivity.
        cbn. apply length_alter.
    - clear. induction es; [reflexivity|assumption]. }
  destruct H' as (Hn & Hc & Hlt).
  split; [exact Hn|]. split; [exact Hc|].
  intros id w1 Hs.
  assert (Hr' : reachable rt options w').
  { destruct Hr as [es0 Hr0]. exists (es0 ++ es)%list. rewrite run_app, Hr0. exact Hrun. }
  destruct (step_open rt options w' w1 id Hr' Hs) as (Hid & _ & ->).
  split; [congruence|].
  unfold run_handler. cbn [invoke]. rewrite open_listener_spec.
  unfold resolved. cbn [trace].
  assert (Etr : trace (set_readyState id OPEN w') = trace w') by (destruct w'; reflexivity).
  rewrite Etr, List.filter_app, length_app. cbn. rewrite Nat.eqb_refl. cbn. lia.
Qed.

Lemma replaced_start_never_resolves_witness :
  exists w',
    run demo_runtime failed_before_open recovery = Some w' /\
    eventSource (this failed_before_open) = None /\
    resolved 0 w' = 0%nat /\
    resolved 1 w' = 1%nat /\
    eventSource (this w') = Some 1%nat.
Proof.
  assert (Hr : reachable demo_runtime None failed_before_open).
  { exists [call_setAccessToken (JStr "t0"); call_start 1%nat; es_error 0 false].
    vm_compute. reflexivity. }
  assert (Hrun : exists w', run demo_runtime failed_before_open recovery = Some w'
                            /\ resolved 1 w' = 1%nat /\ eventSource (this w') = Some 1%nat).
  { eexists. split; [vm_compute; reflexivity|]. split; vm_compute; reflexivity. }
  destruct Hrun as (w' & Hrun & H1 & He). exists w'.
  destruct (replaced_start_never_resolves demo_runtime None failed_before_open w' 0%nat
              recovery Hr) as (H0 & _).
  - vm_compute. lia.
  - vm_compute. discriminate.
  - exact Hrun.
  - split; [exact Hrun|]. split; [vm_compute; reflexivity|].
    split; [rewrite H0; vm_compute; reflexivity|]. split; [exact H1|exact He].
Defined.

(* ================================================================== *)
(** ** The heartbeat does not fire early *)
(* ================================================================== *)





